(** * GeeCache: a shallow embedding of the cache core and its properties

    The development follows the Go packages of the repository:
    - [lru]            the byte-bounded least-recently-used store;
    - [consistenthash] the hash ring with virtual nodes;
    - [geecache]       ByteView, the locked store wrapper, Group and HTTPPool.

    Conventions.  A Go [int64] (and [int], taken to be 64 bits wide) is a [Z]
    together with the two's complement reduction [int64.wrap] applied after
    every addition and subtraction; a [string] is a [String.string], whose
    [String.length] is the byte length Go's [len] returns; a [[]byte] is a
    [list byte]; a Go map is a [gmap] or, when only the key set is read, a
    [gset].  Mutexes are not modelled: every operation runs alone from its
    first to its last statement.  Output written with [fmt.Println] and
    [log.Println] is not part of the state. *)

From Stdlib Require Import ZArith Lia.
From Stdlib Require Strings.Byte.
From stdpp Require Import gmap strings list sorting pretty.

Local Open Scope Z_scope.

(** ** Machine integers *)

Module int64.

Definition min : Z := - 2 ^ 63.
Definition max : Z := 2 ^ 63 - 1.

(** Reduction of an integer to the 64-bit two's complement range. *)
Definition wrap (z : Z) : Z := (z + 2 ^ 63) `mod` 2 ^ 64 - 2 ^ 63.

Definition add (x y : Z) : Z := wrap (x + y).
Definition sub (x y : Z) : Z := wrap (x - y).

Definition in_range (z : Z) : Prop := min ≤ z ≤ max.

End int64.

(** ** Package lru *)

Module lru.

(** [type Value interface { Len() int }] *)
Class Value (V : Type) := Len : V → Z.

Section Cache.
Context {V : Type} `{!Value V}.

(** [type Entry struct { key string; value Value }] *)
Record Entry := mkEntry { key : string; value : V }.

(** [type Cache struct].  The list [ll] has its front at the head.  The
    Go map [cache] sends a key to the list element that carries it; an
    element is known here by the key of its entry, which never changes
    and occurs once in the list (see [wf]), so the map is its key set.
    [OnEvicted] tells whether a callback is set; the calls made to it
    are recorded, latest first, in the ghost field [evictions]. *)
Record Cache := mkCache {
  maxBytes : Z;
  nBytes : Z;
  ll : list Entry;
  cache : gset string;
  OnEvicted : bool;
  evictions : list (string * V)
}.

Definition set_nBytes (n : Z) (c : Cache) : Cache :=
  mkCache (maxBytes c) n (ll c) (cache c) (OnEvicted c) (evictions c).
Definition set_ll (l : list Entry) (c : Cache) : Cache :=
  mkCache (maxBytes c) (nBytes c) l (cache c) (OnEvicted c) (evictions c).
Definition set_cache (m : gset string) (c : Cache) : Cache :=
  mkCache (maxBytes c) (nBytes c) (ll c) m (OnEvicted c) (evictions c).
Definition set_evictions (ev : list (string * V)) (c : Cache) : Cache :=
  mkCache (maxBytes c) (nBytes c) (ll c) (cache c) (OnEvicted c) ev.

(** [func New(maxBytes int64, OnEvicted func(string, Value)) *Cache] *)
Definition New (maxBytes : Z) (OnEvicted : bool) : Cache :=
  mkCache maxBytes 0 [] ∅ OnEvicted [].

(** [int64(node.value.Len()) + int64(len(node.key))] *)
Definition size (node : Entry) : Z :=
  int64.add (int64.wrap (Len (value node)))
            (int64.wrap (Z.of_nat (String.length (key node)))).

(** [c.nBytes += ...] *)
Definition allocate (c : Cache) (node : Entry) : Cache :=
  set_nBytes (int64.add (nBytes c) (size node)) c.

(** [c.nBytes -= ...] *)
Definition deallocate (c : Cache) (node : Entry) : Cache :=
  set_nBytes (int64.sub (nBytes c) (size node)) c.

(** *** The operations of container/list that the store uses *)

(** The element a map value points to: the one carrying [k]. *)
Fixpoint element (k : string) (l : list Entry) : option Entry :=
  match l with
  | [] => None
  | e :: l' => if decide (key e = k) then Some e else element k l'
  end.

(** [l.Remove(p)] for the element [p] carrying [k]. *)
Fixpoint Remove (k : string) (l : list Entry) : list Entry :=
  match l with
  | [] => []
  | e :: l' => if decide (key e = k) then l' else e :: Remove k l'
  end.

(** [l.MoveToFront(p)] for the element [p] carrying [k]. *)
Definition MoveToFront (k : string) (l : list Entry) : list Entry :=
  match element k l with
  | Some e => e :: Remove k l
  | None => l
  end.

(** [kv.value = value] on the entry of the element carrying [k]. *)
Fixpoint assign (k : string) (v : V) (l : list Entry) : list Entry :=
  match l with
  | [] => []
  | e :: l' =>
      if decide (key e = k) then mkEntry (key e) v :: l' else e :: assign k v l'
  end.

(** [l.PushFront(e)] *)
Definition PushFront (e : Entry) (l : list Entry) : list Entry := e :: l.

(** [l.Back()]: the last element, or nil. *)
Definition Back (l : list Entry) : option Entry := last l.

(** [l.Remove(l.Back())] *)
Definition RemoveBack (l : list Entry) : list Entry := take (length l - 1)%nat l.

(** *** The operations of the store *)

(** [func (c *Cache) Get(key string) (Value, bool)] *)
Definition Get (c : Cache) (k : string) : Cache * option V :=
  if decide (k ∈ cache c) then
    (set_ll (MoveToFront k (ll c)) c, value <$> element k (ll c))
  else (c, None).

(** [func (c *Cache) RemoveOldest()] *)
Definition RemoveOldest (c : Cache) : Cache :=
  match Back (ll c) with
  | Some kv =>
      let c := set_ll (RemoveBack (ll c)) c in
      let c := deallocate c kv in
      let c := set_cache (cache c ∖ {[key kv]}) c in
      if OnEvicted c then set_evictions ((key kv, value kv) :: evictions c) c
      else c
  | None => c
  end.

(** The two branches of [Add], before its eviction loop. *)
Definition Add_entry (c : Cache) (k : string) (v : V) : Cache :=
  if decide (k ∈ cache c) then
    match element k (ll c) with
    | Some kv =>
        let c := deallocate c kv in
        let kv' := mkEntry (key kv) v in
        let c := set_ll (assign k v (ll c)) c in
        let c := allocate c kv' in
        set_ll (MoveToFront k (ll c)) c
    | None => c
    end
  else
    let ele := mkEntry k v in
    let c := set_ll (PushFront ele (ll c)) c in
    let c := allocate c ele in
    set_cache ({[key ele]} ∪ cache c) c.

(** [c.maxBytes != 0 && c.nBytes > c.maxBytes], the condition of the loop
    that ends [Add]. *)
Definition over (c : Cache) : bool :=
  bool_decide (maxBytes c ≠ 0) && bool_decide (nBytes c > maxBytes c).

(** [for c.maxBytes != 0 && c.nBytes > c.maxBytes { c.RemoveOldest() }].
    The loop need not end, so it runs on fuel: [None] is a run that was
    still looping when the fuel was spent. *)
Fixpoint evict (fuel : nat) (c : Cache) : option Cache :=
  match fuel with
  | O => None
  | S fuel' => if over c then evict fuel' (RemoveOldest c) else Some c
  end.

(** [func (c *Cache) Add(key string, value Value)] *)
Definition Add (fuel : nat) (c : Cache) (k : string) (v : V) : option Cache :=
  evict fuel (Add_entry c k v).

(** [func (c *Cache) Len() int] *)
Definition Cache_Len (c : Cache) : Z := Z.of_nat (length (ll c)).

(** *** Sequences of operations *)

Inductive op := OpAdd (k : string) (v : V) | OpGet (k : string) | OpRemoveOldest.

Definition step (fuel : nat) (c : Cache) (o : op) : option Cache :=
  match o with
  | OpAdd k v => Add fuel c k v
  | OpGet k => Some (Get c k).1
  | OpRemoveOldest => Some (RemoveOldest c)
  end.

Fixpoint run (fuel : nat) (c : Cache) (ops : list op) : option Cache :=
  match ops with
  | [] => Some c
  | o :: ops' => c' ← step fuel c o; run fuel c' ops'
  end.

(** A sequence of calls to [Add]. *)
Definition adds (kvs : list (string * V)) : list op := (λ p, OpAdd p.1 p.2) <$> kvs.

(** The bytes the entries of a list account for, as an integer. *)
Definition total (l : list Entry) : Z :=
  foldr (λ e acc, Len (value e) + Z.of_nat (String.length (key e)) + acc) 0 l.

(** The same sum taken in [int64] arithmetic. *)
Definition total64 (l : list Entry) : Z :=
  foldr (λ e acc, int64.add (size e) acc) 0 l.

Definition keys (l : list Entry) : list string := key <$> l.

(** The pair the callback is called with for an entry. *)
Definition call (e : Entry) : string * V := (key e, value e).

(** *** Recency *)

(** The key a call accesses, if it accesses one. *)
Definition op_key (o : op) : list string :=
  match o with
  | OpAdd k _ => [k]
  | OpGet k => [k]
  | OpRemoveOldest => []
  end.

(** The keys a sequence of calls accesses, in the order of the calls. *)
Definition accessed (ops : list op) : list string := ops ≫= op_key.

(** Keys in the order of their latest access, the latest first: an access
    to [k] puts [k] in front and takes its earlier place away. *)
Definition touch (k : string) (ks : list string) : list string :=
  k :: filter (λ k', k' ≠ k) ks.
Definition recency (ks : list string) : list string :=
  foldl (λ l k, touch k l) [] ks.

(** Of the entries [rest], in their order, those that none of the accesses
    [acc] names. *)
Definition older (rest : list Entry) (acc : list string) : list Entry :=
  filter (λ x, key x ∉ acc) rest.

(** A call of [Add] between its insertion and its eviction loop: [None]
    when no call of [Add] is under way. *)
Definition pending (c : Cache) (p : option (string * V)) : Cache :=
  match p with
  | Some (k, v) => Add_entry c k v
  | None => c
  end.
Definition pending_key (p : option (string * V)) : list string :=
  match p with
  | Some (k, _) => [k]
  | None => []
  end.

(** Where the entry [e] stands in a list [l], for the accesses [acc] made
    to other keys since [e] was moved to the front of [e :: rest]: either
    [e] is in [l], behind entries that were accessed since, in the order of
    their latest access, and in front of entries of [rest] that were not,
    in their order, none missing that stood in front of another; or [e] is
    gone, and every entry of [l] was accessed since. *)
Definition promoted (e : Entry) (rest : list Entry) (acc : list string)
    (l : list Entry) : Prop :=
  (∃ front behind,
     l = front ++ e :: behind ∧
     (keys front `sublist_of` recency acc) ∧
     (behind `prefix_of` older rest acc)) ∨
  ((key e ∉ keys l) ∧ (keys l `sublist_of` recency acc)).

(** Representation invariant of a store. *)
Record wf (c : Cache) : Prop := mkWf {
  wf_cache : ∀ k, k ∈ cache c ↔ k ∈ keys (ll c);
  wf_nodup : NoDup (keys (ll c));
  wf_bytes : nBytes c = int64.wrap (total (ll c))
}.

End Cache.

Arguments Entry V : clear implicits.
Arguments Cache V : clear implicits.
Arguments op V : clear implicits.

End lru.

(** ** Go's standard library, as far as the packages below call it *)

Module gostd.

(** [[]byte(s)] and [string(b)] *)
Abbreviation byte := Byte.byte.
Definition bytes (s : string) : list byte := String.list_byte_of_string s.
Definition text (b : list byte) : string := String.string_of_list_byte b.

(** [uint32(i)] *)
Definition uint32 (z : Z) : Z := z `mod` 2 ^ 32.

(** [strconv.Itoa] *)
Definition Itoa (i : Z) : string := pretty i.

(** [strconv.Atoi] with its error dropped ([i, _ := strconv.Atoi(s)]): an
    optional sign and decimal digits, and 0 for anything else. *)
Definition digit (a : Ascii.ascii) : option Z :=
  let n := Z.of_N (Ascii.N_of_ascii a) in
  if bool_decide (48 ≤ n ≤ 57) then Some (n - 48) else None.

Fixpoint digits (acc : Z) (s : string) : option Z :=
  match s with
  | EmptyString => Some acc
  | String a s' => d ← digit a; digits (10 * acc + d) s'
  end.

Definition Atoi (s : string) : Z :=
  match s with
  | String a (String _ _ as s') =>
      if bool_decide (Ascii.N_of_ascii a = 45%N) then default 0 (Z.opp <$> digits 0 s')
      else if bool_decide (Ascii.N_of_ascii a = 43%N) then default 0 (digits 0 s')
      else default 0 (digits 0 s)
  | _ => default 0 (digits 0 s)
  end.

(** [hash/crc32.ChecksumIEEE]: the reflected CRC-32 of polynomial
    0xedb88320, one bit at a time. *)
Definition crc32_bit (crc : Z) : Z :=
  if Z.testbit crc 0 then Z.lxor (Z.shiftr crc 1) 0xedb88320 else Z.shiftr crc 1.

Definition crc32_byte (crc : Z) (b : byte) : Z :=
  Nat.iter 8 crc32_bit (Z.lxor crc (Z.of_N (Byte.to_N b))).

Definition ChecksumIEEE (data : list byte) : Z :=
  Z.lxor (foldl crc32_byte 0xffffffff data) 0xffffffff.

(** [sort.Ints]: the ascending rearrangement of the slice. *)
Definition Ints (l : list Z) : list Z := merge_sort Z.le l.

(** [sort.Search(n, f)]: binary search for the least index in [0, n) at
    which [f] holds, [n] when there is none.  The loop [for i < j] halves
    the interval, so [n] rounds are more than it ever takes. *)
Fixpoint Search_loop (fuel : nat) (f : Z → bool) (i j : Z) : Z :=
  match fuel with
  | O => i
  | S fuel' =>
      if bool_decide (i < j) then
        let h := Z.shiftr (i + j) 1 in
        if negb (f h) then Search_loop fuel' f (h + 1) j
        else Search_loop fuel' f i h
      else i
  end.

Definition Search (n : Z) (f : Z → bool) : Z := Search_loop (Z.to_nat n) f 0 n.

(** [strings.HasPrefix] *)
Definition HasPrefix (s prefix : string) : bool := String.prefix prefix s.

(** [s[n:]] *)
Fixpoint slice_from (n : nat) (s : string) : string :=
  match n, s with
  | S n', String _ s' => slice_from n' s'
  | _, _ => s
  end.

(** The text before and after the first occurrence of [sep] in [s]. *)
Fixpoint cut (sep s : string) : option (string * string) :=
  if String.prefix sep s then Some (EmptyString, slice_from (String.length sep) s)
  else match s with
       | EmptyString => None
       | String a s' => (λ p, (String a p.1, p.2)) <$> cut sep s'
       end.

(** [sep] occurs in [s]; and [s] is [a], the first [sep], and [b]. *)
Definition contains (s sep : string) : Prop := ∃ a b, s = a +:+ sep +:+ b.
Definition first_split (s sep a b : string) : Prop :=
  s = a +:+ sep +:+ b ∧ ¬ contains a sep.

(** [strings.SplitN(s, sep, n)] for a separator that is not empty and
    [n ≥ 0]: at most [n] pieces, the last one the unsplit rest. *)
Fixpoint SplitN (s sep : string) (n : nat) : list string :=
  match n with
  | O => []
  | S O => [s]
  | S n' =>
      match cut sep s with
      | Some (before, after) => before :: SplitN after sep n'
      | None => [s]
      end
  end.

(** [strings.Split(s, sep)]: every piece.  A string of length [k] has at
    most [k + 1] of them. *)
Definition Split (s sep : string) : list string := SplitN s sep (S (String.length s)).

End gostd.

(** ** Package consistenthash *)

Module consistenthash.
Import gostd.

(** [type Hash func(data []byte) uint32] *)
Definition Hash : Type := list byte → Z.

(** [type Map struct] *)
Record Map := mkMap {
  hash : Hash;
  replicas : Z;
  keys : list Z;
  hashMap : gmap Z string
}.

(** The hash function of a ring made by [New replicas fn]: [fn], or
    [crc32.ChecksumIEEE] when [fn] is nil ([None]). *)
Definition ring_hash (fn : option Hash) : Hash :=
  match fn with
  | Some fn => fn
  | None => ChecksumIEEE
  end.

(** [func New(replicas int, fn Hash) *Map] *)
Definition New (replicas : Z) (fn : option Hash) : Map :=
  mkMap (ring_hash fn) replicas [] ∅.

(** The body of the inner loop of [Add], for the replica index [i]. *)
Definition add_replica (key : string) (m : Map) (i : Z) : Map :=
  let h := hash m (bytes (Itoa i +:+ key)) in
  mkMap (hash m) (replicas m) (keys m ++ [h]) (<[h := key]> (hashMap m)).

(** [for i := 0; i < m.replicas; i++ { ... }] *)
Definition add_key (m : Map) (key : string) : Map :=
  foldl (add_replica key) m (seqZ 0 (replicas m)).

(** [func (m *Map) Add(keys ...string)] *)
Definition Add (m : Map) (nodes : list string) : Map :=
  let m := foldl add_key m nodes in
  mkMap (hash m) (replicas m) (Ints (keys m)) (hashMap m).

(** [m.keys[i]] *)
Definition at_index (l : list Z) (i : Z) : Z := l !!! Z.to_nat i.

(** [func (m *Map) Get(key string) string] *)
Definition Get (m : Map) (key : string) : string :=
  if bool_decide (length (keys m) = 0%nat) then ""
  else
    let h := hash m (bytes key) in
    let n := Z.of_nat (length (keys m)) in
    let idx := Search n (λ i, at_index (keys m) i >=? h) in
    default "" (hashMap m !! at_index (keys m) (idx `mod` n)).

(** A ring as a program builds it: [New], then any number of [Add] calls. *)
Definition build (replicas : Z) (fn : option Hash) (calls : list (list string)) : Map :=
  foldl Add (New replicas fn) calls.

(** The virtual nodes of a list of nodes, in the order [Add] meets them:
    each with its hash value. *)
Definition vnode (h : Hash) (node : string) (i : Z) : Z * string :=
  (h (bytes (Itoa i +:+ node)), node).
Definition vnodes (h : Hash) (replicas : Z) (nodes : list string) : list (Z * string) :=
  nodes ≫= λ node, vnode h node <$> seqZ 0 replicas.

(** [m.hashMap[hash] = key] for one virtual node. *)
Definition record (hm : gmap Z string) (p : Z * string) : gmap Z string :=
  <[p.1 := p.2]> hm.

(** The distinct node identifiers that were passed to [Add]. *)
Definition registered (calls : list (list string)) : gset string :=
  list_to_set (concat calls).

End consistenthash.

(** ** Package geecache *)

Module geecache.
Import gostd.

(** A Go [error], by its message. *)
Definition error : Type := string.

(** A pair [(value, err)] as the functions below return it. *)
Inductive result (A : Type) : Type :=
| Ok (a : A)
| Err (e : error).
Arguments Ok {A} a.
Arguments Err {A} e.

(** [type ByteView struct { b []byte }] *)
Record ByteView := mkByteView { b : list byte }.

(** [make([]byte, n)] and [copy(dst, src)] *)
Definition make (n : nat) : list byte := replicate n Byte.x00.
Definition copy (dst src : list byte) : list byte :=
  take (length dst) src ++ drop (length src) dst.

(** [func cloneBytes(bytes []byte) []byte] *)
Definition cloneBytes (bytes : list byte) : list byte :=
  let newBytes := make (length bytes) in
  copy newBytes bytes.

(** [func (v ByteView) Len() int] *)
#[global] Instance ByteView_Len : lru.Value ByteView := λ v, Z.of_nat (length (b v)).

(** [func (v ByteView) ByteSlice() []byte] *)
Definition ByteSlice (v : ByteView) : list byte := cloneBytes (b v).

(** [func (v ByteView) String() string] *)
Definition String (v : ByteView) : string := text (b v).

(** [type cache struct { mu sync.Mutex; cache *lru.Cache; cacheBytes int64 }];
    [None] is the nil pointer of a store not built yet. *)
Record cache := mkcache {
  cache_lru : option (lru.Cache ByteView);
  cacheBytes : Z
}.

(** [func (c *cache) add(key string, value ByteView)] *)
Definition add (fuel : nat) (c : cache) (key : string) (value : ByteView) : option cache :=
  let store := match cache_lru c with
               | None => lru.New (cacheBytes c) false
               | Some store => store
               end in
  store' ← lru.Add fuel store key value;
  Some (mkcache (Some store') (cacheBytes c)).

(** [func (c *cache) get(key string) (value ByteView, ok bool)] *)
Definition get (c : cache) (key : string) : cache * option ByteView :=
  match cache_lru c with
  | None => (c, None)
  | Some store =>
      let '(store', v) := lru.Get store key in
      (mkcache (Some store') (cacheBytes c), v)
  end.

(** [type Getter interface { Get(key string) ([]byte, error) }] *)
Definition Getter : Type := string → result (list byte).

(** Modelled from the spec: the declarations of the interfaces PeerGetter
    and PeerPicker are not among the sources, which only call them.  Spec
    4.4: "fetch a key within a namespace from a specific peer" returns
    bytes or a failure, and "pick the owning peer for a key" returns a
    fetch handle and whether a remote peer was found.  A fetch is a read of
    the network and leaves the state of this process alone. *)
Definition PeerGetter : Type := string → string → result (list byte).
Definition PeerPicker : Type := string → option PeerGetter.

(** [type Group struct].  The ghost field [loads] lists the keys the
    getter was called with, latest first. *)
Record Group := mkGroup {
  name : string;
  maincache : cache;
  getter : Getter;
  peers : option PeerPicker;
  loads : list string
}.

Definition set_maincache (mc : cache) (g : Group) : Group :=
  mkGroup (name g) mc (getter g) (peers g) (loads g).
Definition call_getter (key : string) (g : Group) : Group * result (list byte) :=
  (mkGroup (name g) (maincache g) (getter g) (peers g) (key :: loads g), getter g key).

(** What a call ends in: a return or a panic. *)
Inductive outcome (A : Type) : Type :=
| Returns (a : A)
| Panics (msg : string).
Arguments Returns {A} a.
Arguments Panics {A} msg.

(** The package variable [groups]: the registry of the process.  A Go map
    value is a pointer to the group, so a change to a group is a change to
    the registry's entry. *)
Abbreviation registry := (gmap string Group).

(** [func NewGroup(name string, cacheBytes int64, getter Getter) *Group] *)
Definition NewGroup (groups : registry) (name : string) (cacheBytes : Z)
    (getter : option Getter) : outcome (Group * registry) :=
  match getter with
  | None => Panics "geecache: nil Getter"
  | Some getter =>
      let newGroup := mkGroup name (mkcache None cacheBytes) getter None [] in
      Returns (newGroup, <[name := newGroup]> groups)
  end.

(** [func GetGroup(name string) *Group] *)
Definition GetGroup (groups : registry) (name : string) : option Group := groups !! name.

(** [func (g *Group) populateCache(key string, value ByteView)] *)
Definition populateCache (fuel : nat) (g : Group) (key : string) (value : ByteView)
    : option Group :=
  mc ← add fuel (maincache g) key value;
  Some (set_maincache mc g).

(** [func (g *Group) getLocally(key string) (ByteView, error)] *)
Definition getLocally (fuel : nat) (g : Group) (key : string)
    : option (Group * result ByteView) :=
  let '(g, r) := call_getter key g in
  match r with
  | Err err => Some (g, Err err)
  | Ok bytes =>
      let value := mkByteView (cloneBytes bytes) in
      g ← populateCache fuel g key value;
      Some (g, Ok value)
  end.

(** [func (g *Group) getFromPeer(peer PeerGetter, key string) (ByteView, error)] *)
Definition getFromPeer (g : Group) (peer : PeerGetter) (key : string) : result ByteView :=
  match peer (name g) key with
  | Err err => Err err
  | Ok bytes => Ok (mkByteView (cloneBytes bytes))
  end.

(** [func (g *Group) load(key string) (ByteView, error)] *)
Definition load (fuel : nat) (g : Group) (key : string) : option (Group * result ByteView) :=
  match peers g with
  | Some picker =>
      match picker key with
      | Some peerGetter =>
          match getFromPeer g peerGetter key with
          | Ok v => Some (g, Ok v)
          | Err _ => getLocally fuel g key
          end
      | None => getLocally fuel g key
      end
  | None => getLocally fuel g key
  end.

(** [func (g *Group) Get(key string) (ByteView, error)].  [None] is a call
    that was still in the store's eviction loop when the fuel was spent. *)
Definition Get (fuel : nat) (g : Group) (key : string) : option (Group * result ByteView) :=
  let '(mc, hit) := get (maincache g) key in
  let g := set_maincache mc g in
  match hit with
  | Some v => Some (g, Ok v)
  | None => load fuel g key
  end.

(** The store of a group, as [add] finds it or makes it. *)
Definition store_of (g : Group) : lru.Cache ByteView :=
  match cache_lru (maincache g) with
  | Some store => store
  | None => lru.New (cacheBytes (maincache g)) false
  end.

(** The key is in the local store. *)
Definition holds (g : Group) (key : string) : Prop := key ∈ lru.cache (store_of g).

(** The store of the group is a well-formed store of the group's capacity. *)
Definition wf_group (g : Group) : Prop :=
  lru.wf (store_of g) ∧ lru.maxBytes (store_of g) = cacheBytes (maincache g).

(** What the remote peer picked for the key answers, if one is picked. *)
Definition remote (g : Group) (key : string) : option (result (list byte)) :=
  picker ← peers g; peer ← picker key; Some (peer (name g) key).

(** No remote peer supplies the key: none is picked, or its fetch fails. *)
Definition no_remote_value (g : Group) (key : string) : Prop :=
  ∀ bytes, remote g key ≠ Some (Ok bytes).

(** The groups a program can have: [NewGroup] makes a group, and [Get] is
    the one exported function that changes it (the field [peers] is set by
    no function of the package). *)
Inductive reachable : Group → Prop :=
| reachable_NewGroup groups name cacheBytes getter g groups' :
    NewGroup groups name cacheBytes (Some getter) = Returns (g, groups') →
    reachable g
| reachable_Get fuel g key g' r :
    reachable g → Get fuel g key = Some (g', r) → reachable g'.

(** *** The HTTP side *)

Definition defaultBasePath : string := "/_geecache/".
Definition defaultReplicas : Z := 50.

(** [type httpGetter struct { baseURL string }] *)
Record httpGetter := mkhttpGetter { baseURL : string }.

(** What [http.Get] ends in: an error, or a status code and the outcome of
    reading the body. *)
Inductive http_outcome : Type :=
| HttpError (err : error)
| HttpResponse (StatusCode : Z) (Body : result (list byte)).

Section client.
(** The network, and [url.QueryEscape]. *)
Variable http_Get : string → http_outcome.
Variable QueryEscape : string → string.

(** [func (h *httpGetter) Get(group string, key string) ([]byte, error)] *)
Definition httpGetter_Get (h : httpGetter) : PeerGetter := λ group key,
  let newUrl := baseURL h +:+ QueryEscape group +:+ "/" +:+ QueryEscape key in
  match http_Get newUrl with
  | HttpError err => Err err
  | HttpResponse StatusCode Body =>
      if bool_decide (StatusCode ≠ 200) then Err ("server returned:" +:+ Itoa StatusCode)
      else match Body with
           | Err err => Err ("reading response body:" +:+ err)
           | Ok bytes => Ok bytes
           end
  end.
End client.

(** [type HTTPPool struct]; the ring and the getters of the peers play no
    part on the serving side. *)
Record HTTPPool := mkHTTPPool {
  self : string;
  basePath : string;
  pool_peers : option consistenthash.Map;
  httpGetters : gmap string httpGetter
}.

(** [func NewHTTPPool(self string) *HTTPPool] *)
Definition NewHTTPPool (self : string) : HTTPPool :=
  mkHTTPPool self defaultBasePath None ∅.

(** What a handler leaves in its [http.ResponseWriter]. *)
Record Response := mkResponse {
  StatusCode : Z;
  Header : gmap string string;
  Body : list byte
}.

Definition StatusOK : Z := 200.
Definition StatusBadRequest : Z := 400.
Definition StatusNotFound : Z := 404.
Definition StatusInternalServerError : Z := 500.

(** [http.Error(w, msg, code)] on a writer nothing was written to. *)
Definition http_Error (msg : string) (code : Z) : Response :=
  mkResponse code
    (<["Content-Type" := "text/plain; charset=utf-8"]>
       (<["X-Content-Type-Options" := "nosniff"]> ∅))
    (bytes (msg +:+ String.String (Ascii.ascii_of_nat 10) "")).

(** [func (h *HTTPPool) ServeHTTP(w http.ResponseWriter, r *http.Request)],
    on the path [r.URL.Path]. *)
Definition ServeHTTP (fuel : nat) (h : HTTPPool) (groups : registry) (Path : string)
    : option (outcome (registry * Response)) :=
  if negb (HasPrefix Path (basePath h)) then
    Some (Panics ("HTTPPool serving unexpected path: " +:+ Path))
  else
    let parts := SplitN (slice_from (String.length (basePath h)) Path) "/" 2 in
    match parts with
    | [groupName; key] =>
        match GetGroup groups groupName with
        | None =>
            Some (Returns (groups, http_Error ("no such group: " +:+ groupName) StatusNotFound))
        | Some group =>
            '(group', r) ← Get fuel group key;
            let groups := <[groupName := group']> groups in
            match r with
            | Err err => Some (Returns (groups, http_Error err StatusInternalServerError))
            | Ok view =>
                Some (Returns (groups,
                  mkResponse StatusOK (<["Content-Type" := "application/octet-stream"]> ∅)
                             (ByteSlice view)))
            end
        end
    | _ => Some (Returns (groups, http_Error "bad request" StatusBadRequest))
    end.

(** [func (h *HTTPPool) Set(peers ...string)]; [Set] is a word of Rocq. *)
Definition Set_peers (h : HTTPPool) (peers : list string) : HTTPPool :=
  let ring := consistenthash.Add (consistenthash.New defaultReplicas None) peers in
  let getters :=
    foldl (λ (m : gmap string httpGetter) peer,
             <[peer := mkhttpGetter (peer +:+ basePath h)]> m) ∅ peers in
  mkHTTPPool (self h) (basePath h) (Some ring) getters.

(** [func (h *HTTPPool) PickPeer(key string) (PeerGetter, bool)].  [None]
    is the answer [(nil, false)]; [Some p] is the answer
    [(h.httpGetters[peer], true)], where [p] is [None] when the map has no
    getter for the peer and the pointer it returns is nil. *)
Definition PickPeer (h : HTTPPool) (key : string) : option (option httpGetter) :=
  match pool_peers h with
  | None => None
  | Some ring =>
      let peer := consistenthash.Get ring key in
      if bool_decide (peer ≠ "") && bool_decide (peer ≠ self h)
      then Some (httpGetters h !! peer)
      else None
  end.

(** What a client is handed for what a handler did: the status and the
    body of the response. *)
Definition delivered (resp : Response) : http_outcome :=
  HttpResponse (StatusCode resp) (Ok (Body resp)).

End geecache.

(** ** The store of src/cache.go

    The file holds the store as package geecache had it before package
    lru: the same struct, [Get], [RemoveOldest], [allocate] and
    [deallocate] (there without the [fmt.Println]), with [Value.Len]
    returning an [int64], and another [Add]. *)

Module cache_go.
Import lru.

Section Cache.
Context {V : Type} `{!Value V}.

(** [func NewCache(maxBytes int64, OnEvicted func(string, Value)) *Cache] *)
Definition NewCache (maxBytes : Z) (OnEvicted : bool) : Cache V := New maxBytes OnEvicted.

(** [l.PushBack(e)] *)
Definition PushBack (e : Entry V) (l : list (Entry V)) : list (Entry V) := l ++ [e].

(** [func (c *Cache) Add(key string, value Value)] of src/cache.go: a new
    entry goes to the back of the list, and the store is checked against
    its budget once, and only after a new entry. *)
Definition Add (c : Cache V) (k : string) (v : V) : Cache V :=
  if decide (k ∈ cache c) then
    match element k (ll c) with
    | Some kv =>
        let c := deallocate c kv in
        let kv' := mkEntry (key kv) v in
        let c := set_ll (assign k v (ll c)) c in
        let c := allocate c kv' in
        set_ll (MoveToFront k (ll c)) c
    | None => c
    end
  else
    let ele := mkEntry k v in
    let c := set_ll (PushBack ele (ll c)) c in
    let c := allocate c ele in
    let c := set_cache ({[key ele]} ∪ cache c) c in
    if bool_decide (nBytes c > maxBytes c) then RemoveOldest c else c.

(** Sequences of operations on this store; every one of them ends. *)
Definition step (c : Cache V) (o : op V) : Cache V :=
  match o with
  | OpAdd k v => Add c k v
  | OpGet k => (Get c k).1
  | OpRemoveOldest => RemoveOldest c
  end.

Definition run (c : Cache V) (ops : list (op V)) : Cache V := foldl step c ops.

End Cache.

End cache_go.

(** ** The data of the worked examples *)

Module scenario.
Import gostd geecache.

(** A value holding the bytes of a text. *)
Definition bv (s : string) : ByteView := mkByteView (bytes s).

(** Two entries of seven bytes each, and a third. *)
Definition two_adds : list (string * ByteView) :=
  [("k1", bv "12345"); ("k2", bv "67890")].
Definition three_ops : list (lru.op ByteView) :=
  [lru.OpAdd "k1" (bv "12345"); lru.OpAdd "k2" (bv "67890"); lru.OpAdd "k3" (bv "abcde")].

(** The store of capacity 20 after the three calls: "k3" in front of "k2". *)
Definition store20 : lru.Cache ByteView :=
  lru.mkCache 20 14 [lru.mkEntry "k3" (bv "abcde"); lru.mkEntry "k2" (bv "67890")]
    {["k2"; "k3"]} false [].

(** After [Get "k2"] on that store, which puts "k2" in front of "k3": a
    [Get] of the key "k1", which is not there, and a call of [Add] for a
    fourth key. *)
Definition store20' : lru.Cache ByteView :=
  lru.mkCache 20 14 [lru.mkEntry "k2" (bv "67890"); lru.mkEntry "k3" (bv "abcde")]
    {["k2"; "k3"]} false [].
Definition one_miss : list (lru.op ByteView) := [lru.OpGet "k1"].
Definition add_k4 : option (string * ByteView) := Some ("k4", bv "vwxyz").

(** The same with a callback set: the store after the first two calls, and
    after the third, which evicts "k1". *)
Definition two_ops : list (lru.op ByteView) :=
  [lru.OpAdd "k1" (bv "12345"); lru.OpAdd "k2" (bv "67890")].
Definition store14 : lru.Cache ByteView :=
  lru.mkCache 20 14 [lru.mkEntry "k2" (bv "67890"); lru.mkEntry "k1" (bv "12345")]
    {["k1"; "k2"]} true [].
Definition store14' : lru.Cache ByteView :=
  lru.mkCache 20 14 [lru.mkEntry "k3" (bv "abcde"); lru.mkEntry "k2" (bv "67890")]
    {["k2"; "k3"]} true [("k1", bv "12345")].

(** The hash function of the ring example: the text read as a number. *)
Definition number_hash : consistenthash.Hash := λ data, uint32 (Atoi (text data)).

(** The ring of the example: three virtual nodes each for "2", "4", "6". *)
Definition ring246 : consistenthash.Map :=
  consistenthash.build 3 (Some number_hash) [["2"; "4"; "6"]].

(** The data source of [main]. *)
Definition db : gmap string string :=
  <["Tom" := "630"]> (<["Jack" := "589"]> (<["Sam" := "567"]> ∅)).

Definition db_getter : Getter := λ key,
  match db !! key with
  | Some v => Ok (bytes v)
  | None => Err ("key " +:+ key +:+ " not exist")
  end.

(** The group "score" of capacity 2048 as [NewGroup] makes it, and the
    registry that holds it. *)
Definition score : Group := mkGroup "score" (mkcache None 2048) db_getter None [].
Definition groups : gmap string Group := <["score" := score]> ∅.

(** The same group with a peer picker that sends every key to a peer that
    answers "remote", and one whose peer is out of reach. *)
Definition answering : PeerGetter := λ _ _, Ok (bytes "remote").
Definition unreachable : PeerGetter := λ _ _, Err "connection refused".
Definition score_with (peer : PeerGetter) : Group :=
  mkGroup "score" (mkcache None 2048) db_getter (Some (λ _, Some peer)) [].

Definition pool : HTTPPool := NewHTTPPool "localhost:8001".

(** The pool of this node once it is told of itself and of two peers. *)
Definition three_peers : list string :=
  ["localhost:8001"; "localhost:8002"; "localhost:8003"].
Definition pool3 : HTTPPool := Set_peers pool three_peers.

(** A network on which every request is answered with status 200 and the
    body "630", and a getter for the node of [pool]. *)
Definition answers_630 : string → http_outcome :=
  λ _, HttpResponse 200 (Ok (bytes "630")).
Definition getter_8001 : httpGetter := mkhttpGetter "localhost:8001/_geecache/".

(** The group "score" with room for 5 bytes, and with a negative capacity. *)
Definition score_of (cacheBytes : Z) : Group :=
  mkGroup "score" (mkcache None cacheBytes) db_getter None [].

End scenario.

(** ** Facts about machine integers *)

Module int64_facts.
Import int64.

Lemma wrap_range z : in_range (wrap z).
Proof. unfold in_range, wrap, min, max. pose proof (Z.mod_pos_bound (z + 2 ^ 63) (2 ^ 64)). lia. Qed.

Lemma wrap_small z : in_range z → wrap z = z.
Proof. unfold in_range, wrap, min, max. intros ?. rewrite Z.mod_small; lia. Qed.

Lemma wrap_0 : wrap 0 = 0.
Proof. reflexivity. Qed.

Lemma wrap_add_l x y : wrap (wrap x + y) = wrap (x + y).
Proof.
  unfold wrap. f_equal.
  replace ((x + 2 ^ 63) `mod` 2 ^ 64 - 2 ^ 63 + y + 2 ^ 63)
    with ((x + 2 ^ 63) `mod` 2 ^ 64 + y) by lia.
  rewrite Zplus_mod_idemp_l. f_equal. lia.
Qed.

Lemma wrap_add_r x y : wrap (x + wrap y) = wrap (x + y).
Proof. rewrite (Z.add_comm x), wrap_add_l. f_equal. lia. Qed.

Lemma wrap_sub_l x y : wrap (wrap x - y) = wrap (x - y).
Proof. unfold Z.sub. apply wrap_add_l. Qed.

Lemma wrap_sub_r x y : wrap (x - wrap y) = wrap (x - y).
Proof.
  assert (H64 : 2 ^ 64 = 2 * 2 ^ 63) by reflexivity.
  unfold wrap. f_equal.
  replace (x - ((y + 2 ^ 63) `mod` 2 ^ 64 - 2 ^ 63) + 2 ^ 63)
    with ((x + 2 ^ 64) - (y + 2 ^ 63) `mod` 2 ^ 64) by lia.
  rewrite Zminus_mod_idemp_r.
  f_equal. lia.
Qed.

Lemma wrap_wrap z : wrap (wrap z) = wrap z.
Proof. apply wrap_small, wrap_range. Qed.

End int64_facts.

(** ** Facts about package lru *)

Module lru_facts.
Import lru int64_facts.

Section facts.
Context {V : Type} `{!Value V}.
Implicit Types (c : Cache V) (l : list (Entry V)) (e : Entry V) (k : string) (v : V).

(** The bytes one entry accounts for, as an integer. *)
Lemma size_wrap e :
  size e = int64.wrap (Len (value e) + Z.of_nat (String.length (key e))).
Proof. unfold size, int64.add. by rewrite wrap_add_l, wrap_add_r. Qed.

Lemma total_nil : total (V:=V) [] = 0.
Proof. reflexivity. Qed.

Lemma total_cons e l :
  total (e :: l) = Len (value e) + Z.of_nat (String.length (key e)) + total l.
Proof. reflexivity. Qed.

Lemma total_app l1 l2 : total (l1 ++ l2) = total l1 + total l2.
Proof. induction l1 as [|e l1 IH]; [done|]. rewrite <- app_comm_cons, !total_cons, IH. lia. Qed.

Lemma total_Permutation l1 l2 : l1 ≡ₚ l2 → total l1 = total l2.
Proof. induction 1; rewrite ?total_cons in *; lia. Qed.

Lemma total64_wrap l : total64 l = int64.wrap (total l).
Proof.
  induction l as [|e l IH]; [done|].
  change (total64 (e :: l)) with (int64.add (size e) (total64 l)).
  rewrite total_cons, IH, size_wrap. unfold int64.add.
  rewrite wrap_add_l, wrap_add_r. f_equal; lia.
Qed.

(** *** The list operations *)

Lemma element_Some k l e : element k l = Some e → key e = k ∧ e ∈ l.
Proof.
  induction l as [|e' l IH]; simpl; [done|].
  case_decide; intros He.
  - injection He as <-. split; [done|]. left.
  - destruct (IH He) as [? ?]. split; [done|]. by right.
Qed.

Lemma element_None k l : element k l = None ↔ k ∉ keys l.
Proof.
  unfold keys. induction l as [|e' l IH]; simpl.
  - split; [intros _; apply not_elem_of_nil | done].
  - case_decide as Hk; rewrite not_elem_of_cons.
    + split; [done | intros [Hne _]; by destruct Hne].
    + rewrite IH. split; [intros ?; split; [intros ->; by destruct Hk | done] | tauto].
Qed.

Lemma element_is_Some k l : k ∈ keys l → is_Some (element k l).
Proof.
  intros Hin. destruct (element k l) eqn:E; [eauto|].
  by apply element_None in E.
Qed.

Lemma Remove_Permutation k l e : element k l = Some e → l ≡ₚ e :: Remove k l.
Proof.
  revert e. induction l as [|e' l IH]; simpl; [done|]. intros e.
  case_decide; intros He.
  - by injection He as <-.
  - rewrite (IH _ He) at 1. apply Permutation_swap.
Qed.

Lemma MoveToFront_Permutation k l : MoveToFront k l ≡ₚ l.
Proof.
  unfold MoveToFront. destruct (element k l) eqn:E; [|done].
  symmetry. by apply Remove_Permutation.
Qed.

Lemma keys_Permutation l1 l2 : l1 ≡ₚ l2 → keys l1 ≡ₚ keys l2.
Proof. apply fmap_Permutation. Qed.

Lemma keys_assign k v l : keys (assign k v l) = keys l.
Proof.
  unfold keys. induction l as [|e l IH]; simpl; [done|].
  case_decide; simpl; [done | f_equal; apply IH].
Qed.

Lemma element_assign k v l e :
  element k l = Some e → element k (assign k v l) = Some (mkEntry k v).
Proof.
  induction l as [|e' l IH]; simpl; [done|].
  case_decide as Hk; simpl.
  - intros _. rewrite decide_True by done. by rewrite Hk.
  - intros He. rewrite decide_False by done. auto.
Qed.

Lemma Remove_assign k v l : Remove k (assign k v l) = Remove k l.
Proof.
  induction l as [|e' l IH]; simpl; [done|].
  case_decide as Hk; simpl.
  - by rewrite decide_True.
  - rewrite decide_False by done. by rewrite IH.
Qed.

Lemma total_assign k v l e :
  element k l = Some e →
  total (assign k v l) = total l - Len (value e) + Len v.
Proof.
  revert e. induction l as [|e' l IH]; simpl; [done|]. intros e.
  case_decide as Hk; intros He.
  - injection He as <-. rewrite !total_cons. simpl. lia.
  - rewrite !total_cons, (IH _ He). lia.
Qed.

Lemma Back_snoc l e : Back l = Some e → l = RemoveBack l ++ [e].
Proof.
  unfold Back, RemoveBack. intros Hl.
  destruct (last_Some l e) as [[l' ->] _]; [done|].
  rewrite length_app. simpl.
  replace (length l' + 1 - 1)%nat with (length l') by lia.
  by rewrite take_app_length.
Qed.

Lemma Back_None l : Back l = None → l = [].
Proof. unfold Back. apply last_None. Qed.

Lemma RemoveBack_length l : length (RemoveBack l) = (length l - 1)%nat.
Proof. unfold RemoveBack. rewrite length_take. lia. Qed.


#[local] Arguments total : simpl never.
#[local] Arguments keys : simpl never.
#[local] Arguments size : simpl never.

(** *** Field by field: what each operation does to a store *)

Lemma RemoveOldest_ll c : ll (RemoveOldest c) = RemoveBack (ll c).
Proof.
  unfold RemoveOldest. destruct (Back (ll c)) eqn:E; simpl.
  - by destruct (OnEvicted c).
  - by rewrite (Back_None _ E).
Qed.

Lemma RemoveOldest_maxBytes c : maxBytes (RemoveOldest c) = maxBytes c.
Proof. unfold RemoveOldest. destruct (Back (ll c)); simpl; [by destruct (OnEvicted c)|done]. Qed.

Lemma RemoveOldest_nBytes c e :
  Back (ll c) = Some e → nBytes (RemoveOldest c) = int64.sub (nBytes c) (size e).
Proof. unfold RemoveOldest. intros ->. simpl. by destruct (OnEvicted c). Qed.

Lemma RemoveOldest_cache c e :
  Back (ll c) = Some e → cache (RemoveOldest c) = cache c ∖ {[key e]}.
Proof. unfold RemoveOldest. intros ->. simpl. by destruct (OnEvicted c). Qed.

Lemma RemoveOldest_empty c : ll c = [] → RemoveOldest c = c.
Proof. unfold RemoveOldest. by intros ->. Qed.

Lemma Add_entry_maxBytes c k v : maxBytes (Add_entry c k v) = maxBytes c.
Proof. unfold Add_entry. case_decide; [destruct (element k (ll c))|]; done. Qed.

(** *** The representation invariant *)

Lemma wf_New M cb : wf (New (V:=V) M cb).
Proof.
  split; simpl.
  - intros k. split; [set_solver | by intros ?%elem_of_nil].
  - constructor.
  - done.
Qed.

Lemma wf_Get c k : wf c → wf (Get c k).1.
Proof.
  intros [Hc Hn Hb]. unfold Get. case_decide; [|done].
  pose proof (MoveToFront_Permutation k (ll c)) as HP.
  split; simpl.
  - intros k'. rewrite Hc. by rewrite (keys_Permutation _ _ HP).
  - by rewrite (keys_Permutation _ _ HP).
  - by rewrite (total_Permutation _ _ HP).
Qed.

Lemma wf_RemoveOldest c : wf c → wf (RemoveOldest c).
Proof.
  intros [Hc Hn Hb]. destruct (Back (ll c)) as [e|] eqn:E.
  - pose proof (Back_snoc _ _ E) as Hl.
    assert (Hn' : NoDup (keys (RemoveBack (ll c)) ++ [key e])).
    { revert Hn. rewrite Hl at 1. unfold keys. by rewrite fmap_app. }
    apply NoDup_app in Hn' as (Hn1 & Hn2 & _).
    split.
    + intros k. rewrite (RemoveOldest_cache _ _ E), RemoveOldest_ll.
      rewrite elem_of_difference, Hc. rewrite Hl at 1. unfold keys.
      rewrite fmap_app, elem_of_app. simpl. rewrite !list_elem_of_singleton, elem_of_singleton.
      split; [tauto|]. intros Hk. split; [by left|]. intros ->. by eapply Hn2; [|left].
    + by rewrite RemoveOldest_ll.
    + rewrite (RemoveOldest_nBytes _ _ E), RemoveOldest_ll, Hb, size_wrap.
      unfold int64.sub. rewrite wrap_sub_l, wrap_sub_r. f_equal.
      rewrite Hl at 1. rewrite total_app, total_cons, total_nil. lia.
  - rewrite RemoveOldest_empty; [done|]. by apply Back_None.
Qed.

Lemma wf_Add_entry c k v : wf c → wf (Add_entry c k v).
Proof.
  intros [Hc Hn Hb]. unfold Add_entry. case_decide as Hk.
  - destruct (element k (ll c)) as [old|] eqn:E; [|done].
    destruct (element_Some _ _ _ E) as [Hko _].
    pose proof (element_assign _ v _ _ E) as E'.
    pose proof (Remove_Permutation _ _ _ E') as HP.
    unfold allocate, deallocate, MoveToFront. simpl. rewrite E'.
    split; simpl.
    + intros k'. rewrite Hc. rewrite <- (keys_assign k v (ll c)).
      by rewrite (keys_Permutation _ _ HP).
    + rewrite <- (keys_Permutation _ _ HP). by rewrite keys_assign.
    + rewrite <- (total_Permutation _ _ HP), (total_assign _ _ _ _ E), Hb, !size_wrap.
      unfold int64.add, int64.sub. simpl.
      rewrite wrap_sub_l, wrap_sub_r, wrap_add_l, wrap_add_r. f_equal. lia.
  - unfold allocate, PushFront. split; simpl.
    + intros k'. rewrite elem_of_union, elem_of_singleton, Hc.
      unfold keys. rewrite fmap_cons, elem_of_cons. done.
    + unfold keys. rewrite fmap_cons. simpl. apply NoDup_cons. split; [|done].
      by rewrite <- Hc.
    + rewrite Hb, size_wrap, total_cons. unfold int64.add. simpl.
      rewrite wrap_add_l, wrap_add_r. f_equal. lia.
Qed.

(** *** The eviction loop *)

Lemma evict_unfold fuel c :
  evict (S fuel) c = if over c then evict fuel (RemoveOldest c) else Some c.
Proof. reflexivity. Qed.

Lemma over_false c : over c = false ↔ maxBytes c = 0 ∨ nBytes c ≤ maxBytes c.
Proof.
  unfold over. rewrite andb_false_iff, !bool_decide_eq_false.
  split; (intros [?|?]; [left|right]); [by apply dec_stable| lia | congruence | lia].
Qed.

(** More fuel does not change a run that ended. *)
Lemma evict_mono fuel fuel' c c' :
  evict fuel c = Some c' → (fuel ≤ fuel')%nat → evict fuel' c = Some c'.
Proof.
  revert fuel' c. induction fuel as [|fuel IH]; intros fuel' c; [done|].
  intros Hev Hle. destruct fuel' as [|fuel']; [lia|].
  rewrite evict_unfold in *. destruct (over c); [|done].
  apply IH; [done | lia].
Qed.

(** A run that ended made some number of calls to [RemoveOldest], each
    while the store was over its budget, and stopped at the first store
    that was not. *)
Lemma evict_iter fuel c c' :
  evict fuel c = Some c' →
  ∃ j, c' = Nat.iter j RemoveOldest c ∧ over c' = false ∧
       ∀ i, (i < j)%nat → over (Nat.iter i RemoveOldest c) = true.
Proof.
  revert c. induction fuel as [|fuel IH]; intros c; [done|].
  rewrite evict_unfold. destruct (over c) eqn:Ho.
  - intros (j & -> & Hj & Hlt)%IH. exists (S j).
    rewrite Nat.iter_succ_r. split_and!; [done..|].
    intros [|i] Hi; [done|]. rewrite Nat.iter_succ_r. apply Hlt. lia.
  - intros [= <-]. exists 0%nat. split_and!; [done..|]. lia.
Qed.

Lemma wf_iter j c : wf c → wf (Nat.iter j RemoveOldest c).
Proof. intros Hwf. induction j; simpl; [done|]. by apply wf_RemoveOldest. Qed.

Lemma iter_maxBytes j c : maxBytes (Nat.iter j RemoveOldest c) = maxBytes c.
Proof. induction j; simpl; [done|]. by rewrite RemoveOldest_maxBytes. Qed.

Lemma iter_ll j c : ll (Nat.iter j RemoveOldest c) = take (length (ll c) - j) (ll c).
Proof.
  induction j as [|j IH]; simpl.
  - by rewrite Nat.sub_0_r, firstn_all.
  - rewrite RemoveOldest_ll, IH. unfold RemoveBack.
    rewrite length_take, take_take. f_equal. lia.
Qed.

(** With a budget that is not negative the loop ends within as many rounds
    as the list has entries: an empty store accounts for 0 bytes. *)
Lemma evict_terminates fuel c :
  wf c → 0 ≤ maxBytes c → (length (ll c) < fuel)%nat → is_Some (evict fuel c).
Proof.
  revert c. induction fuel as [|fuel IH]; intros c Hwf HM Hlen; [lia|].
  rewrite evict_unfold. destruct (over c) eqn:Ho; [|eauto].
  destruct (ll c) as [|e l] eqn:El.
  - exfalso. unfold over in Ho. apply andb_true_iff in Ho as [_ Ho%bool_decide_eq_true].
    rewrite (wf_bytes _ Hwf), El, total_nil, wrap_0 in Ho. lia.
  - apply IH; [by apply wf_RemoveOldest | by rewrite RemoveOldest_maxBytes |].
    rewrite RemoveOldest_ll, RemoveBack_length, El. simpl in *. lia.
Qed.


(** *** Sequences of operations *)

Lemma MoveToFront_length k l : length (MoveToFront k l) = length l.
Proof. apply Permutation_length, MoveToFront_Permutation. Qed.

Lemma assign_length k v l : length (assign k v l) = length l.
Proof.
  pose proof (keys_assign k v l) as Hk. apply (f_equal length) in Hk.
  unfold keys in Hk. by rewrite !length_fmap in Hk.
Qed.

Lemma Add_entry_length c k v : (length (ll (Add_entry c k v)) ≤ S (length (ll c)))%nat.
Proof.
  unfold Add_entry. case_decide; [destruct (element k (ll c))|]; simpl; [|lia..].
  rewrite MoveToFront_length, assign_length. lia.
Qed.

Lemma evict_length fuel c c' : evict fuel c = Some c' → (length (ll c') ≤ length (ll c))%nat.
Proof. intros (j & -> & _)%evict_iter. rewrite iter_ll, length_take. lia. Qed.

Lemma evict_wf fuel c c' :
  wf c → evict fuel c = Some c' → wf c' ∧ maxBytes c' = maxBytes c.
Proof. intros Hwf (j & -> & _)%evict_iter. split; [by apply wf_iter | apply iter_maxBytes]. Qed.

Lemma step_wf fuel c o c' :
  wf c → step fuel c o = Some c' → wf c' ∧ maxBytes c' = maxBytes c.
Proof.
  intros Hwf. destruct o as [k v|k|]; simpl.
  - unfold Add. intros Hev.
    destruct (evict_wf _ _ _ (wf_Add_entry _ k v Hwf) Hev) as [? ->].
    split; [done | apply Add_entry_maxBytes].
  - intros [= <-]. split; [by apply wf_Get|]. unfold Get. by case_decide.
  - intros [= <-]. split; [by apply wf_RemoveOldest | apply RemoveOldest_maxBytes].
Qed.

Lemma step_length fuel c o c' :
  step fuel c o = Some c' → (length (ll c') ≤ S (length (ll c)))%nat.
Proof.
  destruct o as [k v|k|]; simpl.
  - unfold Add. intros Hev%evict_length. pose proof (Add_entry_length c k v). lia.
  - intros [= <-]. unfold Get. case_decide; simpl; [rewrite MoveToFront_length|]; lia.
  - intros [= <-]. rewrite RemoveOldest_ll, RemoveBack_length. lia.
Qed.

Lemma step_mono fuel fuel' c o c' :
  step fuel c o = Some c' → (fuel ≤ fuel')%nat → step fuel' c o = Some c'.
Proof. destruct o; simpl; [|done..]. unfold Add. apply evict_mono. Qed.

Lemma step_terminates fuel c o :
  wf c → 0 ≤ maxBytes c → (S (length (ll c)) < fuel)%nat → is_Some (step fuel c o).
Proof.
  intros Hwf HM Hlen. destruct o as [k v|k|]; simpl; [|eauto..].
  apply evict_terminates; [by apply wf_Add_entry | by rewrite Add_entry_maxBytes |].
  pose proof (Add_entry_length c k v). lia.
Qed.

Lemma run_cons fuel c o ops :
  run fuel c (o :: ops) = step fuel c o ≫= λ c', run fuel c' ops.
Proof. reflexivity. Qed.

Lemma run_wf fuel c ops c' :
  wf c → run fuel c ops = Some c' → wf c' ∧ maxBytes c' = maxBytes c.
Proof.
  revert c. induction ops as [|o ops IH]; intros c Hwf.
  - by intros [= <-].
  - rewrite run_cons. destruct (step fuel c o) as [c1|] eqn:E; [|done]. simpl.
    destruct (step_wf _ _ _ _ Hwf E) as [Hwf1 <-]. by apply IH.
Qed.

Lemma run_length fuel c ops c' :
  run fuel c ops = Some c' → (length (ll c') ≤ length (ll c) + length ops)%nat.
Proof.
  revert c. induction ops as [|o ops IH]; intros c.
  - intros [= <-]. lia.
  - rewrite run_cons. destruct (step fuel c o) as [c1|] eqn:E; [|done]. simpl.
    intros Hr%IH. apply step_length in E. lia.
Qed.

Lemma run_mono fuel fuel' c ops c' :
  run fuel c ops = Some c' → (fuel ≤ fuel')%nat → run fuel' c ops = Some c'.
Proof.
  revert c. induction ops as [|o ops IH]; intros c; [done|].
  rewrite !run_cons. destruct (step fuel c o) as [c1|] eqn:E; [|done]. simpl.
  intros Hr Hle. rewrite (step_mono _ _ _ _ _ E Hle). simpl. by apply IH.
Qed.

Lemma run_terminates fuel c ops :
  wf c → 0 ≤ maxBytes c → (length (ll c) + length ops < fuel)%nat →
  is_Some (run fuel c ops).
Proof.
  revert c. induction ops as [|o ops IH]; intros c Hwf HM Hlen; [by eexists|].
  rewrite run_cons. simpl in Hlen.
  destruct (step_terminates fuel c o Hwf HM) as [c1 E]; [lia|].
  rewrite E. simpl. destruct (step_wf _ _ _ _ Hwf E) as [Hwf1 HM1].
  apply IH; [done | by rewrite HM1 |]. apply step_length in E. lia.
Qed.

Lemma adds_length (kvs : list (string * V)) : length (adds kvs) = length kvs.
Proof. unfold adds. apply length_fmap. Qed.


(** *** The capacity bound *)

(** C1.  Take a store made by [New M cb] with [0 < M], any sequence of
    calls to [Add], and one more call [Add k v].  Given enough fuel (two
    more than the number of earlier calls always suffices) all the calls
    end, and the store [c'] the last one leaves has [nBytes c' ≤ M].  The
    loop that ends [Add] got there by [j] calls to [RemoveOldest], each of
    which dropped the entry at the back of the list and each made while
    [nBytes] was still above [M].  The earlier calls being arbitrary, the
    bound holds after each [Add] of a sequence. *)
Theorem C1_capacity_invariant (M : Z) (cb : bool) (kvs : list (string * V))
    (k : string) (v : V) :
  0 < M →
  ∃ c c' j,
    (∀ fuel, (length kvs + 2 ≤ fuel)%nat →
       run fuel (New M cb) (adds kvs) = Some c ∧ Add fuel c k v = Some c') ∧
    nBytes c' ≤ M ∧
    c' = Nat.iter j RemoveOldest (Add_entry c k v) ∧
    ll c' = take (length (ll (Add_entry c k v)) - j) (ll (Add_entry c k v)) ∧
    ∀ i, (i < j)%nat → nBytes (Nat.iter i RemoveOldest (Add_entry c k v)) > M.
Proof.
  intros HM.
  destruct (run_terminates (S (length kvs)) (New M cb) (adds kvs)) as [c Hc].
  { apply wf_New. } { simpl. lia. } { rewrite adds_length. simpl. lia. }
  destruct (run_wf _ _ _ _ (wf_New M cb) Hc) as [Hwf Hmax]. simpl in Hmax.
  pose proof (run_length _ _ _ _ Hc) as Hlen. rewrite adds_length in Hlen. simpl in Hlen.
  pose proof (Add_entry_length c k v) as Hlen'.
  destruct (evict_terminates (length kvs + 2) (Add_entry c k v)) as [c' Hc'].
  { by apply wf_Add_entry. } { rewrite Add_entry_maxBytes. lia. } { lia. }
  destruct (evict_iter _ _ _ Hc') as (j & Hj & Hover & Hbefore).
  exists c, c', j. split_and!.
  - intros fuel Hfuel. split.
    + eapply run_mono; [done | lia].
    + unfold Add. eapply evict_mono; [done | lia].
  - apply over_false in Hover as [H0|Hle].
    + rewrite Hj, iter_maxBytes, Add_entry_maxBytes in H0. lia.
    + rewrite Hj, iter_maxBytes, Add_entry_maxBytes in Hle. rewrite <- Hj in Hle. lia.
  - done.
  - rewrite Hj. apply iter_ll.
  - intros i Hi. specialize (Hbefore i Hi). unfold over in Hbefore.
    apply andb_true_iff in Hbefore as [_ Hb%bool_decide_eq_true].
    by rewrite iter_maxBytes, Add_entry_maxBytes, Hmax in Hb.
Qed.

(** *** Byte accounting *)

(** C2.  In every store reached from [New] by calls to [Add], [Get] and
    [RemoveOldest], [nBytes] is the sum of [len(key) + value.Len()] over the
    entries of the list, which are the entries the map knows: it is that
    sum as [int64] arithmetic computes it, hence the sum itself whenever the
    sum is an [int64].  Replacing the value of a key that is present changes
    [nBytes] by the difference of the two lengths, and [RemoveOldest] takes
    off the key length plus the value length of the entry it removes. *)
Theorem C2_byte_accounting (M : Z) (cb : bool) (ops : list (op V)) (fuel : nat)
    (c : Cache V) :
  run fuel (New M cb) ops = Some c →
  nBytes c = total64 (ll c) ∧
  (int64.in_range (total (ll c)) → nBytes c = total (ll c)) ∧
  (∀ k', k' ∈ cache c ↔ k' ∈ keys (ll c)) ∧
  (∀ k v old, k ∈ cache c → element k (ll c) = Some old →
     nBytes (Add_entry c k v) = int64.wrap (nBytes c + (Len v - Len (value old))) ∧
     (int64.in_range (total (ll (Add_entry c k v))) →
        nBytes (Add_entry c k v) = total (ll c) + (Len v - Len (value old)))) ∧
  (∀ e, Back (ll c) = Some e →
     nBytes (RemoveOldest c) =
       int64.wrap (nBytes c - (Z.of_nat (String.length (key e)) + Len (value e))) ∧
     (int64.in_range (total (ll (RemoveOldest c))) →
        nBytes (RemoveOldest c) =
          total (ll c) - (Z.of_nat (String.length (key e)) + Len (value e)))).
Proof.
  intros Hrun. destruct (run_wf _ _ _ _ (wf_New M cb) Hrun) as [Hwf _].
  split_and!.
  - rewrite total64_wrap. apply Hwf.
  - intros Hr. rewrite (wf_bytes _ Hwf). by apply wrap_small.
  - apply Hwf.
  - intros k v old Hk Hold.
    pose proof (wf_Add_entry _ k v Hwf) as Hwf'.
    assert (Ht : total (ll (Add_entry c k v)) = total (ll c) + (Len v - Len (value old))).
    { unfold Add_entry. rewrite decide_True, Hold by done. simpl.
      rewrite (total_Permutation _ _ (MoveToFront_Permutation _ _)).
      rewrite (total_assign _ _ _ _ Hold). lia. }
    split.
    + rewrite (wf_bytes _ Hwf'), Ht, (wf_bytes _ Hwf). by rewrite wrap_add_l.
    + intros Hr. rewrite (wf_bytes _ Hwf'), wrap_small by done. done.
  - intros e He.
    pose proof (wf_RemoveOldest _ Hwf) as Hwf'.
    assert (Ht : total (ll (RemoveOldest c)) =
                 total (ll c) - (Z.of_nat (String.length (key e)) + Len (value e))).
    { rewrite RemoveOldest_ll. rewrite (Back_snoc _ _ He) at 2.
      rewrite total_app, total_cons, total_nil. lia. }
    split.
    + rewrite (wf_bytes _ Hwf'), Ht, (wf_bytes _ Hwf). by rewrite wrap_sub_l.
    + intros Hr. rewrite (wf_bytes _ Hwf'), wrap_small by done. done.
Qed.


(** *** Recency *)

Lemma Get_hit c k e :
  k ∈ cache c → element k (ll c) = Some e →
  Get c k = (set_ll (e :: Remove k (ll c)) c, Some (value e)).
Proof. intros Hk He. unfold Get, MoveToFront. by rewrite decide_True, He. Qed.

Lemma Get_miss c k : k ∉ cache c → Get c k = (c, None).
Proof. intros Hk. unfold Get. by rewrite decide_False. Qed.

(** The order of the list is the order of the latest accesses. *)

Lemma filter_all {A} (P : A → Prop) `{!∀ x, Decision (P x)} (l : list A) :
  (∀ x, x ∈ l → P x) → filter P l = l.
Proof.
  induction l as [|a l IH]; intros HP; [done|].
  rewrite filter_cons_True by (apply HP; left). f_equal. apply IH.
  intros x Hx. apply HP. by right.
Qed.

Lemma filter_sublist {A} (P : A → Prop) `{!∀ x, Decision (P x)} (l1 l2 : list A) :
  l1 `sublist_of` l2 → filter P l1 `sublist_of` filter P l2.
Proof.
  induction 1 as [|x l1 l2 _ IH|x l1 l2 _ IH]; [done| |].
  - rewrite !filter_cons. destruct (decide (P x)); [by apply sublist_skip | done].
  - rewrite filter_cons. destruct (decide (P x)); [by apply sublist_cons | done].
Qed.

Lemma filter_prefix {A} (P : A → Prop) `{!∀ x, Decision (P x)} (l1 l2 : list A) :
  l1 `prefix_of` l2 → filter P l1 `prefix_of` filter P l2.
Proof. intros [k ->]. rewrite filter_app. by exists (filter P k). Qed.

Lemma keys_filter k l :
  keys (filter (λ x : Entry V, key x ≠ k) l) = filter (λ k', k' ≠ k) (keys l).
Proof.
  unfold keys. induction l as [|a l IH]; [done|]. rewrite fmap_cons.
  destruct (decide (key a = k)) as [Heq|Hne].
  - rewrite !filter_cons_False by (intros Hn; by apply Hn). done.
  - rewrite !filter_cons_True by done. rewrite fmap_cons. by f_equal.
Qed.

Lemma keys_take n (l : list (Entry V)) : keys (take n l) = take n (keys l).
Proof. unfold keys. apply fmap_take. Qed.

Lemma keys_app (l1 l2 : list (Entry V)) : keys (l1 ++ l2) = keys l1 ++ keys l2.
Proof. unfold keys. apply fmap_app. Qed.

Lemma keys_cons e (l : list (Entry V)) : keys (e :: l) = key e :: keys l.
Proof. done. Qed.

Lemma elem_of_keys (x : Entry V) l : x ∈ l → key x ∈ keys l.
Proof. unfold keys. apply list_elem_of_fmap_2. Qed.

Lemma Remove_filter k l :
  NoDup (keys l) → Remove k l = filter (λ x : Entry V, key x ≠ k) l.
Proof.
  induction l as [|a l IH]; [done|]. rewrite keys_cons, NoDup_cons. intros [Ha Hnd].
  simpl. destruct (decide (key a = k)) as [Heq|Hne].
  - rewrite filter_cons_False by (intros Hn; by apply Hn). symmetry. apply filter_all.
    intros x Hx Hk. apply Ha. rewrite Heq, <- Hk. by apply elem_of_keys.
  - rewrite filter_cons_True by done. f_equal. by apply IH.
Qed.

Lemma RemoveBack_snoc (l : list (Entry V)) x : RemoveBack (l ++ [x]) = l.
Proof.
  unfold RemoveBack. rewrite length_app. simpl.
  replace (length l + 1 - 1)%nat with (length l) by lia. apply take_app_length.
Qed.

Lemma recency_snoc acc k : recency (acc ++ [k]) = touch k (recency acc).
Proof. unfold recency. by rewrite foldl_app. Qed.

Lemma recency_elem acc x : x ∈ recency acc → x ∈ acc.
Proof.
  induction acc as [|k acc IH] using rev_ind; [done|].
  rewrite recency_snoc. unfold touch. rewrite elem_of_cons, list_elem_of_filter, elem_of_app.
  rewrite list_elem_of_singleton. intros [->|[_ Hx]]; [by right | left; by apply IH].
Qed.

Lemma older_nil (rest : list (Entry V)) : older rest [] = rest.
Proof. unfold older. apply filter_all. intros x _. apply not_elem_of_nil. Qed.

Lemma older_snoc (rest : list (Entry V)) acc k :
  older rest (acc ++ [k]) = filter (λ x, key x ≠ k) (older rest acc).
Proof.
  unfold older. rewrite list_filter_filter. apply list_filter_iff. intros x.
  rewrite not_elem_of_app, list_elem_of_singleton. tauto.
Qed.

Lemma promoted_init e (rest : list (Entry V)) : promoted e rest [] (e :: rest).
Proof.
  left. exists [], rest. split_and!; [done | done | by rewrite older_nil].
Qed.

(** Evictions take entries from the back. *)
Lemma promoted_take e (rest : list (Entry V)) acc l n :
  key e ∉ acc → promoted e rest acc l → promoted e rest acc (take n l).
Proof.
  intros HK [(front & behind & -> & Hf & Hb)|[Hgone Hs]].
  - destruct (decide (n ≤ length front)%nat) as [Hn|Hn].
    + right. rewrite take_app_le by done. rewrite keys_take. split.
      * intros Hin. apply HK, recency_elem. apply (sublist_subseteq _ _ Hf).
        by apply (subseteq_take n).
      * etrans; [apply sublist_take | exact Hf].
    + left. rewrite take_app_ge by lia.
      destruct (n - length front)%nat as [|m] eqn:Em; [lia|]. simpl.
      exists front, (take m behind). split_and!; [done | done |].
      etrans; [apply prefix_take | exact Hb].
  - right. rewrite keys_take. split.
    + intros Hin. apply Hgone. by apply (subseteq_take n).
    + etrans; [apply sublist_take | exact Hs].
Qed.

(** An access to another key takes the entry of that key out of its
    place. *)
Lemma promoted_without e (rest : list (Entry V)) acc l k :
  k ≠ key e → promoted e rest acc l →
  (∃ front behind,
     filter (λ x, key x ≠ k) l = front ++ e :: behind ∧
     (keys front `sublist_of` filter (λ k', k' ≠ k) (recency acc)) ∧
     (behind `prefix_of` older rest (acc ++ [k]))) ∨
  ((key e ∉ keys (filter (λ x, key x ≠ k) l)) ∧
   (keys (filter (λ x, key x ≠ k) l) `sublist_of` filter (λ k', k' ≠ k) (recency acc))).
Proof.
  intros Hk [(front & behind & -> & Hf & Hb)|[Hgone Hs]].
  - left. exists (filter (λ x, key x ≠ k) front), (filter (λ x, key x ≠ k) behind).
    split_and!.
    + rewrite filter_app, filter_cons_True; [done|]. congruence.
    + rewrite keys_filter. by apply filter_sublist.
    + rewrite older_snoc. by apply filter_prefix.
  - right. rewrite keys_filter. split.
    + intros Hin. apply list_elem_of_filter in Hin as [_ Hin]. by apply Hgone.
    + by apply filter_sublist.
Qed.

Lemma promoted_miss e (rest : list (Entry V)) acc l k :
  k ≠ key e → k ∉ keys l → promoted e rest acc l → promoted e rest (acc ++ [k]) l.
Proof.
  intros Hk Hout HP.
  assert (Hl : filter (λ x : Entry V, key x ≠ k) l = l).
  { apply filter_all. intros x Hx Heq. apply Hout. rewrite <- Heq. by apply elem_of_keys. }
  destruct (promoted_without e rest acc l k Hk HP)
    as [(front & behind & Hll & Hf & Hb)|[Hgone Hs]]; rewrite Hl in *.
  - left. exists front, behind. split_and!; [done | | done].
    rewrite recency_snoc. by apply sublist_cons.
  - right. split; [done|]. rewrite recency_snoc. by apply sublist_cons.
Qed.

Lemma promoted_touch e (rest : list (Entry V)) acc l k x :
  k ≠ key e → key x = k → promoted e rest acc l →
  promoted e rest (acc ++ [k]) (x :: filter (λ y, key y ≠ k) l).
Proof.
  intros Hk Hx HP.
  destruct (promoted_without e rest acc l k Hk HP)
    as [(front & behind & Hll & Hf & Hb)|[Hgone Hs]].
  - left. exists (x :: front), behind. rewrite Hll. split_and!; [done | | done].
    rewrite recency_snoc, keys_cons, Hx. by apply sublist_skip.
  - right. rewrite keys_cons, Hx, recency_snoc. split; [|by apply sublist_skip].
    rewrite not_elem_of_cons. split; [by intros <- | done].
Qed.

Lemma Add_entry_ll c k v :
  wf c → ll (Add_entry c k v) = mkEntry k v :: filter (λ x, key x ≠ k) (ll c).
Proof.
  intros Hwf. unfold Add_entry. destruct (decide (k ∈ cache c)) as [Hk|Hk].
  - destruct (element_is_Some k (ll c)) as [kv He]; [by apply Hwf|].
    destruct (element_Some _ _ _ He) as [Hkv _].
    rewrite He. cbn [ll set_ll allocate deallocate set_nBytes]. unfold MoveToFront.
    rewrite (element_assign _ _ _ _ He), Remove_assign.
    by rewrite (Remove_filter _ _ (wf_nodup _ Hwf)).
  - cbn [ll set_ll set_cache allocate set_nBytes]. unfold PushFront. f_equal.
    symmetry. apply filter_all. intros x Hx Heq. apply Hk, Hwf. rewrite <- Heq.
    by apply elem_of_keys.
Qed.

(** [Add] brings no entry into the list but the one it is given. *)
Lemma Add_entries fuel c c' k v :
  wf c → Add fuel c k v = Some c' →
  ∀ x, x ∈ ll c' → x = mkEntry k v ∨ x ∈ ll c.
Proof.
  intros Hwf Hadd x Hx. destruct (evict_iter _ _ _ Hadd) as (j & -> & _).
  rewrite iter_ll, (Add_entry_ll _ _ _ Hwf) in Hx. apply subseteq_take in Hx.
  apply elem_of_cons in Hx as [->|Hx]; [by left|].
  right. by apply list_elem_of_filter in Hx as [_ ?].
Qed.

Lemma step_promoted e (rest : list (Entry V)) acc fuel c o c' :
  wf c → key e ∉ acc ++ op_key o → promoted e rest acc (ll c) →
  step fuel c o = Some c' → promoted e rest (acc ++ op_key o) (ll c').
Proof.
  intros Hwf HK HP. destruct o as [k v|k|]; simpl in *.
  - intros Hadd. apply not_elem_of_app in HK as HK'. destruct HK' as [_ Hk].
    apply not_elem_of_cons in Hk as [Hk _].
    destruct (evict_iter _ _ _ Hadd) as (j & -> & _). rewrite iter_ll.
    apply promoted_take; [done|]. rewrite (Add_entry_ll _ _ _ Hwf).
    apply promoted_touch; [by intros -> | done | done].
  - intros [= <-]. apply not_elem_of_app in HK as HK'. destruct HK' as [_ Hk].
    apply not_elem_of_cons in Hk as [Hk _].
    destruct (decide (k ∈ cache c)) as [Hin|Hout].
    + destruct (element_is_Some k (ll c)) as [x He]; [by apply Hwf|].
      destruct (element_Some _ _ _ He) as [Hx _].
      rewrite (Get_hit _ _ _ Hin He). cbn [fst ll set_ll].
      rewrite (Remove_filter _ _ (wf_nodup _ Hwf)).
      apply promoted_touch; [by intros -> | done | done].
    + rewrite (Get_miss _ _ Hout). cbn [fst].
      apply promoted_miss; [by intros -> | | done]. intros Hin. by apply Hout, Hwf.
  - intros [= <-]. rewrite app_nil_r in *. rewrite RemoveOldest_ll.
    by apply promoted_take.
Qed.

Lemma run_promoted e (rest : list (Entry V)) ops :
  ∀ acc fuel c c',
    wf c → key e ∉ acc ++ accessed ops → promoted e rest acc (ll c) →
    run fuel c ops = Some c' → promoted e rest (acc ++ accessed ops) (ll c').
Proof.
  induction ops as [|o ops IH]; intros acc fuel c c' Hwf HK HP.
  - intros [= <-]. unfold accessed. simpl. by rewrite app_nil_r.
  - rewrite run_cons. unfold accessed in *. rewrite bind_cons, app_assoc in *.
    destruct (step fuel c o) as [c1|] eqn:Es; [|done]. simpl.
    apply IH; [by apply (step_wf _ _ _ _ Hwf Es) | done |].
    apply (step_promoted _ _ _ fuel c o c1); [done | | done | done].
    apply not_elem_of_app in HK. tauto.
Qed.

(** C4.  Take a store reached from [New] that holds the key [K].  [Get K]
    returns the value of [K] and puts the entry of [K] at the front of the
    list, the other entries behind it in the order they had.  Let any
    calls of [Add], [Get] and [RemoveOldest] follow that do not access [K],
    and look at the store after them, or further on inside a call of [Add]
    on another key, after its insertion and any number [i] of the evictions
    of its loop.  Then either [K] is in the store, and the list is: the
    entries accessed since the [Get], in the order of their latest access;
    the entry of [K]; the entries that were not accessed since, in the
    order they had, of which the evictions so far took the hindmost.  An
    eviction made now removes the last of these, and removes the entry of
    [K] only when none of them is left.  Or [K] is gone, and every entry in
    the store was accessed after the [Get]. *)
Theorem C4_recency_promotion (M : Z) (cb : bool) (ops0 : list (op V)) (fuel0 : nat)
    (c : Cache V) (K : string) :
  run fuel0 (New M cb) ops0 = Some c →
  K ∈ cache c →
  ∃ e,
    key e = K ∧ e ∈ ll c ∧
    (Get c K).2 = Some (value e) ∧
    ll (Get c K).1 = e :: Remove K (ll c) ∧
    ∀ (ops : list (op V)) (fuel : nat) (c1 : Cache V) (p : option (string * V))
      (i : nat),
      run fuel (Get c K).1 ops = Some c1 →
      K ∉ accessed ops ++ pending_key p →
      let acc := accessed ops ++ pending_key p in
      let s := Nat.iter i RemoveOldest (pending c1 p) in
      (K ∈ cache s ∧
       ∃ front behind,
         ll s = front ++ e :: behind ∧
         (keys front `sublist_of` recency acc) ∧
         (behind `prefix_of` older (Remove K (ll c)) acc) ∧
         ((behind = [] ∧ ll (RemoveOldest s) = front) ∨
          (∃ b y, behind = b ++ [y] ∧ ll (RemoveOldest s) = front ++ e :: b))) ∨
      ((K ∉ cache s) ∧ (keys (ll s) `sublist_of` recency acc)).
Proof.
  intros Hrun HK. destruct (run_wf _ _ _ _ (wf_New M cb) Hrun) as [Hwf _].
  destruct (element_is_Some K (ll c)) as [e He]; [by apply Hwf|].
  destruct (element_Some _ _ _ He) as [Hke Hin].
  pose proof (wf_Get c K Hwf) as Hwf0.
  exists e. rewrite (Get_hit _ _ _ HK He) in *. cbn [fst snd] in *.
  split_and!; [done..|].
  intros ops fuel c1 p i Hrun1 Hacc. cbv zeta.
  destruct (run_wf _ _ _ _ Hwf0 Hrun1) as [Hwf1 _].
  rewrite <- Hke in Hacc.
  assert (HP1 : promoted e (Remove K (ll c)) (accessed ops) (ll c1)).
  { apply (run_promoted e _ ops [] fuel _ c1 Hwf0); [| apply promoted_init | done].
    apply not_elem_of_app in Hacc. tauto. }
  assert (HP2 : promoted e (Remove K (ll c)) (accessed ops ++ pending_key p)
                  (ll (pending c1 p)) ∧ wf (pending c1 p)).
  { destruct p as [[k v]|]; simpl in *.
    - split; [|by apply wf_Add_entry]. rewrite (Add_entry_ll _ _ _ Hwf1).
      apply promoted_touch; [|done|done].
      apply not_elem_of_app in Hacc as [_ Hk]. apply not_elem_of_cons in Hk as [Hk _].
      by intros ->.
    - by rewrite app_nil_r. }
  destruct HP2 as [HP2 Hwf2].
  pose proof (wf_iter i _ Hwf2) as Hwfs.
  pose proof (promoted_take e _ _ _ (length (ll (pending c1 p)) - i) Hacc HP2) as HP3.
  rewrite <- iter_ll in HP3.
  set (s := Nat.iter i RemoveOldest (pending c1 p)) in *.
  rewrite Hke in *.
  destruct HP3 as [(front & behind & Hl & Hf & Hb)|[Hgone Hs]].
  - left. split.
    + apply (wf_cache _ Hwfs). rewrite Hl, keys_app, keys_cons, Hke.
      apply elem_of_app. right. left.
    + exists front, behind. split_and!; [done..|]. rewrite RemoveOldest_ll, Hl.
      destruct behind as [|y b _] using rev_ind.
      * left. split; [done|]. apply RemoveBack_snoc.
      * right. exists b, y. split; [done|].
        replace (front ++ e :: b ++ [y]) with ((front ++ e :: b) ++ [y])
          by (by rewrite <- app_assoc).
        apply RemoveBack_snoc.
  - right. split; [|done]. rewrite Hke in Hgone. intros Hin'.
    by apply Hgone, (wf_cache _ Hwfs).
Qed.

(** *** An entry larger than the budget *)

Lemma total_nonneg l : (∀ x : V, 0 ≤ Len x) → 0 ≤ total l.
Proof.
  intros Hnn. induction l as [|e l IH]; [by rewrite total_nil|].
  rewrite total_cons. specialize (Hnn (value e)). lia.
Qed.

Lemma wf_empty c : wf c → ll c = [] → nBytes c = 0 ∧ cache c = ∅.
Proof.
  intros Hwf Hl. split.
  - by rewrite (wf_bytes _ Hwf), Hl, total_nil, wrap_0.
  - apply set_eq. intros k. rewrite (wf_cache _ Hwf), Hl.
    split; [by intros ?%elem_of_nil | set_solver].
Qed.

(** While the entry at the front alone exceeds the budget the loop goes on
    to the empty list. *)
Lemma evict_drains rest : ∀ fuel c e,
  (∀ x : V, 0 ≤ Len x) →
  wf c → ll c = e :: rest → 0 < maxBytes c →
  maxBytes c < Z.of_nat (String.length (key e)) + Len (value e) →
  total (ll c) ≤ int64.max →
  (length (ll c) < fuel)%nat →
  ∃ c', evict fuel c = Some c' ∧ ll c' = [].
Proof.
  induction rest as [|x rest IH] using rev_ind; intros fuel c e Hnn Hwf Hl HM He Hmax Hfuel.
  - destruct fuel as [|[|fuel]]; [rewrite Hl in Hfuel; simpl in Hfuel; lia..|].
    assert (Hover : over c = true).
    { unfold over. apply andb_true_iff. rewrite !bool_decide_eq_true. split; [lia|].
      rewrite (wf_bytes _ Hwf), wrap_small.
      - rewrite Hl, total_cons, total_nil. lia.
      - unfold int64.in_range, int64.min. rewrite Hl, total_cons, total_nil in *. lia. }
    rewrite evict_unfold, Hover.
    assert (Hl1 : ll (RemoveOldest c) = []) by (by rewrite RemoveOldest_ll, Hl).
    destruct (wf_empty _ (wf_RemoveOldest _ Hwf) Hl1) as [Hn1 _].
    exists (RemoveOldest c). split; [|done].
    rewrite evict_unfold.
    replace (over (RemoveOldest c)) with false; [done|].
    symmetry. apply over_false. right. rewrite Hn1, RemoveOldest_maxBytes. lia.
  - destruct fuel as [|fuel]; [lia|].
    pose proof (total_nonneg rest Hnn) as Hrest.
    pose proof (Hnn (value x)) as Hx.
    assert (Hover : over c = true).
    { unfold over. apply andb_true_iff. rewrite !bool_decide_eq_true. split; [lia|].
      rewrite (wf_bytes _ Hwf), wrap_small.
      - rewrite Hl, total_cons, total_app, total_cons, total_nil. lia.
      - unfold int64.in_range, int64.min.
        rewrite Hl, total_cons, total_app, total_cons, total_nil in *. lia. }
    rewrite evict_unfold, Hover.
    assert (Hl1 : ll (RemoveOldest c) = e :: rest).
    { rewrite RemoveOldest_ll, Hl. unfold RemoveBack. simpl.
      rewrite length_app. simpl. rewrite Nat.sub_0_r.
      replace (length rest + 1)%nat with (S (length rest)) by lia. simpl.
      f_equal. replace (length rest) with (length rest + 0)%nat by lia.
      by rewrite take_app_add, take_0, app_nil_r. }
    apply (IH fuel (RemoveOldest c) e); [done | by apply wf_RemoveOldest | done | ..].
    + by rewrite RemoveOldest_maxBytes.
    + by rewrite RemoveOldest_maxBytes.
    + rewrite Hl1, total_cons. rewrite Hl, total_cons, total_app, total_cons, total_nil in Hmax. lia.
    + rewrite Hl1. rewrite Hl in Hfuel. simpl in *. rewrite length_app in Hfuel. simpl in Hfuel. lia.
Qed.

(** The list [Add] works on once its branch is done: the new or renewed
    entry first. *)
Lemma Add_entry_front c k v :
  (∀ x : V, 0 ≤ Len x) → wf c →
  ∃ rest, ll (Add_entry c k v) = mkEntry k v :: rest ∧
          total (ll (Add_entry c k v)) ≤
            total (ll c) + (Z.of_nat (String.length k) + Len v).
Proof.
  intros Hnn Hwf. unfold Add_entry. case_decide as Hk.
  - destruct (element_is_Some k (ll c)) as [old Hold]; [by apply Hwf|].
    rewrite Hold. simpl. unfold MoveToFront.
    rewrite (element_assign _ v _ _ Hold). eexists. split; [done|].
    rewrite <- (total_Permutation _ _ (Remove_Permutation _ _ _ (element_assign _ v _ _ Hold))).
    rewrite (total_assign _ _ _ _ Hold). specialize (Hnn (value old)). lia.
  - simpl. unfold PushFront. eexists. split; [done|]. rewrite total_cons. simpl. lia.
Qed.

(** C10.  Take a store reached from [New M cb] with [0 < M], values whose
    [Len] is never negative, and a call [Add k v] with
    [len(k) + v.Len() > M], the bytes of the store and of the entry staying
    within [int64].  Given fuel for two rounds more than the store has
    entries the call ends, and it leaves the store empty: no entry, no
    byte accounted for, no key in the map, and [Get k] finds nothing. *)
Theorem C10_oversized_add_empties (M : Z) (cb : bool) (ops : list (op V)) (fuel0 : nat)
    (c : Cache V) (k : string) (v : V) :
  (∀ x : V, 0 ≤ Len x) →
  0 < M →
  run fuel0 (New M cb) ops = Some c →
  M < Z.of_nat (String.length k) + Len v →
  total (ll c) + (Z.of_nat (String.length k) + Len v) ≤ int64.max →
  ∃ c',
    (∀ fuel, (length (ll c) + 2 ≤ fuel)%nat → Add fuel c k v = Some c') ∧
    Cache_Len c' = 0 ∧ ll c' = [] ∧ nBytes c' = 0 ∧ cache c' = ∅ ∧
    Get c' k = (c', None).
Proof.
  intros Hnn HM Hrun Hbig Hfit.
  destruct (run_wf _ _ _ _ (wf_New M cb) Hrun) as [Hwf Hmax]. simpl in Hmax.
  destruct (Add_entry_front c k v Hnn Hwf) as (rest & Hl & Htot).
  pose proof (Add_entry_length c k v) as Hlen.
  destruct (evict_drains rest (length (ll c) + 2) (Add_entry c k v) (mkEntry k v))
    as (c' & Hev & Hl'); [done | by apply wf_Add_entry | done | ..].
  { rewrite Add_entry_maxBytes. lia. }
  { rewrite Add_entry_maxBytes. simpl. lia. }
  { lia. } { lia. }
  destruct (evict_wf _ _ _ (wf_Add_entry _ k v Hwf) Hev) as [Hwf' _].
  destruct (wf_empty _ Hwf' Hl') as [Hn' Hc'].
  exists c'. split_and!; [|by unfold Cache_Len; rewrite Hl'|done..|].
  - intros fuel Hfuel. unfold Add. by eapply evict_mono.
  - apply Get_miss. rewrite Hc'. set_solver.
Qed.

(** *** An entry that fits the budget *)

Lemma Get_front c k v rest : wf c → ll c = mkEntry k v :: rest → Get c k = (c, Some v).
Proof.
  intros Hwf Hl.
  assert (Hk : k ∈ cache c).
  { apply (wf_cache _ Hwf). rewrite Hl. unfold keys. rewrite fmap_cons. left. }
  assert (He : element k (ll c) = Some (mkEntry k v)).
  { rewrite Hl. simpl. by rewrite decide_True. }
  rewrite (Get_hit _ _ _ Hk He). f_equal.
  rewrite Hl. simpl. rewrite decide_True by done.
  destruct c; simpl in *; by subst.
Qed.

Lemma Get_None c k : (Get c k).2 = None → Get c k = (c, None).
Proof.
  unfold Get, MoveToFront. case_decide; [|done].
  destruct (element k (ll c)); simpl; [done|]. intros _. by destruct c.
Qed.

(** [Add] ends and keeps the entry it was called with, at the front, when
    the budget is unlimited or the entry alone is within it. *)
Lemma Add_retains fuel c k v :
  (∀ x : V, 0 ≤ Len x) →
  wf c → 0 ≤ maxBytes c →
  (maxBytes c ≠ 0 → Z.of_nat (String.length k) + Len v ≤ maxBytes c) →
  total (ll c) + (Z.of_nat (String.length k) + Len v) ≤ int64.max →
  (length (ll c) + 2 ≤ fuel)%nat →
  ∃ c' rest, Add fuel c k v = Some c' ∧ wf c' ∧ maxBytes c' = maxBytes c ∧
             ll c' = mkEntry k v :: rest.
Proof.
  intros Hnn Hwf HM Hfit Hmax Hfuel.
  destruct (Add_entry_front c k v Hnn Hwf) as (rest & Hl & Htot).
  pose proof (wf_Add_entry c k v Hwf) as Hwf1.
  pose proof (Add_entry_length c k v) as Hlen.
  destruct (evict_terminates fuel (Add_entry c k v)) as [c' Hev];
    [done | by rewrite Add_entry_maxBytes | lia |].
  destruct (evict_wf _ _ _ Hwf1 Hev) as [Hwf' HM'].
  destruct (evict_iter _ _ _ Hev) as (j & Hj & _ & Hbefore).
  exists c'. assert (Hjlt : (j ≤ length rest)%nat).
  { destruct (decide (j ≤ length rest)%nat) as [|Hgt]; [done|]. exfalso.
    specialize (Hbefore (length rest) ltac:(lia)).
    pose proof (wf_iter (length rest) _ Hwf1) as Hwfi.
    unfold over in Hbefore. apply andb_true_iff in Hbefore as [H0 Hb].
    apply bool_decide_eq_true in H0, Hb.
    rewrite iter_maxBytes, Add_entry_maxBytes in H0, Hb.
    rewrite (wf_bytes _ Hwfi), iter_ll, Hl in Hb. simpl length in Hb.
    replace (S (length rest) - length rest)%nat with 1%nat in Hb by lia.
    simpl take in Hb. rewrite take_0, total_cons, total_nil in Hb. simpl in Hb.
    pose proof (total_nonneg rest Hnn). pose proof (Hnn v).
    rewrite Hl, total_cons in Htot. simpl in Htot.
    rewrite wrap_small in Hb; [specialize (Hfit H0); lia|].
    unfold int64.in_range, int64.min. lia. }
  exists (take (length rest - j) rest). split_and!; [done | done | |].
  - by rewrite HM', Add_entry_maxBytes.
  - rewrite Hj, iter_ll, Hl. simpl length.
    replace (S (length rest) - j)%nat with (S (length rest - j)) by lia. done.
Qed.

End facts.

(** *** The theorems at the stores of the worked examples *)

Lemma C1_capacity_invariant_witness :
  0 < 20 ∧
  ∃ (c c' : Cache geecache.ByteView) (j : nat),
    (∀ fuel, (length scenario.two_adds + 2 ≤ fuel)%nat →
       run fuel (New 20 false) (adds scenario.two_adds) = Some c ∧
       Add fuel c "k3" (scenario.bv "abcde") = Some c') ∧
    nBytes c' ≤ 20 ∧
    c' = Nat.iter j RemoveOldest (Add_entry c "k3" (scenario.bv "abcde")) ∧
    ll c' = take (length (ll (Add_entry c "k3" (scenario.bv "abcde"))) - j)
                 (ll (Add_entry c "k3" (scenario.bv "abcde"))) ∧
    ∀ i, (i < j)%nat →
      nBytes (Nat.iter i RemoveOldest (Add_entry c "k3" (scenario.bv "abcde"))) > 20.
Proof.
  split; [lia|].
  apply (C1_capacity_invariant 20 false scenario.two_adds "k3" (scenario.bv "abcde")). lia.
Defined.

Lemma C2_byte_accounting_witness :
  run 5 (New 20 false) scenario.three_ops = Some scenario.store20 ∧
  nBytes scenario.store20 = total64 (ll scenario.store20).
Proof.
  split; [reflexivity|].
  apply (C2_byte_accounting 20 false scenario.three_ops 5 scenario.store20). reflexivity.
Defined.

Lemma C4_recency_promotion_witness :
  run 5 (New 20 false) scenario.three_ops = Some scenario.store20 ∧
  "k2" ∈ cache scenario.store20 ∧
  run 5 (Get scenario.store20 "k2").1 scenario.one_miss = Some scenario.store20' ∧
  ("k2" ∉ accessed scenario.one_miss ++ pending_key scenario.add_k4) ∧
  keys (ll (pending scenario.store20' scenario.add_k4)) = ["k4"; "k2"; "k3"] ∧
  keys (ll (RemoveOldest (pending scenario.store20' scenario.add_k4))) = ["k4"; "k2"] ∧
  ∃ e,
    key e = "k2" ∧ (Get scenario.store20 "k2").2 = Some (value e) ∧
    ll (Get scenario.store20 "k2").1 = e :: Remove "k2" (ll scenario.store20) ∧
    let acc := accessed scenario.one_miss ++ pending_key scenario.add_k4 in
    let s := Nat.iter 0 RemoveOldest (pending scenario.store20' scenario.add_k4) in
    ("k2" ∈ cache s ∧
     ∃ front behind,
       ll s = front ++ e :: behind ∧
       (keys front `sublist_of` recency acc) ∧
       (behind `prefix_of` older (Remove "k2" (ll scenario.store20)) acc) ∧
       ((behind = [] ∧ ll (RemoveOldest s) = front) ∨
        (∃ b y, behind = b ++ [y] ∧ ll (RemoveOldest s) = front ++ e :: b))) ∨
    (("k2" ∉ cache s) ∧ (keys (ll s) `sublist_of` recency acc)).
Proof.
  assert (Hrun : run 5 (New 20 false) scenario.three_ops = Some scenario.store20)
    by reflexivity.
  assert (Hin : "k2" ∈ cache scenario.store20).
  { apply (bool_decide_unpack (_ ∈ _)). by vm_compute. }
  assert (Hrun1 : run 5 (Get scenario.store20 "k2").1 scenario.one_miss =
                  Some scenario.store20') by reflexivity.
  assert (Hacc : "k2" ∉ accessed scenario.one_miss ++ pending_key scenario.add_k4).
  { apply (bool_decide_unpack (_ ∉ _)). by vm_compute. }
  split_and!; [done | done | done | done | reflexivity | reflexivity |].
  destruct (C4_recency_promotion 20 false scenario.three_ops 5 scenario.store20 "k2"
              Hrun Hin) as (e & Hk & _ & Hv & Hl & Hafter).
  exists e. split_and!; [done..|].
  exact (Hafter scenario.one_miss 5%nat scenario.store20' scenario.add_k4 0%nat Hrun1 Hacc).
Defined.

Lemma C10_oversized_add_empties_witness :
  (∀ x : geecache.ByteView, 0 ≤ Len x) ∧ 0 < 20 ∧
  run 5 (New 20 false) scenario.three_ops = Some scenario.store20 ∧
  20 < Z.of_nat (String.length "big") + Len (scenario.bv "0123456789012345678") ∧
  ∃ c',
    (∀ fuel, (length (ll scenario.store20) + 2 ≤ fuel)%nat →
       Add fuel scenario.store20 "big" (scenario.bv "0123456789012345678") = Some c') ∧
    Cache_Len c' = 0 ∧ ll c' = [] ∧ nBytes c' = 0 ∧ cache c' = ∅ ∧
    Get c' "big" = (c', None).
Proof.
  assert (Hnn : ∀ x : geecache.ByteView, 0 ≤ Len x).
  { intros x. unfold Len, geecache.ByteView_Len. lia. }
  assert (Hrun : run 5 (New 20 false) scenario.three_ops = Some scenario.store20)
    by reflexivity.
  assert (Hbig : 20 < Z.of_nat (String.length "big") +
                      Len (scenario.bv "0123456789012345678")) by reflexivity.
  split_and!; [done | lia | done..|].
  apply (C10_oversized_add_empties 20 false scenario.three_ops 5 scenario.store20
           "big" (scenario.bv "0123456789012345678") Hnn); [lia | done | done |].
  by vm_compute.
Defined.

End lru_facts.

(** ** Facts about the library functions *)

Module gostd_facts.
Import gostd.

Lemma shiftr_1 a : Z.shiftr a 1 = a `div` 2.
Proof. by rewrite Z.shiftr_div_pow2. Qed.

(** [sort.Search] on a predicate that, within the range, stays true once it
    is true: everything below the result fails it, everything from the
    result on passes. *)
Lemma Search_loop_spec fuel f : ∀ i j,
  0 ≤ i ≤ j → j - i ≤ Z.of_nat fuel →
  (∀ x y, i ≤ x ≤ y → y < j → f x = true → f y = true) →
  let r := Search_loop fuel f i j in
  i ≤ r ≤ j ∧ (∀ x, i ≤ x < r → f x = false) ∧ (∀ x, r ≤ x < j → f x = true).
Proof.
  induction fuel as [|fuel IH]; intros i j Hij Hfuel Hmono; simpl.
  - split; [lia | split; intros; lia].
  - case_bool_decide as Hlt; [|split; [lia | split; intros; lia]].
    rewrite shiftr_1.
    assert (Hh : i ≤ (i + j) `div` 2 < j).
    { split; [apply Z.div_le_lower_bound | apply Z.div_lt_upper_bound]; lia. }
    set (h := (i + j) `div` 2) in *.
    destruct (f h) eqn:Efh; simpl.
    + destruct (IH i h) as (Hr & Hlo & Hhi); [lia | lia | |].
      { intros x y Hxy Hy. apply Hmono; lia. }
      split; [lia | split; [done|]].
      intros x Hx. destruct (decide (x < h)); [apply Hhi; lia|].
      apply (Hmono h x); [lia | lia | done].
    + destruct (IH (h + 1) j) as (Hr & Hlo & Hhi); [lia | lia | |].
      { intros x y Hxy Hy. apply Hmono; lia. }
      split; [lia | split; [|done]].
      intros x Hx. destruct (decide (h < x)); [apply Hlo; lia|].
      destruct (f x) eqn:Efx; [|done].
      rewrite <- Efh. symmetry. apply (Hmono x h); [lia | lia | done].
Qed.

Lemma Search_spec n f :
  0 ≤ n →
  (∀ x y, 0 ≤ x ≤ y → y < n → f x = true → f y = true) →
  0 ≤ Search n f ≤ n ∧
  (∀ x, 0 ≤ x < Search n f → f x = false) ∧
  (∀ x, Search n f ≤ x < n → f x = true).
Proof. intros Hn Hmono. apply Search_loop_spec; [lia | lia | done]. Qed.

(** *** Cutting a string at a one-byte separator *)

Lemma prefix1 ch s :
  String.prefix (String ch "") s = true ↔ ∃ s', s = String ch s'.
Proof.
  destruct s as [|c s]; simpl.
  - split; [done | by intros [? ?]].
  - destruct (Ascii.ascii_dec ch c) as [->|Hne].
    + split; [eauto | by destruct s].
    + split; [done | intros [s' [= ? ?]]; by destruct Hne].
Qed.

Lemma contains1_nil ch : ¬ contains "" (String ch "").
Proof. intros (a & b & H). by destruct a. Qed.

Lemma contains1_cons ch c s :
  contains (String c s) (String ch "") ↔ c = ch ∨ contains s (String ch "").
Proof.
  split.
  - intros (a & b & H). destruct a as [|c' a]; simpl in H.
    + injection H as -> _. by left.
    + injection H as -> ->. right. by exists a, b.
  - intros [->|(a & b & ->)].
    + by exists "", s.
    + by exists (String c a), b.
Qed.

Lemma cut1_cons ch c s :
  cut (String ch "") (String c s) =
  if Ascii.ascii_dec ch c then Some ("", s)
  else (λ p, (String c p.1, p.2)) <$> cut (String ch "") s.
Proof.
  change (cut (String ch "") (String c s)) with
    (if String.prefix (String ch "") (String c s)
     then Some ("", slice_from (String.length (String ch "")) (String c s))
     else (λ p, (String c p.1, p.2)) <$> cut (String ch "") s).
  simpl. destruct (Ascii.ascii_dec ch c); [by destruct s | done].
Qed.

Lemma cut1_None ch s : cut (String ch "") s = None ↔ ¬ contains s (String ch "").
Proof.
  induction s as [|c s IH].
  - split; [intros _; apply contains1_nil | done].
  - rewrite cut1_cons, contains1_cons. destruct (Ascii.ascii_dec ch c) as [->|Hne].
    + split; [done | intros H; destruct H; by left].
    + rewrite fmap_None, IH. split; [intros ? [->|?]; done | tauto].
Qed.

Lemma cut1_Some ch s a b :
  cut (String ch "") s = Some (a, b) ↔ first_split s (String ch "") a b.
Proof.
  unfold first_split. revert a. induction s as [|c s IH]; intros a.
  - split; [done|]. intros [H _]. by destruct a.
  - rewrite cut1_cons. destruct (Ascii.ascii_dec ch c) as [->|Hne].
    + split.
      * intros [= <- <-]. split; [done | apply contains1_nil].
      * intros [H Hno]. destruct a as [|c' a]; simpl in H.
        -- by injection H as ->.
        -- injection H as -> _. destruct Hno. apply contains1_cons. by left.
    + rewrite fmap_Some. split.
      * intros ([a' b'] & Hcut & [= -> ->]). apply IH in Hcut as [-> Hno].
        split; [done|]. rewrite contains1_cons. intros [->|?]; done.
      * intros [H Hno]. destruct a as [|c' a]; simpl in H.
        -- injection H as -> _. done.
        -- injection H as -> ->. exists (a, b). split; [|done]. apply IH.
           split; [done|]. intros ?. apply Hno. apply contains1_cons. by right.
Qed.

Lemma SplitN_2 s sep :
  SplitN s sep 2 = match cut sep s with Some (a, b) => [a; b] | None => [s] end.
Proof. simpl. by destruct (cut sep s) as [[a b]|]. Qed.

Lemma Ints_Permutation l : Ints l ≡ₚ l.
Proof. apply merge_sort_Permutation. Qed.

Lemma Ints_sorted l : StronglySorted Z.le (Ints l).
Proof. apply (StronglySorted_merge_sort Z.le). Qed.

End gostd_facts.

(** ** Facts about package consistenthash *)

Module consistenthash_facts.
Import gostd gostd_facts consistenthash.

Implicit Types (m : Map) (h : Hash) (node : string) (nodes : list string).

(** *** What [Add] builds *)

Lemma Map_eta m : mkMap (hash m) (replicas m) (keys m) (hashMap m) = m.
Proof. by destruct m. Qed.

Lemma foldl_add_replica node (ixs : list Z) : ∀ m,
  foldl (add_replica node) m ixs =
  mkMap (hash m) (replicas m) (keys m ++ (vnode (hash m) node <$> ixs).*1)
        (foldl record (hashMap m) (vnode (hash m) node <$> ixs)).
Proof.
  induction ixs as [|i ixs IH]; intros m; simpl.
  - by rewrite app_nil_r, Map_eta.
  - rewrite IH. simpl. by rewrite <- app_assoc.
Qed.

Lemma vnodes_cons h r node nodes :
  vnodes h r (node :: nodes) = (vnode h node <$> seqZ 0 r) ++ vnodes h r nodes.
Proof. reflexivity. Qed.

Lemma vnodes_app h r nodes1 nodes2 :
  vnodes h r (nodes1 ++ nodes2) = vnodes h r nodes1 ++ vnodes h r nodes2.
Proof. unfold vnodes. apply bind_app. Qed.

Lemma foldl_add_key nodes : ∀ m,
  foldl add_key m nodes =
  mkMap (hash m) (replicas m) (keys m ++ (vnodes (hash m) (replicas m) nodes).*1)
        (foldl record (hashMap m) (vnodes (hash m) (replicas m) nodes)).
Proof.
  induction nodes as [|node nodes IH]; intros m.
  - simpl. by rewrite app_nil_r, Map_eta.
  - simpl foldl at 1. rewrite IH. unfold add_key. rewrite foldl_add_replica.
    cbn [hash replicas keys hashMap].
    rewrite vnodes_cons, fmap_app, foldl_app. by rewrite <- app_assoc.
Qed.

Lemma Add_spec m nodes :
  Add m nodes =
  mkMap (hash m) (replicas m)
        (Ints (keys m ++ (vnodes (hash m) (replicas m) nodes).*1))
        (foldl record (hashMap m) (vnodes (hash m) (replicas m) nodes)).
Proof. unfold Add. by rewrite foldl_add_key. Qed.

Lemma foldl_Add calls : ∀ m,
  hash (foldl Add m calls) = hash m ∧
  replicas (foldl Add m calls) = replicas m ∧
  keys (foldl Add m calls) ≡ₚ keys m ++ (vnodes (hash m) (replicas m) (concat calls)).*1 ∧
  hashMap (foldl Add m calls) =
    foldl record (hashMap m) (vnodes (hash m) (replicas m) (concat calls)) ∧
  (StronglySorted Z.le (keys m) → StronglySorted Z.le (keys (foldl Add m calls))).
Proof.
  induction calls as [|nodes calls IH]; intros m.
  - simpl. by rewrite app_nil_r.
  - simpl foldl. simpl concat. destruct (IH (Add m nodes)) as (Hh & Hr & Hk & Hm & Hs).
    assert (E1 : hash (Add m nodes) = hash m) by (by rewrite Add_spec).
    assert (E2 : replicas (Add m nodes) = replicas m) by (by rewrite Add_spec).
    assert (E3 : keys (Add m nodes) =
                 Ints (keys m ++ (vnodes (hash m) (replicas m) nodes).*1))
      by (by rewrite Add_spec).
    assert (E4 : hashMap (Add m nodes) =
                 foldl record (hashMap m) (vnodes (hash m) (replicas m) nodes))
      by (by rewrite Add_spec).
    rewrite E1 in Hh, Hk, Hm. rewrite E2 in Hr, Hk, Hm. rewrite E3 in Hk, Hs. rewrite E4 in Hm.
    split_and!; [done..| | |].
    + rewrite Hk, Ints_Permutation, vnodes_app, fmap_app. by rewrite <- app_assoc.
    + by rewrite Hm, vnodes_app, foldl_app.
    + intros _. apply Hs, Ints_sorted.
Qed.

Lemma New_fields r fn :
  hash (New r fn) = ring_hash fn ∧ replicas (New r fn) = r ∧
  keys (New r fn) = [] ∧ hashMap (New r fn) = ∅.
Proof. done. Qed.

Lemma build_spec r fn calls :
  hash (build r fn calls) = ring_hash fn ∧
  replicas (build r fn calls) = r ∧
  keys (build r fn calls) ≡ₚ (vnodes (ring_hash fn) r (concat calls)).*1 ∧
  hashMap (build r fn calls) = foldl record ∅ (vnodes (ring_hash fn) r (concat calls)) ∧
  StronglySorted Z.le (keys (build r fn calls)).
Proof.
  destruct (New_fields r fn) as (Hh & Hr & Hk & Hm).
  destruct (foldl_Add calls (New r fn)) as (Hh' & Hr' & Hk' & Hm' & Hs').
  rewrite Hh, Hr, Hk, Hm in *. unfold build.
  split_and!; [done.. | by rewrite Hk' | done |]. apply Hs'. constructor.
Qed.

Lemma vnodes_length h r nodes :
  length (vnodes h r nodes) = (Z.to_nat r * length nodes)%nat.
Proof.
  induction nodes as [|node nodes IH]; [simpl; lia|].
  rewrite vnodes_cons, length_app, length_fmap, length_seqZ, IH. simpl. lia.
Qed.

Lemma vnodes_node h r nodes p : p ∈ vnodes h r nodes → p.2 ∈ nodes.
Proof.
  unfold vnodes. rewrite list_elem_of_bind. intros (node & Hp & Hnode).
  apply list_elem_of_fmap in Hp as (i & -> & _). done.
Qed.

(** Every hash that was recorded is in the map, under a node that was
    recorded with it. *)
Lemma foldl_record_lookup (l : list (Z * string)) : ∀ (hm : gmap Z string) x,
  x ∈ l.*1 → ∃ node, foldl record hm l !! x = Some node ∧ (x, node) ∈ l.
Proof.
  induction l as [|p l IH] using rev_ind; intros hm x.
  - simpl. by intros ?%elem_of_nil.
  - rewrite fmap_app, elem_of_app, foldl_app. simpl. unfold record at 1.
    intros Hx. destruct (decide (x = p.1)) as [->|Hne].
    + exists p.2. rewrite lookup_insert_eq. split; [done|].
      apply elem_of_app. right. destruct p. left.
    + destruct Hx as [Hx|Hx].
      * destruct (IH hm x Hx) as (node & Hn & Hin). exists node.
        rewrite lookup_insert_ne by done. split; [done|]. apply elem_of_app. by left.
      * apply list_elem_of_singleton in Hx. done.
Qed.


(** The order of recording does not matter when the virtual nodes that
    share a hash value are virtual nodes of one node. *)
Lemma foldl_record_Permutation (l1 l2 : list (Z * string)) :
  l1 ≡ₚ l2 →
  (∀ p q, p ∈ l1 → q ∈ l1 → p.1 = q.1 → p.2 = q.2) →
  ∀ hm : gmap Z string, foldl record hm l1 = foldl record hm l2.
Proof.
  induction 1 as [|p l1 l2 HP IH|p q l|l1 l2 l3 HP1 IH1 HP2 IH2]; intros Hfun hm.
  - done.
  - simpl. apply IH. intros a b Ha Hb. apply Hfun; by right.
  - simpl. f_equal. unfold record. destruct (decide (p.1 = q.1)) as [Heq|Hne].
    + assert (Hpq : q.2 = p.2).
      { apply Hfun; [left | right; left | done]. }
      destruct p as [x a], q as [y b]. simpl in *. by subst.
    + by apply insert_insert_ne.
  - rewrite IH1 by done. apply IH2. intros a b Ha Hb.
    apply Hfun; by rewrite HP1.
Qed.

Lemma fst_unique (l : list (Z * string)) x y1 y2 :
  NoDup l.*1 → (x, y1) ∈ l → (x, y2) ∈ l → y1 = y2.
Proof.
  induction l as [|[a b] l IH]; [by intros _ ?%elem_of_nil|].
  rewrite fmap_cons, NoDup_cons, !elem_of_cons. simpl. intros [Ha Hnd] [H1|H1] [H2|H2].
  - congruence.
  - injection H1 as -> ->. destruct Ha. apply list_elem_of_fmap. by exists (a, y2).
  - injection H2 as -> ->. destruct Ha. apply list_elem_of_fmap. by exists (a, y1).
  - by apply IH.
Qed.

(** The virtual nodes of a list of nodes depend on the nodes that are in
    the list, not on their order or number. *)
Lemma elem_of_vnodes h r nodes (p : Z * string) :
  p ∈ vnodes h r nodes ↔
  p.2 ∈ nodes ∧ ∃ i, 0 ≤ i < r ∧ p.1 = h (bytes (Itoa i +:+ p.2)).
Proof.
  unfold vnodes. rewrite list_elem_of_bind. split.
  - intros (node & Hp & Hn). apply list_elem_of_fmap in Hp as (i & -> & Hi).
    apply elem_of_seqZ in Hi. simpl. split; [done|]. exists i. split; [lia | done].
  - intros [Hn (i & Hi & Hp)]. exists p.2. split; [|done].
    apply list_elem_of_fmap. exists i. split; [|apply elem_of_seqZ; lia].
    destruct p as [x node]. simpl in *. unfold vnode. by rewrite Hp.
Qed.

(** *** Lookup *)

Lemma sorted_lookup_le (l : list Z) :
  StronglySorted Z.le l →
  ∀ i j a b, (i ≤ j)%nat → l !! i = Some a → l !! j = Some b → a ≤ b.
Proof.
  induction 1 as [|x l Hs IH Hall]; intros i j a b Hij Ha Hb; [done|].
  destruct i as [|i], j as [|j]; simpl in *; [ | | lia | ].
  - injection Ha as <-. injection Hb as <-. lia.
  - injection Ha as <-. rewrite Forall_forall in Hall. apply Hall.
    by eapply list_elem_of_lookup_2.
  - apply (IH i j); [lia | done..].
Qed.

Lemma at_index_lookup (l : list Z) (i : Z) :
  0 ≤ i < Z.of_nat (length l) → l !! Z.to_nat i = Some (at_index l i).
Proof. intros Hi. unfold at_index. apply list_lookup_lookup_total_lt. lia. Qed.

(** On a ring whose keys are sorted and all recorded in the map, [Get]
    answers with the owner of the least key that is not below the hash of
    the looked-up key, and with the owner of the least key of all when every
    key is below it. *)
Lemma Get_spec m key :
  StronglySorted Z.le (keys m) →
  (∀ x, x ∈ keys m → is_Some (hashMap m !! x)) →
  keys m ≠ [] →
  ∃ v, v ∈ keys m ∧ hashMap m !! v = Some (Get m key) ∧
       ((hash m (bytes key) ≤ v ∧ ∀ u, u ∈ keys m → hash m (bytes key) ≤ u → v ≤ u) ∨
        ((∀ u, u ∈ keys m → u < hash m (bytes key)) ∧ ∀ u, u ∈ keys m → v ≤ u)).
Proof.
  intros Hs Hcov Hne. unfold Get.
  assert (Hlen : (0 < length (keys m))%nat) by (destruct (keys m); [done | simpl; lia]).
  rewrite bool_decide_eq_false_2 by lia.
  set (h := hash m (bytes key)). set (l := keys m) in *.
  set (n := Z.of_nat (length l)).
  set (f := λ i : Z, at_index l i >=? h).
  assert (Hmono : ∀ x y, 0 ≤ x ≤ y → y < n → f x = true → f y = true).
  { intros x y Hxy Hy. unfold f. rewrite !Z.geb_le. intros Hx.
    pose proof (sorted_lookup_le l Hs (Z.to_nat x) (Z.to_nat y) _ _ ltac:(lia)
                  (at_index_lookup l x ltac:(lia)) (at_index_lookup l y ltac:(lia))).
    lia. }
  destruct (Search_spec n f ltac:(lia) Hmono) as (Hr & Hlo & Hhi).
  set (idx := Search n f) in *.
  assert (Hmod : 0 ≤ idx `mod` n < n) by (apply Z.mod_pos_bound; lia).
  pose proof (at_index_lookup l (idx `mod` n) Hmod) as Hv.
  set (v := at_index l (idx `mod` n)) in *.
  assert (Hin : v ∈ l) by (by eapply list_elem_of_lookup_2).
  exists v. split; [done|]. split.
  { destruct (Hcov v Hin) as [node Hnode]. by rewrite Hnode. }
  destruct (decide (idx < n)) as [Hlt|Hge].
  - left. assert (Hidx : idx `mod` n = idx) by (apply Z.mod_small; lia).
    assert (Hveq : v = at_index l idx) by (unfold v; by rewrite Hidx).
    assert (Hfv : f idx = true) by (apply Hhi; lia).
    unfold f in Hfv. rewrite Z.geb_le in Hfv. rewrite <- Hveq in Hfv.
    split; [done|].
    intros u Hu Hhu. apply list_elem_of_lookup in Hu as [x Hx].
    pose proof (lookup_lt_Some _ _ _ Hx) as Hxn.
    destruct (decide (Z.of_nat x < idx)) as [Hbelow|Habove].
    + specialize (Hlo (Z.of_nat x) ltac:(lia)). unfold f, at_index in Hlo.
      rewrite Nat2Z.id, (list_lookup_total_correct _ _ _ Hx) in Hlo.
      rewrite Z.geb_leb in Hlo. apply Z.leb_gt in Hlo. lia.
    + apply (sorted_lookup_le l Hs (Z.to_nat idx) x); [lia | | done].
      rewrite Hveq. apply at_index_lookup. lia.
  - right. assert (Hidx : idx = n) by lia.
    assert (Hz : idx `mod` n = 0) by (rewrite Hidx; apply Z_mod_same_full).
    assert (Hveq : v = at_index l 0) by (unfold v; by rewrite Hz).
    split.
    + intros u Hu. apply list_elem_of_lookup in Hu as [x Hx].
      pose proof (lookup_lt_Some _ _ _ Hx) as Hxn.
      specialize (Hlo (Z.of_nat x) ltac:(lia)). unfold f, at_index in Hlo.
      rewrite Nat2Z.id, (list_lookup_total_correct _ _ _ Hx) in Hlo.
      rewrite Z.geb_leb in Hlo. apply Z.leb_gt in Hlo. lia.
    + intros u Hu. apply list_elem_of_lookup in Hu as [x Hx].
      apply (sorted_lookup_le l Hs 0%nat x); [lia | | done].
      rewrite Hveq. apply (at_index_lookup l 0). lia.
Qed.

Lemma Get_empty m key : keys m = [] → Get m key = "".
Proof. intros Hk. unfold Get. by rewrite Hk. Qed.


Lemma build_covered r fn calls x :
  x ∈ keys (build r fn calls) →
  ∃ node, hashMap (build r fn calls) !! x = Some node ∧ node ∈ concat calls.
Proof.
  destruct (build_spec r fn calls) as (_ & _ & Hk & Hm & _).
  rewrite Hk, Hm. intros Hx.
  destruct (foldl_record_lookup _ ∅ x Hx) as (node & Hnode & Hin).
  exists node. split; [done|]. by apply vnodes_node in Hin.
Qed.

Lemma build_is_covered r fn calls x :
  x ∈ keys (build r fn calls) → is_Some (hashMap (build r fn calls) !! x).
Proof. intros Hx. destruct (build_covered _ _ _ x Hx) as (node & Hn & _). eauto. Qed.

(** The virtual hash a lookup settles on is fixed by the sorted keys. *)
Lemma chosen_unique (l : list Z) (h v1 v2 : Z) :
  v1 ∈ l → v2 ∈ l →
  ((h ≤ v1 ∧ ∀ u, u ∈ l → h ≤ u → v1 ≤ u) ∨ ((∀ u, u ∈ l → u < h) ∧ ∀ u, u ∈ l → v1 ≤ u)) →
  ((h ≤ v2 ∧ ∀ u, u ∈ l → h ≤ u → v2 ≤ u) ∨ ((∀ u, u ∈ l → u < h) ∧ ∀ u, u ∈ l → v2 ≤ u)) →
  v1 = v2.
Proof.
  intros H1 H2 [[Ha1 Hb1]|[Ha1 Hb1]] [[Ha2 Hb2]|[Ha2 Hb2]].
  - pose proof (Hb1 v2 H2 Ha2). pose proof (Hb2 v1 H1 Ha1). lia.
  - pose proof (Ha2 v1 H1). lia.
  - pose proof (Ha1 v2 H2). lia.
  - pose proof (Hb1 v2 H2). pose proof (Hb2 v1 H1). lia.
Qed.

(** C3.  On every ring, made by [New] and any calls to [Add]: with no node
    registered, and whenever the ring has no virtual node, [Get] returns
    the empty string.  Otherwise it returns the node that the map gives for
    a virtual hash [v] of the sorted sequence, a node that was registered:
    [v] is the least virtual hash that is at least [hash(key)], or, when
    every virtual hash is below [hash(key)], the least virtual hash of all.
    On the ring with three replicas of the nodes "2", "4", "6" under the
    hash that reads its input as a number, the key "27" hashes to 27, above
    all nine virtual hashes, and [Get] returns "2". *)
Theorem C3_ring_lookup (replicas : Z) (fn : option Hash) (calls : list (list string))
    (key : string) :
  let m := build replicas fn calls in
  let h := hash m (bytes key) in
  (concat calls = [] → Get m key = "") ∧
  (keys m = [] → Get m key = "") ∧
  (keys m ≠ [] →
     ∃ v, v ∈ keys m ∧ hashMap m !! v = Some (Get m key) ∧ Get m key ∈ concat calls ∧
          ((h ≤ v ∧ ∀ u, u ∈ keys m → h ≤ u → v ≤ u) ∨
           ((∀ u, u ∈ keys m → u < h) ∧ ∀ u, u ∈ keys m → v ≤ u))) ∧
  (keys scenario.ring246 = [2; 4; 6; 12; 14; 16; 22; 24; 26] ∧
   hash scenario.ring246 (bytes "27") = 27 ∧
   Get scenario.ring246 "27" = "2").
Proof.
  cbv zeta. destruct (build_spec replicas fn calls) as (_ & _ & Hk & _ & Hs).
  split_and!.
  - intros Hc. apply Get_empty. apply Permutation_nil_r. by rewrite Hk, Hc.
  - apply Get_empty.
  - intros Hne.
    destruct (Get_spec (build replicas fn calls) key Hs) as (v & Hv & Hnode & Hleast);
      [|done|].
    { intros x Hx. destruct (build_covered _ _ _ x Hx) as (node & -> & _). eauto. }
    exists v. split_and!; [done..| |done].
    destruct (build_covered _ _ _ v Hv) as (node & Hnode' & Hin).
    rewrite Hnode in Hnode'. by injection Hnode' as ->.
  - by vm_compute.
  - by vm_compute.
  - by vm_compute.
Qed.

(** *** The size of the ring *)

(** C9 as it is worded does not hold, in either half.  A node registered
    twice has its virtual nodes twice in the sequence: with one replica and
    the node "a" passed to [Add] in two calls the sequence has two entries,
    and there is one distinct node.  And the lookups are not fixed by the
    node set and the hash function: under CRC-32 the virtual nodes
    "0plumless" and "0buckeroo" have the same hash value, the map keeps the
    node recorded last, and the rings of the same two nodes added in the
    two orders give different nodes for the key "x". *)
Lemma C9_ring_size_counterexample :
  Z.of_nat (length (keys (build 1 None [["a"]; ["a"]]))) ≠
    1 * Z.of_nat (size (registered [["a"]; ["a"]])) ∧
  registered [["plumless"; "buckeroo"]] = registered [["buckeroo"; "plumless"]] ∧
  ChecksumIEEE (bytes "0plumless") = ChecksumIEEE (bytes "0buckeroo") ∧
  Get (build 1 None [["plumless"; "buckeroo"]]) "x" = "buckeroo" ∧
  Get (build 1 None [["buckeroo"; "plumless"]]) "x" = "plumless".
Proof. split_and!; [by vm_compute | reflexivity | by vm_compute..]. Qed.

(** Two rings with the same nodes, whatever the calls that added them,
    give every key the same node, when virtual nodes that share a hash
    value are virtual nodes of one node. *)
Lemma Get_same_nodes r fn calls calls' key :
  (∀ node, node ∈ concat calls' ↔ node ∈ concat calls) →
  (∀ p q, p ∈ vnodes (ring_hash fn) r (concat calls) →
          q ∈ vnodes (ring_hash fn) r (concat calls) → p.1 = q.1 → p.2 = q.2) →
  Get (build r fn calls') key = Get (build r fn calls) key.
Proof.
  intros Hset Hfun.
  destruct (build_spec r fn calls) as (Hh & _ & Hk & Hm & Hs).
  destruct (build_spec r fn calls') as (Hh' & _ & Hk' & Hm' & Hs').
  set (m := build r fn calls) in *. set (m' := build r fn calls') in *.
  assert (Hv : ∀ p, p ∈ vnodes (ring_hash fn) r (concat calls') ↔
                    p ∈ vnodes (ring_hash fn) r (concat calls)).
  { intros p. rewrite !elem_of_vnodes. by rewrite Hset. }
  assert (Hkeys : ∀ u, u ∈ keys m' ↔ u ∈ keys m).
  { intros u. rewrite Hk, Hk', !list_elem_of_fmap. by setoid_rewrite Hv. }
  destruct (decide (keys m = [])) as [He|Hne].
  { rewrite (Get_empty m key He). apply Get_empty.
    destruct (keys m') as [|u l']; [done|]. exfalso.
    assert (Hu : u ∈ keys m) by (apply Hkeys; left). rewrite He in Hu.
    by apply elem_of_nil in Hu. }
  assert (Hne' : keys m' ≠ []).
  { intros He'. destruct (keys m) as [|u l0]; [done|].
    assert (Hu : u ∈ keys m') by (apply Hkeys; left). rewrite He' in Hu.
    by apply elem_of_nil in Hu. }
  destruct (Get_spec m key Hs (build_is_covered r fn calls) Hne) as (v & Hvin & Hn & Hc).
  destruct (Get_spec m' key Hs' (build_is_covered r fn calls') Hne')
    as (v' & Hvin' & Hn' & Hc').
  rewrite Hh in Hc. rewrite Hh' in Hc'.
  assert (Heq : v' = v).
  { apply (chosen_unique (keys m) (ring_hash fn (bytes key))); [by apply Hkeys | done | | done].
    destruct Hc' as [[Ha Hb]|[Ha Hb]]; [left | right].
    - split; [done|]. intros u Hu. apply Hb. by apply Hkeys.
    - split; intros u Hu; [apply Ha | apply Hb]; by apply Hkeys. }
  subst v'.
  assert (Hin : (v, Get m key) ∈ vnodes (ring_hash fn) r (concat calls)).
  { destruct (foldl_record_lookup (vnodes (ring_hash fn) r (concat calls)) ∅ v)
      as (node & Hl & Hp); [by rewrite <- Hk|].
    rewrite <- Hm, Hn in Hl. by injection Hl as ->. }
  assert (Hin' : (v, Get m' key) ∈ vnodes (ring_hash fn) r (concat calls)).
  { destruct (foldl_record_lookup (vnodes (ring_hash fn) r (concat calls')) ∅ v)
      as (node & Hl & Hp); [by rewrite <- Hk'|].
    rewrite <- Hm', Hn' in Hl. injection Hl as ->. by apply Hv. }
  exact (Hfun _ _ Hin' Hin eq_refl).
Qed.

(** C9, amended.  The sorted sequence of a ring has [replicas] entries
    (none when [replicas] is negative) for each node identifier passed to
    [Add], counted as often as it was passed; that is [replicas] times the
    number of distinct registered nodes when no identifier was passed
    twice.  When the virtual nodes that share a hash value are virtual
    nodes of one node, the lookups are fixed by [replicas], the hash
    function and the set of nodes: rings with the same registered nodes
    give every key the same node, and rings that were passed the same
    identifiers as often, in whatever order and calls, are the same ring.
    (Without that condition they are not: see the counterexample.) *)
Theorem C9_ring_size (replicas : Z) (fn : option Hash) (calls : list (list string)) :
  let m := build replicas fn calls in
  length (keys m) = (Z.to_nat replicas * length (concat calls))%nat ∧
  StronglySorted Z.le (keys m) ∧
  (NoDup (concat calls) →
     length (keys m) = (Z.to_nat replicas * size (registered calls))%nat) ∧
  (∀ calls',
     (∀ p q, p ∈ vnodes (ring_hash fn) replicas (concat calls) →
             q ∈ vnodes (ring_hash fn) replicas (concat calls) → p.1 = q.1 → p.2 = q.2) →
     (registered calls' = registered calls →
        ∀ key, Get (build replicas fn calls') key = Get m key) ∧
     (concat calls' ≡ₚ concat calls → build replicas fn calls' = m)).
Proof.
  cbv zeta. destruct (build_spec replicas fn calls) as (Hh & Hr & Hk & Hm & Hs).
  set (m := build replicas fn calls) in *.
  assert (Hlen : length (keys m) = (Z.to_nat replicas * length (concat calls))%nat).
  { by rewrite Hk, length_fmap, vnodes_length. }
  split_and!; [done..| |].
  - intros Hnd. rewrite Hlen. unfold registered. by rewrite size_list_to_set.
  - intros calls' Hfun. split.
    + intros Hreg key. apply Get_same_nodes; [|done]. intros node.
      unfold registered in Hreg.
      by rewrite <- !(elem_of_list_to_set (C:=gset string)), Hreg.
    + intros HP.
      destruct (build_spec replicas fn calls') as (Hh' & Hr' & Hk' & Hm' & Hs').
      assert (Hv : vnodes (ring_hash fn) replicas (concat calls') ≡ₚ
                   vnodes (ring_hash fn) replicas (concat calls)).
      { unfold vnodes. by rewrite HP. }
      rewrite <- (Map_eta (build replicas fn calls')), <- (Map_eta m).
      rewrite Hh, Hh', Hr, Hr', Hm, Hm'. f_equal.
      * apply (StronglySorted_unique Z.le); [done..|]. by rewrite Hk, Hk', Hv.
      * symmetry. apply foldl_record_Permutation; [by symmetry | done].
Qed.

Lemma C3_ring_lookup_witness :
  keys scenario.ring246 ≠ [] ∧
  ∃ v, v ∈ keys scenario.ring246 ∧
       hashMap scenario.ring246 !! v = Some (Get scenario.ring246 "27") ∧
       Get scenario.ring246 "27" ∈ ["2"; "4"; "6"].
Proof.
  assert (Hne : keys scenario.ring246 ≠ []) by (by vm_compute).
  split; [done|].
  destruct (C3_ring_lookup 3 (Some scenario.number_hash) [["2"; "4"; "6"]] "27")
    as (_ & _ & H & _).
  destruct (H Hne) as (v & ? & ? & ? & _). by exists v.
Defined.

Lemma C9_ring_size_witness :
  NoDup (concat [["2"; "4"; "6"]]) ∧
  length (keys scenario.ring246) = (Z.to_nat 3 * size (registered [["2"; "4"; "6"]]))%nat ∧
  registered [["6"; "4"]; ["2"; "6"]] = registered [["2"; "4"; "6"]] ∧
  ∀ key, Get (build 3 (Some scenario.number_hash) [["6"; "4"]; ["2"; "6"]]) key =
         Get scenario.ring246 key.
Proof.
  assert (Hnd : NoDup (concat [["2"; "4"; "6"]])).
  { apply (bool_decide_unpack (NoDup (concat [["2"; "4"; "6"]]))). by vm_compute. }
  assert (Hreg : registered [["6"; "4"]; ["2"; "6"]] = registered [["2"; "4"; "6"]])
    by reflexivity.
  assert (Hfun : ∀ p q,
            p ∈ vnodes (ring_hash (Some scenario.number_hash)) 3 (concat [["2"; "4"; "6"]]) →
            q ∈ vnodes (ring_hash (Some scenario.number_hash)) 3 (concat [["2"; "4"; "6"]]) →
            p.1 = q.1 → p.2 = q.2).
  { intros [x a] [y b] Hp Hq Hxy. simpl in Hxy. subst y. simpl.
    apply (fst_unique _ x a b) in Hp; [done | | done].
    apply (bool_decide_unpack (NoDup _)). by vm_compute. }
  destruct (C9_ring_size 3 (Some scenario.number_hash) [["2"; "4"; "6"]])
    as (_ & _ & Hsize & Hsame).
  destruct (Hsame [["6"; "4"]; ["2"; "6"]] Hfun) as [Hget _].
  split_and!; [done | by apply Hsize | done | by apply Hget].
Defined.

End consistenthash_facts.

(** ** Facts about package geecache *)

Module geecache_facts.
Import gostd geecache int64_facts lru_facts gostd_facts.

Implicit Types (g : Group) (c : cache) (key : string) (bytes : list byte).

(** *** Values and the locked store *)

Lemma cloneBytes_id bytes : cloneBytes bytes = bytes.
Proof.
  unfold cloneBytes, copy, make. rewrite length_replicate, firstn_all.
  rewrite drop_ge by (by rewrite length_replicate). apply app_nil_r.
Qed.

Lemma Len_nonneg (x : ByteView) : 0 ≤ lru.Len x.
Proof. unfold lru.Len, ByteView_Len. lia. Qed.

Lemma cache_eta c : mkcache (cache_lru c) (cacheBytes c) = c.
Proof. by destruct c. Qed.

Lemma set_maincache_id g : set_maincache (maincache g) g = g.
Proof. by destruct g. Qed.

Lemma get_None c key : (get c key).2 = None → get c key = (c, None).
Proof.
  unfold get. destruct (cache_lru c) as [store|] eqn:E; [|done].
  destruct (lru.Get store key) as [store' v] eqn:EG. simpl. intros ->.
  pose proof (Get_None store key) as HN. rewrite EG in HN.
  injection (HN eq_refl) as ->. by rewrite <- E, cache_eta.
Qed.

Lemma get_store_of g key :
  get (maincache g) key =
  match cache_lru (maincache g) with
  | None => (maincache g, None)
  | Some _ =>
      (mkcache (Some (lru.Get (store_of g) key).1) (cacheBytes (maincache g)),
       (lru.Get (store_of g) key).2)
  end.
Proof.
  unfold get, store_of. destruct (cache_lru (maincache g)); [|done].
  by destruct (lru.Get _ key).
Qed.

Lemma get_not_holds g key : ¬ holds g key → get (maincache g) key = (maincache g, None).
Proof.
  intros Hno. apply get_None. rewrite get_store_of.
  destruct (cache_lru (maincache g)); [|done]. simpl.
  by rewrite (Get_miss _ _ Hno).
Qed.

Lemma add_store_of fuel g key v :
  add fuel (maincache g) key v =
  store' ← lru.Add fuel (store_of g) key v;
  Some (mkcache (Some store') (cacheBytes (maincache g))).
Proof. reflexivity. Qed.

(** *** Loading *)

Lemma getLocally_Err fuel g key err :
  getter g key = Err err →
  getLocally fuel g key =
    Some (mkGroup (name g) (maincache g) (getter g) (peers g) (key :: loads g), Err err).
Proof. intros He. unfold getLocally, call_getter. by rewrite He. Qed.

(** A load that succeeds ends when the capacity is not negative, and gives
    the loader's bytes. *)
Lemma getLocally_terminates fuel g key bytes :
  wf_group g → getter g key = Ok bytes →
  0 ≤ cacheBytes (maincache g) →
  (length (lru.ll (store_of g)) + 2 ≤ fuel)%nat →
  ∃ g', getLocally fuel g key = Some (g', Ok (mkByteView bytes)) ∧
        loads g' = key :: loads g.
Proof.
  intros [Hwf HM] Hload Hcap Hfuel.
  unfold getLocally, call_getter, populateCache. rewrite Hload, cloneBytes_id.
  cbn [maincache]. rewrite add_store_of.
  destruct (evict_terminates fuel (lru.Add_entry (store_of g) key (mkByteView bytes)))
    as [store' Hs].
  { by apply wf_Add_entry. }
  { rewrite Add_entry_maxBytes. lia. }
  { pose proof (Add_entry_length (store_of g) key (mkByteView bytes)). lia. }
  unfold lru.Add. rewrite Hs. simpl. eauto.
Qed.

(** A load that succeeds on an entry the capacity can hold leaves it in the
    store, at the front. *)
Lemma getLocally_Ok fuel g key bytes :
  wf_group g → getter g key = Ok bytes →
  0 ≤ cacheBytes (maincache g) →
  (cacheBytes (maincache g) ≠ 0 →
     Z.of_nat (String.length key) + Z.of_nat (length bytes) ≤ cacheBytes (maincache g)) →
  lru.total (lru.ll (store_of g)) +
    (Z.of_nat (String.length key) + Z.of_nat (length bytes)) ≤ int64.max →
  (length (lru.ll (store_of g)) + 2 ≤ fuel)%nat →
  ∃ g' rest,
    getLocally fuel g key = Some (g', Ok (mkByteView bytes)) ∧
    loads g' = key :: loads g ∧ wf_group g' ∧
    getter g' = getter g ∧ peers g' = peers g ∧ name g' = name g ∧
    is_Some (cache_lru (maincache g')) ∧
    lru.ll (store_of g') = lru.mkEntry key (mkByteView bytes) :: rest.
Proof.
  intros [Hwf HM] Hload Hcap Hfit Hmax Hfuel.
  destruct (Add_retains fuel (store_of g) key (mkByteView bytes) Len_nonneg Hwf)
    as (store' & rest & Hadd & Hwf' & HM' & Hl); [lia | by rewrite HM | done | done |].
  unfold getLocally, call_getter, populateCache. rewrite Hload, cloneBytes_id.
  cbn [maincache]. rewrite add_store_of, Hadd. simpl.
  eexists _, rest. split_and!; [done..| |done|done|done|by eexists|done].
  split; [exact Hwf'|].
  change (lru.maxBytes store' = cacheBytes (maincache g)). by rewrite HM'.
Qed.

Lemma Get_not_holds fuel g key :
  ¬ holds g key → Get fuel g key = load fuel g key.
Proof. intros Hno. unfold Get. by rewrite (get_not_holds _ _ Hno), set_maincache_id. Qed.

Lemma Get_miss_load fuel g key :
  (get (maincache g) key).2 = None → Get fuel g key = load fuel g key.
Proof. intros Hno. unfold Get. by rewrite (get_None _ _ Hno), set_maincache_id. Qed.

Lemma load_no_remote fuel g key :
  no_remote_value g key → load fuel g key = getLocally fuel g key.
Proof.
  unfold no_remote_value, remote, load, getFromPeer. intros Hno.
  destruct (peers g) as [picker|]; [|done]. simpl in Hno.
  destruct (picker key) as [peer|]; [|done]. simpl in Hno.
  destruct (peer (name g) key) as [bytes|err]; [|done]. by destruct (Hno bytes).
Qed.

(** A key at the front of the store is served from the store, which stays
    as it is. *)
Lemma Get_front_hit fuel g key v rest :
  wf_group g → is_Some (cache_lru (maincache g)) →
  lru.ll (store_of g) = lru.mkEntry key v :: rest →
  Get fuel g key = Some (g, Ok v).
Proof.
  intros [Hwf _] [store Hstore] Hl. unfold Get. rewrite get_store_of, Hstore.
  rewrite (Get_front _ _ _ _ Hwf Hl). simpl.
  replace (Some (store_of g)) with (cache_lru (maincache g))
    by (unfold store_of; by rewrite Hstore).
  by rewrite cache_eta, set_maincache_id.
Qed.


(** *** The get path *)

Lemma fresh_not_holds g key : cache_lru (maincache g) = None → ¬ holds g key.
Proof. unfold holds, store_of. intros ->. simpl. apply not_elem_of_empty. Qed.

(** A load, then a hit.  Take a group with a well-formed store, a key [K]
    that is not in the store and that no remote peer supplies, a loader
    that gives [bytes] for [K], and a capacity that is unlimited or at
    least [len(K) + len(bytes)], all sums staying within [int64].  Then
    [Get K] calls the loader once, stores the value and returns it; a
    second [Get K] right after returns the same value, from the store, and
    calls the loader no more: the group is as the first call left it.  And
    for a key that is not stored, that no remote peer supplies and on which
    the loader fails, [Get] returns the loader's error. *)
Lemma load_then_hit (fuel : nat) (g : Group) (K : string) (bytes : list byte) :
  wf_group g →
  ¬ holds g K →
  no_remote_value g K →
  getter g K = Ok bytes →
  0 ≤ cacheBytes (maincache g) →
  (cacheBytes (maincache g) ≠ 0 →
     Z.of_nat (String.length K) + Z.of_nat (length bytes) ≤ cacheBytes (maincache g)) →
  lru.total (lru.ll (store_of g)) +
    (Z.of_nat (String.length K) + Z.of_nat (length bytes)) ≤ int64.max →
  (length (lru.ll (store_of g)) + 2 ≤ fuel)%nat →
  ∃ g1,
    Get fuel g K = Some (g1, Ok (mkByteView bytes)) ∧
    loads g1 = K :: loads g ∧
    holds g1 K ∧
    Get fuel g1 K = Some (g1, Ok (mkByteView bytes)) ∧
    ∀ K' err,
      ¬ holds g K' → no_remote_value g K' → getter g K' = Err err →
      ∃ g', Get fuel g K' = Some (g', Err err) ∧ maincache g' = maincache g ∧
            loads g' = K' :: loads g.
Proof.
  intros Hwf Hno Hrem Hload Hcap Hfit Hmax Hfuel.
  destruct (getLocally_Ok fuel g K bytes Hwf Hload Hcap Hfit Hmax Hfuel)
    as (g1 & rest & Hget & Hloads & Hwf1 & _ & _ & _ & Hsome & Hl).
  exists g1. split_and!.
  - by rewrite (Get_not_holds _ _ _ Hno), (load_no_remote _ _ _ Hrem).
  - done.
  - apply (lru.wf_cache _ (proj1 Hwf1)). rewrite Hl. unfold lru.keys.
    rewrite fmap_cons. left.
  - by apply (Get_front_hit fuel g1 K _ rest).
  - intros K' err Hno' Hrem' Herr.
    rewrite (Get_not_holds _ _ _ Hno'), (load_no_remote _ _ _ Hrem').
    rewrite (getLocally_Err _ _ _ _ Herr). eauto.
Qed.

(** C6.  When [Get] misses the store and the peer picker names a remote
    peer whose fetch fails, [Get] is the local load, whatever the error of
    the peer was: it returns the loader's error when the loader fails, and
    the loader's bytes when it succeeds (the store being well formed, the
    capacity not negative and the fuel enough for the store's loop).  The
    fetch of an [httpGetter] fails when the network gives an error and when
    the status is not 200. *)
Theorem C6_peer_failure_falls_back (fuel : nat) (g : Group) (key : string)
    (picker : PeerPicker) (peer : PeerGetter) (perr : error) :
  (get (maincache g) key).2 = None →
  peers g = Some picker →
  picker key = Some peer →
  peer (name g) key = Err perr →
  Get fuel g key = getLocally fuel g key ∧
  (∀ err, getter g key = Err err →
     ∃ g', Get fuel g key = Some (g', Err err) ∧ loads g' = key :: loads g) ∧
  (∀ bytes, getter g key = Ok bytes →
     wf_group g → 0 ≤ cacheBytes (maincache g) →
     (length (lru.ll (store_of g)) + 2 ≤ fuel)%nat →
     ∃ g', Get fuel g key = Some (g', Ok (mkByteView bytes)) ∧
           loads g' = key :: loads g) ∧
  (∀ (http_Get : string → http_outcome) (QueryEscape : string → string)
     (h : httpGetter) (group k : string),
     let url := baseURL h +:+ QueryEscape group +:+ "/" +:+ QueryEscape k in
     ((∃ err, http_Get url = HttpError err) ∨
      (∃ code body, http_Get url = HttpResponse code body ∧ code ≠ 200)) →
     ∃ err, httpGetter_Get http_Get QueryEscape h group k = Err err).
Proof.
  intros Hmiss Hpeers Hpick Hfetch.
  assert (HG : Get fuel g key = getLocally fuel g key).
  { rewrite (Get_miss_load _ _ _ Hmiss). unfold load, getFromPeer.
    by rewrite Hpeers, Hpick, Hfetch. }
  split_and!; [done | | |].
  - intros err Herr. rewrite HG, (getLocally_Err _ _ _ _ Herr). eauto.
  - intros bytes Hload Hwf Hcap Hfuel. rewrite HG.
    by apply getLocally_terminates.
  - intros http_Get QueryEscape h group k url [[err Herr]|(code & body & Hresp & Hcode)];
      unfold httpGetter_Get; fold url.
    + rewrite Herr. eauto.
    + rewrite Hresp, bool_decide_eq_true_2 by done. eauto.
Qed.

Lemma C6_peer_failure_falls_back_witness :
  Get 2 (scenario.score_with scenario.unreachable) "Tom" =
    getLocally 2 (scenario.score_with scenario.unreachable) "Tom" ∧
  ∃ g', Get 2 (scenario.score_with scenario.unreachable) "Tom" =
          Some (g', Ok (scenario.bv "630")) ∧ loads g' = ["Tom"].
Proof.
  destruct (C6_peer_failure_falls_back 2 (scenario.score_with scenario.unreachable) "Tom"
              (λ _, Some scenario.unreachable) scenario.unreachable "connection refused"
              eq_refl eq_refl eq_refl eq_refl) as (H1 & _ & H3 & _).
  split; [done|]. apply (H3 (bytes "630")); [done | | by vm_compute | simpl; lia].
  split; [apply wf_New | done].
Defined.


Lemma Get_cache (store : lru.Cache ByteView) key :
  lru.cache (lru.Get store key).1 = lru.cache store.
Proof. unfold lru.Get. by case_decide. Qed.

Lemma getLocally_loads fuel g key g' r :
  getLocally fuel g key = Some (g', r) → loads g' = key :: loads g.
Proof.
  unfold getLocally, call_getter, populateCache.
  destruct (getter g key) as [bytes|err]; [|by intros [= <- _]].
  cbn [maincache]. destruct (add fuel (maincache g) key _) as [mc|]; [|done].
  simpl. by intros [= <- _].
Qed.

(** A [Get] that does not call the loader leaves the keys of the store as
    they were. *)
Lemma Get_frame fuel g key g' r :
  Get fuel g key = Some (g', r) → loads g' = loads g →
  lru.cache (store_of g') = lru.cache (store_of g).
Proof.
  unfold Get. destruct (get (maincache g) key) as [mc hit] eqn:E.
  destruct hit as [v|].
  - intros [= <- _] _. rewrite get_store_of in E.
    destruct (cache_lru (maincache g)) as [store|] eqn:Es; [|done].
    injection E as <- _. unfold store_of at 1. simpl. apply Get_cache.
  - pose proof (get_None (maincache g) key) as HN. rewrite E in HN.
    injection (HN eq_refl) as ->. rewrite set_maincache_id. unfold load.
    intros Hload Hloads.
    assert (Hl : getLocally fuel g key = Some (g', r) → False).
    { intros Hl%getLocally_loads. rewrite Hloads in Hl.
      apply (f_equal length) in Hl. simpl in Hl. lia. }
    destruct (peers g) as [picker|]; [|done].
    destruct (picker key) as [peer|]; [|done].
    destruct (getFromPeer g peer key); [|done].
    by injection Hload as <- _.
Qed.

(** C7.  When [Get] misses the store and the remote peer that the picker
    names answers with [bytes], [Get] returns [bytes] as a ByteView and the
    group is what it was: the entries of the store, their order, the bytes
    accounted for, and the calls made to the loader.  Whenever a [Get] adds
    a key to the store or drops one, it has called the loader. *)
Theorem C7_remote_fetch_not_stored (fuel : nat) (g : Group) (key : string)
    (picker : PeerPicker) (peer : PeerGetter) (bytes : list byte) :
  (get (maincache g) key).2 = None →
  peers g = Some picker →
  picker key = Some peer →
  peer (name g) key = Ok bytes →
  Get fuel g key = Some (g, Ok (mkByteView bytes)) ∧
  ∀ g0 key0 g' r,
    Get fuel g0 key0 = Some (g', r) →
    lru.cache (store_of g') ≠ lru.cache (store_of g0) →
    loads g' = key0 :: loads g0.
Proof.
  intros Hmiss Hpeers Hpick Hfetch. split.
  - rewrite (Get_miss_load _ _ _ Hmiss). unfold load, getFromPeer.
    by rewrite Hpeers, Hpick, Hfetch, cloneBytes_id.
  - intros g0 key0 g' r HG Hne.
    destruct (decide (loads g' = loads g0)) as [Heq|Hneq].
    { destruct Hne. by eapply Get_frame. }
    revert HG. unfold Get. destruct (get (maincache g0) key0) as [mc hit] eqn:E.
    destruct hit as [v|]; [intros [= <- _]; by destruct Hneq|].
    pose proof (get_None (maincache g0) key0) as HN. rewrite E in HN.
    injection (HN eq_refl) as ->. rewrite set_maincache_id. unfold load.
    destruct (peers g0) as [picker0|]; [|apply getLocally_loads].
    destruct (picker0 key0) as [peer0|]; [|apply getLocally_loads].
    destruct (getFromPeer g0 peer0 key0); [|apply getLocally_loads].
    intros [= <- _]. by destruct Hneq.
Qed.

Lemma C7_remote_fetch_not_stored_witness :
  Get 2 (scenario.score_with scenario.answering) "Tom" =
    Some (scenario.score_with scenario.answering, Ok (scenario.bv "remote")).
Proof.
  apply (C7_remote_fetch_not_stored 2 (scenario.score_with scenario.answering) "Tom"
           (λ _, Some scenario.answering) scenario.answering (bytes "remote")
           eq_refl eq_refl eq_refl eq_refl).
Defined.

(** *** The serving side *)

Lemma ServeHTTP_cases fuel (h : HTTPPool) (groups : registry) Path :
  HasPrefix Path (basePath h) = true →
  ServeHTTP fuel h groups Path =
  match cut "/" (slice_from (String.length (basePath h)) Path) with
  | None => Some (Returns (groups, http_Error "bad request" StatusBadRequest))
  | Some (groupName, key) =>
      match groups !! groupName with
      | None =>
          Some (Returns (groups, http_Error ("no such group: " +:+ groupName) StatusNotFound))
      | Some group =>
          match Get fuel group key with
          | None => None
          | Some (group', Err err) =>
              Some (Returns (<[groupName := group']> groups,
                             http_Error err StatusInternalServerError))
          | Some (group', Ok view) =>
              Some (Returns (<[groupName := group']> groups,
                mkResponse StatusOK (<["Content-Type" := "application/octet-stream"]> ∅)
                           (b view)))
          end
      end
  end.
Proof.
  intros Hp. unfold ServeHTTP, GetGroup. rewrite Hp, SplitN_2. simpl negb. cbv iota.
  destruct (cut "/" _) as [[groupName key]|]; [|done].
  destruct (groups !! groupName) as [group|]; [|done].
  destruct (Get fuel group key) as [[group' [view|err]]|]; [|done..].
  simpl. unfold ByteSlice. by rewrite cloneBytes_id.
Qed.

(** C8 as it is worded does not hold: the rest of the path "score/Tom/x"
    has three segments, and the answer is not status 400.  The handler
    takes "score" for the namespace and "Tom/x" for the key, on which the
    loader of the example fails: status 500. *)
Lemma C8_serve_statuses_counterexample :
  Split "score/Tom/x" "/" = ["score"; "Tom"; "x"] ∧
  length (Split "score/Tom/x" "/") ≠ 2%nat ∧
  ∃ groups' resp,
    ServeHTTP 2 scenario.pool scenario.groups "/_geecache/score/Tom/x" =
      Some (Returns (groups', resp)) ∧
    StatusCode resp = 500 ∧ StatusCode resp ≠ 400.
Proof. split_and!; [done | by vm_compute |]. eexists _, _. split_and!; [reflexivity | done..]. Qed.

(** C8, amended.  On a path that starts with the prefix the handler does
    not panic, and it answers unless the [Get] it calls is cut short.  Let
    [rest] be the path after the prefix.  The status is 400 exactly when
    [rest] has no "/".  Otherwise the namespace is the text before the
    first "/" of [rest] and the key all the text after it, further "/"
    included; the status is 404 exactly when no group is registered under
    that name, 500 exactly when the [Get] of the group fails, and 200
    exactly when it succeeds, then with the header [Content-Type:
    application/octet-stream] and the bytes of the value as the body. *)
Theorem C8_serve_statuses (fuel : nat) (h : HTTPPool) (groups : registry) (Path : string) :
  HasPrefix Path (basePath h) = true →
  let rest := slice_from (String.length (basePath h)) Path in
  let parsed gn key := first_split rest "/" gn key in
  (∀ msg, ServeHTTP fuel h groups Path ≠ Some (Panics msg)) ∧
  (ServeHTTP fuel h groups Path = None ↔
     ∃ gn key group,
       parsed gn key ∧ groups !! gn = Some group ∧ Get fuel group key = None) ∧
  ∀ groups' resp,
    ServeHTTP fuel h groups Path = Some (Returns (groups', resp)) →
    (StatusCode resp = 400 ↔ ¬ contains rest "/") ∧
    (StatusCode resp = 404 ↔ ∃ gn key, parsed gn key ∧ groups !! gn = None) ∧
    (StatusCode resp = 500 ↔
       ∃ gn key group group' err,
         parsed gn key ∧ groups !! gn = Some group ∧
         Get fuel group key = Some (group', Err err)) ∧
    (StatusCode resp = 200 ↔
       ∃ gn key group group' view,
         parsed gn key ∧ groups !! gn = Some group ∧
         Get fuel group key = Some (group', Ok view) ∧
         Header resp !! "Content-Type" = Some "application/octet-stream" ∧
         Body resp = b view ∧ groups' = <[gn := group']> groups).
Proof.
  intros Hp. cbv zeta. rewrite (ServeHTTP_cases _ _ _ _ Hp).
  set (rest := slice_from (String.length (basePath h)) Path).
  destruct (cut "/" rest) as [[gn key]|] eqn:Ecut.
  - pose proof (proj1 (cut1_Some _ _ _ _) Ecut) as Hparsed.
    assert (Hhas : contains rest "/") by (exists gn, key; apply Hparsed).
    assert (Huniq : ∀ gn' key', first_split rest "/" gn' key' → gn' = gn ∧ key' = key).
    { intros gn' key' H'%cut1_Some. rewrite Ecut in H'. by injection H' as -> ->. }
    destruct (groups !! gn) as [group|] eqn:Eg.
    + destruct (Get fuel group key) as [[group' [view|err]]|] eqn:EG.
      * split_and!; [done | |].
        { split; [done|]. intros (gn' & key' & group0 & [-> ->]%Huniq & Hg0 & HG0).
          rewrite Eg in Hg0. injection Hg0 as <-. by rewrite EG in HG0. }
        intros groups' resp [= <- <-]. simpl. split_and!.
        -- split; [done | tauto].
        -- split; [done|]. intros (gn' & key' & [-> ->]%Huniq & Hg0). by rewrite Eg in Hg0.
        -- split; [done|].
           intros (gn' & key' & group0 & g0' & err & [-> ->]%Huniq & Hg0 & HG0).
           rewrite Eg in Hg0. injection Hg0 as <-. by rewrite EG in HG0.
        -- split; [|done]. intros _. by exists gn, key, group, group', view.
      * split_and!; [done | |].
        { split; [done|]. intros (gn' & key' & group0 & [-> ->]%Huniq & Hg0 & HG0).
          rewrite Eg in Hg0. injection Hg0 as <-. by rewrite EG in HG0. }
        intros groups' resp [= <- <-]. simpl. split_and!.
        -- split; [done | tauto].
        -- split; [done|]. intros (gn' & key' & [-> ->]%Huniq & Hg0). by rewrite Eg in Hg0.
        -- split; [|done]. intros _. by exists gn, key, group, group', err.
        -- split; [done|].
           intros (gn' & key' & group0 & g0' & view & [-> ->]%Huniq & Hg0 & HG0 & _).
           rewrite Eg in Hg0. injection Hg0 as <-. by rewrite EG in HG0.
      * split_and!; [done | | done].
        split; [|done]. intros _. by exists gn, key, group.
    + split_and!; [done | |].
      { split; [done|]. intros (gn' & key' & group0 & [-> ->]%Huniq & Hg0 & _).
        by rewrite Eg in Hg0. }
      intros groups' resp [= <- <-]. simpl. split_and!.
      * split; [done | tauto].
      * split; [|done]. intros _. by exists gn, key.
      * split; [done|].
        intros (gn' & key' & group0 & g0' & err & [-> ->]%Huniq & Hg0 & _).
        by rewrite Eg in Hg0.
      * split; [done|].
        intros (gn' & key' & group0 & g0' & view & [-> ->]%Huniq & Hg0 & _).
        by rewrite Eg in Hg0.
  - pose proof (proj1 (cut1_None _ _) Ecut) as Hno.
    assert (Hnone : ∀ gn key, ¬ first_split rest "/" gn key).
    { intros gn key H'%cut1_Some. by rewrite Ecut in H'. }
    split_and!; [done | |].
    { split; [done|]. intros (gn & key & _ & H' & _). by apply Hnone in H'. }
    intros groups' resp [= <- <-]. simpl. split_and!.
    + done.
    + split; [done|]. intros (gn & key & H' & _). by apply Hnone in H'.
    + split; [done|]. intros (gn & key & ? & ? & ? & H' & _). by apply Hnone in H'.
    + split; [done|]. intros (gn & key & ? & ? & ? & H' & _). by apply Hnone in H'.
Qed.

Lemma C8_serve_statuses_witness :
  HasPrefix "/_geecache/score/Tom" (basePath scenario.pool) = true ∧
  ∀ msg, ServeHTTP 2 scenario.pool scenario.groups "/_geecache/score/Tom" ≠ Some (Panics msg).
Proof.
  split; [reflexivity|].
  apply (C8_serve_statuses 2 scenario.pool scenario.groups "/_geecache/score/Tom" eq_refl).
Defined.

(** The three requests of the example: a value, an unknown namespace, a
    path without a key. *)
Example serve_score_Tom :
  ∃ groups', ServeHTTP 2 scenario.pool scenario.groups "/_geecache/score/Tom" =
    Some (Returns (groups',
      mkResponse 200 (<["Content-Type" := "application/octet-stream"]> ∅) (bytes "630"))).
Proof. eexists. reflexivity. Qed.

Example serve_unknown_group :
  ServeHTTP 2 scenario.pool scenario.groups "/_geecache/unknown/Tom" =
    Some (Returns (scenario.groups, http_Error "no such group: unknown" 404)).
Proof. reflexivity. Qed.

Example serve_no_key :
  ServeHTTP 2 scenario.pool scenario.groups "/_geecache/score" =
    Some (Returns (scenario.groups, http_Error "bad request" 400)).
Proof. reflexivity. Qed.

End geecache_facts.

(** ** More about package lru *)

Module lru_more.
Import lru int64_facts lru_facts.

Section more.
Context {V : Type} `{!Value V}.
Implicit Types (c : Cache V) (l : list (Entry V)) (e : Entry V) (k : string) (v : V).

Lemma Add_entry_evictions c k v :
  evictions (Add_entry c k v) = evictions c ∧ OnEvicted (Add_entry c k v) = OnEvicted c.
Proof. unfold Add_entry. case_decide; [destruct (element k (ll c))|]; done. Qed.

Lemma Add_entry_cache c k v : cache (Add_entry c k v) = {[k]} ∪ cache c.
Proof.
  unfold Add_entry. case_decide as Hk; [|done].
  assert (Hc : cache c = {[k]} ∪ cache c).
  { apply set_eq. intros x. rewrite elem_of_union, elem_of_singleton.
    split; [by right | by intros [->|?]]. }
  by destruct (element k (ll c)).
Qed.

Lemma RemoveOldest_evictions c :
  OnEvicted (RemoveOldest c) = OnEvicted c ∧
  evictions (RemoveOldest c) =
    match Back (ll c) with
    | Some e => if OnEvicted c then call e :: evictions c else evictions c
    | None => evictions c
    end.
Proof.
  unfold RemoveOldest. destruct (Back (ll c)); [|done]. simpl.
  by destruct (OnEvicted c) eqn:E.
Qed.

(** What [j] calls of [RemoveOldest] take off the list, they report. *)
Lemma iter_evictions j c :
  wf c →
  ∃ dropped,
    ll c = ll (Nat.iter j RemoveOldest c) ++ dropped ∧
    OnEvicted (Nat.iter j RemoveOldest c) = OnEvicted c ∧
    evictions (Nat.iter j RemoveOldest c) =
      (if OnEvicted c then call <$> dropped else []) ++ evictions c ∧
    cache (Nat.iter j RemoveOldest c) = cache c ∖ list_to_set (keys dropped).
Proof.
  intros Hwf. induction j as [|j (dropped & Hl & Hcb & Hev & Hc)].
  - exists []. simpl. rewrite app_nil_r. split_and!; [done | done | by destruct (OnEvicted c) |].
    apply set_eq. intros x. rewrite elem_of_difference, elem_of_empty. tauto.
  - simpl Nat.iter. set (cj := Nat.iter j RemoveOldest c) in *.
    destruct (RemoveOldest_evictions cj) as [Hcb' Hev'].
    destruct (Back (ll cj)) as [e|] eqn:EB.
    + exists (e :: dropped). rewrite RemoveOldest_ll, (RemoveOldest_cache _ _ EB).
      split_and!.
      * rewrite Hl at 1. rewrite (Back_snoc _ _ EB) at 1. by rewrite <- app_assoc.
      * by rewrite Hcb'.
      * rewrite Hev', Hcb, Hev. by destruct (OnEvicted c).
      * rewrite Hc. unfold keys. rewrite fmap_cons. apply set_eq. intros x.
        rewrite !elem_of_difference, !elem_of_list_to_set, elem_of_cons, elem_of_singleton.
        tauto.
    + exists dropped. rewrite RemoveOldest_empty by (by apply Back_None).
      by split_and!.
Qed.

Lemma step_OnEvicted fuel c o c' :
  wf c → step fuel c o = Some c' → OnEvicted c' = OnEvicted c.
Proof.
  intros Hwf. destruct o as [k v|k|]; simpl.
  - unfold Add. intros (j & -> & _)%evict_iter.
    destruct (iter_evictions j _ (wf_Add_entry c k v Hwf)) as (? & _ & -> & _).
    apply Add_entry_evictions.
  - intros [= <-]. unfold Get. by case_decide.
  - intros [= <-]. apply RemoveOldest_evictions.
Qed.

Lemma run_OnEvicted fuel c ops c' :
  wf c → run fuel c ops = Some c' → OnEvicted c' = OnEvicted c.
Proof.
  revert c. induction ops as [|o ops IH]; intros c Hwf.
  - by intros [= <-].
  - rewrite run_cons. destruct (step fuel c o) as [c1|] eqn:E; [|done]. simpl.
    intros Hr. rewrite (IH c1 (proj1 (step_wf _ _ _ _ Hwf E)) Hr).
    by eapply step_OnEvicted.
Qed.

(** X1.  The callback of an eviction.  When [Add] ends on a store reached from
    [New], the entries it evicted are the back of the list as it stood
    after the insertion; they left the map; and with a callback set the
    callback was called once for each, with its key and its value, the
    entry nearest the back first.  Without a callback nothing is called. *)
Theorem Add_reports_each_eviction (M : Z) (cb : bool) (ops : list (op V))
    (fuel0 fuel : nat) (c c' : Cache V) (k : string) (v : V) :
  run fuel0 (New M cb) ops = Some c →
  Add fuel c k v = Some c' →
  ∃ dropped,
    ll (Add_entry c k v) = ll c' ++ dropped ∧
    cache c' = ({[k]} ∪ cache c) ∖ list_to_set (keys dropped) ∧
    evictions c' = (if cb then call <$> dropped else []) ++ evictions c.
Proof.
  intros Hrun Hadd. destruct (run_wf _ _ _ _ (wf_New M cb) Hrun) as [Hwf _].
  pose proof (run_OnEvicted _ _ _ _ (wf_New M cb) Hrun) as Hcb. simpl in Hcb.
  unfold Add in Hadd. apply evict_iter in Hadd as (j & -> & _).
  destruct (iter_evictions j _ (wf_Add_entry c k v Hwf)) as (dropped & Hl & _ & Hev & Hc).
  destruct (Add_entry_evictions c k v) as [Hev0 Hcb0].
  exists dropped. rewrite Hc, Hev, Hev0, Hcb0, Hcb, Add_entry_cache. done.
Qed.

(** X2.  Insert and look up.  On a store reached from [New M cb] with
    [0 ≤ M], whose values have lengths that are not negative, [Add k v] of
    an entry that the budget can hold (the budget is unlimited, or
    [len(k) + v.Len() ≤ M]), sums staying within [int64], ends, and a
    [Get k] right after it returns [v] and leaves the store as it is. *)
Theorem Add_then_Get (M : Z) (cb : bool) (ops : list (op V)) (fuel0 fuel : nat)
    (c : Cache V) (k : string) (v : V) :
  (∀ x : V, 0 ≤ Len x) →
  0 ≤ M →
  run fuel0 (New M cb) ops = Some c →
  (M ≠ 0 → Z.of_nat (String.length k) + Len v ≤ M) →
  total (ll c) + (Z.of_nat (String.length k) + Len v) ≤ int64.max →
  (length (ll c) + 2 ≤ fuel)%nat →
  ∃ c', Add fuel c k v = Some c' ∧ Get c' k = (c', Some v).
Proof.
  intros Hnn HM Hrun Hfit Hmax Hfuel.
  destruct (run_wf _ _ _ _ (wf_New M cb) Hrun) as [Hwf HMc]. simpl in HMc.
  destruct (Add_retains fuel c k v Hnn Hwf) as (c' & rest & Hadd & Hwf' & _ & Hl);
    [lia | by rewrite HMc | done | done |].
  exists c'. split; [done|]. by eapply Get_front.
Qed.

(** X3.  What [Get] leaves alone.  On a store reached from [New], [Get k]
    changes neither the bytes accounted for nor the budget, the keys of the
    map or the calls made to the callback, and the list keeps its entries,
    reordered at most.  It finds a value exactly when [k] is in the map,
    the value of the entry of [k]; when [k] is not there the store is left
    as it is. *)
Theorem Get_reorders_only (M : Z) (cb : bool) (ops : list (op V)) (fuel : nat)
    (c : Cache V) (k : string) :
  run fuel (New M cb) ops = Some c →
  nBytes (Get c k).1 = nBytes c ∧ maxBytes (Get c k).1 = maxBytes c ∧
  cache (Get c k).1 = cache c ∧ evictions (Get c k).1 = evictions c ∧
  ll (Get c k).1 ≡ₚ ll c ∧
  (k ∈ cache c ↔ is_Some (Get c k).2) ∧
  (∀ v, (Get c k).2 = Some v → mkEntry k v ∈ ll c) ∧
  (k ∉ cache c → Get c k = (c, None)).
Proof.
  intros Hrun. destruct (run_wf _ _ _ _ (wf_New M cb) Hrun) as [Hwf _].
  destruct (decide (k ∈ cache c)) as [Hk|Hk].
  - destruct (element_is_Some k (ll c)) as [e He]; [by apply Hwf|].
    destruct (element_Some _ _ _ He) as [Hke Hin].
    rewrite (Get_hit _ _ _ Hk He). simpl. split_and!; [done..| | | |done].
    + symmetry. by apply Remove_Permutation.
    + split; [eauto | done].
    + intros v [= <-]. rewrite <- Hke. by destruct e.
  - rewrite (Get_miss _ _ Hk). simpl. split_and!; [done..| | |done].
    + split; [done | by intros [? ?]].
    + done.
Qed.

(** X4.  A store without a budget.  With [maxBytes = 0] every [Add] ends after
    one look at the loop condition and evicts nothing: after any calls of
    [Add] on a new store the map holds every key that was added, the
    callback was never called, and [Len] is the number of distinct keys. *)
Theorem unlimited_keeps_every_key (cb : bool) (kvs : list (string * V)) (fuel : nat) :
  (1 ≤ fuel)%nat →
  ∃ c, run fuel (New 0 cb) (adds kvs) = Some c ∧
       cache c = list_to_set kvs.*1 ∧
       evictions c = [] ∧
       Cache_Len c = Z.of_nat (base.size (list_to_set kvs.*1 : gset string)).
Proof.
  intros Hfuel.
  assert (Hgen : ∀ c0, maxBytes c0 = 0 →
            ∃ c, run fuel c0 (adds kvs) = Some c ∧
                 cache c = list_to_set kvs.*1 ∪ cache c0 ∧ evictions c = evictions c0).
  { induction kvs as [|[k v] kvs IH]; intros c0 H0.
    - exists c0. split_and!; [done | | done].
      change (list_to_set ([] : list (string * V)).*1) with (∅ : gset string).
      by rewrite union_empty_l_L.
    - change (adds ((k, v) :: kvs)) with (OpAdd k v :: adds kvs).
      rewrite run_cons. simpl step. unfold Add.
      destruct fuel as [|fuel']; [lia|]. rewrite evict_unfold.
      replace (over (Add_entry c0 k v)) with false.
      2:{ symmetry. apply over_false. left. by rewrite Add_entry_maxBytes. }
      simpl. destruct (IH (Add_entry c0 k v)) as (c & Hrun & Hc & Hev).
      { by rewrite Add_entry_maxBytes. }
      exists c. rewrite Hrun, Hc, Hev, Add_entry_cache.
      split_and!; [done | | apply Add_entry_evictions].
      apply set_eq. intros x. rewrite !elem_of_union. tauto. }
  destruct (Hgen (New 0 cb) eq_refl) as (c & Hrun & Hc & Hev).
  exists c. simpl in Hc, Hev. rewrite union_empty_r_L in Hc.
  split_and!; [done..|].
  destruct (run_wf _ _ _ _ (wf_New 0 cb) Hrun) as [Hwf _].
  unfold Cache_Len. f_equal. rewrite <- Hc.
  assert (Hset : cache c = list_to_set (keys (ll c))).
  { apply set_eq. intros x. by rewrite (wf_cache _ Hwf), elem_of_list_to_set. }
  rewrite Hset, size_list_to_set by apply Hwf. unfold keys. by rewrite length_fmap.
Qed.

(** X5.  The list and the map hold the same entries: on every store reached
    from [New], [Len()], the length of the list, is the number of keys of
    the map, and a key is in the map exactly when the list has an entry
    under it, one at most. *)
Theorem Len_counts_the_map (M : Z) (cb : bool) (ops : list (op V)) (fuel : nat)
    (c : Cache V) :
  run fuel (New M cb) ops = Some c →
  Cache_Len c = Z.of_nat (base.size (cache c)) ∧
  cache c = list_to_set (keys (ll c)) ∧
  NoDup (keys (ll c)).
Proof.
  intros Hrun. destruct (run_wf _ _ _ _ (wf_New M cb) Hrun) as [Hwf _].
  assert (Hset : cache c = list_to_set (keys (ll c))).
  { apply set_eq. intros x. by rewrite (wf_cache _ Hwf), elem_of_list_to_set. }
  split_and!; [|done|apply Hwf].
  unfold Cache_Len. f_equal.
  rewrite Hset, size_list_to_set by apply Hwf. unfold keys. by rewrite length_fmap.
Qed.

Lemma Add_entry_head c k v :
  wf c → ∃ rest, ll (Add_entry c k v) = mkEntry k v :: rest.
Proof.
  intros Hwf. unfold Add_entry. case_decide as Hk.
  - destruct (element_is_Some k (ll c)) as [old Hold]; [by apply Hwf|].
    rewrite Hold. simpl. unfold MoveToFront.
    rewrite (element_assign _ v _ _ Hold). eauto.
  - simpl. unfold PushFront. eauto.
Qed.

(** X6.  The entry [Add] was called with is the last to go: when [Add k v]
    ends on a store reached from [New], either [k] is in the store, at the
    front with the value [v], or the store is empty. *)
Theorem Add_evicts_its_own_entry_last (M : Z) (cb : bool) (ops : list (op V))
    (fuel0 fuel : nat) (c c' : Cache V) (k : string) (v : V) :
  run fuel0 (New M cb) ops = Some c →
  Add fuel c k v = Some c' →
  (∃ rest, ll c' = mkEntry k v :: rest ∧ k ∈ cache c' ∧ Get c' k = (c', Some v)) ∨
  (ll c' = [] ∧ cache c' = ∅ ∧ nBytes c' = 0).
Proof.
  intros Hrun Hadd. destruct (run_wf _ _ _ _ (wf_New M cb) Hrun) as [Hwf _].
  destruct (evict_wf _ _ _ (wf_Add_entry c k v Hwf) Hadd) as [Hwf' _].
  destruct (Add_entry_head c k v Hwf) as [rest Hl].
  unfold Add in Hadd. apply evict_iter in Hadd as (j & Hj & _).
  assert (Hll : ll c' = take (S (length rest) - j) (mkEntry k v :: rest)).
  { by rewrite Hj, iter_ll, Hl. }
  destruct (S (length rest) - j)%nat as [|n] eqn:En.
  - right. rewrite take_0 in Hll. destruct (wf_empty _ Hwf' Hll). by split_and!.
  - left. simpl in Hll. exists (take n rest). split_and!; [done | |].
    + apply (wf_cache _ Hwf'). rewrite Hll. unfold keys. rewrite fmap_cons. left.
    + by eapply Get_front.
Qed.

Lemma evict_stuck c : ll c = [] → over c = true → ∀ fuel, evict fuel c = None.
Proof.
  intros Hl Ho fuel. induction fuel as [|fuel IH]; [done|].
  by rewrite evict_unfold, Ho, RemoveOldest_empty.
Qed.

(** On an empty store with a negative budget [Add] does not return. *)
Lemma Add_on_empty_negative c k v :
  wf c → ll c = [] → maxBytes c < 0 →
  0 ≤ Len v →
  Z.of_nat (String.length k) + Len v ≤ int64.max →
  ∀ fuel, Add fuel c k v = None.
Proof.
  intros Hwf Hl HM Hv Hmax fuel. unfold Add.
  pose proof (wf_Add_entry c k v Hwf) as Hwf1.
  assert (Hk : k ∉ cache c).
  { rewrite (wf_cache _ Hwf), Hl. apply not_elem_of_nil. }
  set (c1 := Add_entry c k v) in *.
  assert (Hl1 : ll c1 = [mkEntry k v]).
  { unfold c1, Add_entry. rewrite decide_False by done. simpl. by rewrite Hl. }
  assert (HM1 : maxBytes c1 = maxBytes c) by (unfold c1; by rewrite Add_entry_maxBytes).
  assert (Ho1 : over c1 = true).
  { unfold over. apply andb_true_iff. rewrite !bool_decide_eq_true, HM1. split; [lia|].
    rewrite (wf_bytes _ Hwf1), Hl1, total_cons, total_nil. simpl.
    rewrite wrap_small; [lia|]. unfold int64.in_range, int64.min. lia. }
  destruct fuel as [|fuel]; [done|]. rewrite evict_unfold, Ho1.
  assert (Hl2 : ll (RemoveOldest c1) = []) by (by rewrite RemoveOldest_ll, Hl1).
  apply evict_stuck; [done|].
  destruct (wf_empty _ (wf_RemoveOldest _ Hwf1) Hl2) as [Hn2 _].
  unfold over. apply andb_true_iff.
  rewrite !bool_decide_eq_true, RemoveOldest_maxBytes, HM1, Hn2. lia.
Qed.

(** X7.  A negative budget.  On a store made with [maxBytes < 0], whose values
    have lengths that are not negative, no [Add] ever returns, whatever the
    fuel: the entry is over the budget, it is evicted, and the empty store
    with its 0 bytes is over the budget still.  So a store that a sequence
    of calls has reached is empty. *)
Theorem negative_budget_Add_never_returns (M : Z) (cb : bool) (ops : list (op V))
    (fuel0 : nat) (c : Cache V) (k : string) (v : V) :
  M < 0 →
  (∀ x : V, 0 ≤ Len x) →
  (∀ k' v', OpAdd k' v' ∈ ops → Z.of_nat (String.length k') + Len v' ≤ int64.max) →
  Z.of_nat (String.length k) + Len v ≤ int64.max →
  run fuel0 (New M cb) ops = Some c →
  ll c = [] ∧ ∀ fuel, Add fuel c k v = None.
Proof.
  intros HM Hnn Hops Hmax Hrun.
  destruct (run_wf _ _ _ _ (wf_New M cb) Hrun) as [Hwf HMc]. simpl in HMc.
  assert (Hl : ll c = []).
  { clear Hmax Hwf HMc. revert Hrun Hops.
    assert (Hgen : ∀ c0, wf c0 → ll c0 = [] → maxBytes c0 < 0 →
              (∀ k' v', OpAdd k' v' ∈ ops →
                 Z.of_nat (String.length k') + Len v' ≤ int64.max) →
              run fuel0 c0 ops = Some c → ll c = []).
    { induction ops as [|o ops IH]; intros c0 Hwf0 Hl0 HM0 Hops.
      - by intros [= <-].
      - rewrite run_cons. destruct o as [k' v'|k'|]; simpl step.
        + rewrite (Add_on_empty_negative c0 k' v' Hwf0 Hl0 HM0 (Hnn v')); [done|].
          apply Hops. left.
        + simpl. apply IH.
          * by apply wf_Get.
          * rewrite Get_miss; [done|]. rewrite (wf_cache _ Hwf0), Hl0. apply not_elem_of_nil.
          * unfold Get. by case_decide.
          * intros ???. apply Hops. by right.
        + simpl. rewrite (RemoveOldest_empty _ Hl0). apply IH; [done..|].
          intros ???. apply Hops. by right. }
    intros Hrun Hops. by apply (Hgen (New M cb) (wf_New M cb)). }
  split; [done|]. apply Add_on_empty_negative; [done | done | lia | apply Hnn | done].
Qed.

(** [Add] of an entry larger than a positive budget ends on the empty
    store. *)
Lemma Add_drains fuel c k v :
  (∀ x : V, 0 ≤ Len x) →
  wf c → 0 < maxBytes c →
  maxBytes c < Z.of_nat (String.length k) + Len v →
  total (ll c) + (Z.of_nat (String.length k) + Len v) ≤ int64.max →
  (length (ll c) + 2 ≤ fuel)%nat →
  ∃ c', Add fuel c k v = Some c' ∧ ll c' = [] ∧ wf c' ∧ maxBytes c' = maxBytes c.
Proof.
  intros Hnn Hwf HM Hbig Hfit Hfuel.
  destruct (Add_entry_front c k v Hnn Hwf) as (rest & Hl & Htot).
  pose proof (Add_entry_length c k v) as Hlen.
  destruct (evict_drains rest fuel (Add_entry c k v) (mkEntry k v))
    as (c' & Hev & Hl'); [done | by apply wf_Add_entry | done | ..].
  { rewrite Add_entry_maxBytes. lia. }
  { rewrite Add_entry_maxBytes. simpl. lia. }
  { lia. } { lia. }
  destruct (evict_wf _ _ _ (wf_Add_entry _ k v Hwf) Hev) as [Hwf' HM'].
  exists c'. split_and!; [done..|]. by rewrite HM', Add_entry_maxBytes.
Qed.

End more.

Lemma Add_reports_each_eviction_witness :
  run 5 (New 20 true) scenario.two_ops = Some scenario.store14 ∧
  Add 5 scenario.store14 "k3" (scenario.bv "abcde") = Some scenario.store14' ∧
  ∃ dropped,
    ll (Add_entry scenario.store14 "k3" (scenario.bv "abcde")) =
      ll scenario.store14' ++ dropped ∧
    evictions scenario.store14' = (call <$> dropped) ++ evictions scenario.store14.
Proof.
  assert (Hrun : run 5 (New 20 true) scenario.two_ops = Some scenario.store14)
    by reflexivity.
  assert (Hadd : Add 5 scenario.store14 "k3" (scenario.bv "abcde") = Some scenario.store14')
    by reflexivity.
  split_and!; [done..|].
  destruct (Add_reports_each_eviction 20 true scenario.two_ops 5 5 scenario.store14
              scenario.store14' "k3" (scenario.bv "abcde") Hrun Hadd)
    as (dropped & ? & _ & ?).
  by exists dropped.
Defined.

Lemma Add_then_Get_witness :
  run 5 (New 20 false) scenario.three_ops = Some scenario.store20 ∧
  ∃ c', Add 4 scenario.store20 "k4" (scenario.bv "xyz") = Some c' ∧
        Get c' "k4" = (c', Some (scenario.bv "xyz")).
Proof.
  split; [reflexivity|].
  apply (Add_then_Get 20 false scenario.three_ops 5 4 scenario.store20 "k4"
           (scenario.bv "xyz")).
  - intros x. unfold Len, geecache.ByteView_Len. lia.
  - lia.
  - reflexivity.
  - intros _. by vm_compute.
  - by vm_compute.
  - simpl. lia.
Defined.

Lemma Get_reorders_only_witness :
  run 5 (New 20 false) scenario.three_ops = Some scenario.store20 ∧
  nBytes (Get scenario.store20 "k2").1 = nBytes scenario.store20 ∧
  ll (Get scenario.store20 "k2").1 ≡ₚ ll scenario.store20.
Proof.
  assert (Hrun : run 5 (New 20 false) scenario.three_ops = Some scenario.store20)
    by reflexivity.
  split; [done|].
  destruct (Get_reorders_only 20 false scenario.three_ops 5 scenario.store20 "k2" Hrun)
    as (? & _ & _ & _ & ? & _).
  by split.
Defined.

Lemma unlimited_keeps_every_key_witness :
  (1 ≤ 1)%nat ∧
  ∃ c : Cache geecache.ByteView,
    run 1 (New 0 false) (adds scenario.two_adds) = Some c ∧
    cache c = list_to_set scenario.two_adds.*1 ∧ evictions c = [].
Proof.
  split; [lia|].
  destruct (unlimited_keeps_every_key false scenario.two_adds 1 ltac:(lia))
    as (c & ? & ? & ? & _).
  by exists c.
Defined.

Lemma Len_counts_the_map_witness :
  run 5 (New 20 false) scenario.three_ops = Some scenario.store20 ∧
  Cache_Len scenario.store20 = Z.of_nat (base.size (cache scenario.store20)).
Proof.
  split; [reflexivity|].
  apply (Len_counts_the_map 20 false scenario.three_ops 5 scenario.store20). reflexivity.
Defined.

Lemma Add_evicts_its_own_entry_last_witness :
  run 5 (New 20 true) scenario.two_ops = Some scenario.store14 ∧
  Add 5 scenario.store14 "k3" (scenario.bv "abcde") = Some scenario.store14' ∧
  ((∃ rest, ll scenario.store14' = mkEntry "k3" (scenario.bv "abcde") :: rest ∧
            "k3" ∈ cache scenario.store14' ∧
            Get scenario.store14' "k3" = (scenario.store14', Some (scenario.bv "abcde"))) ∨
   (ll scenario.store14' = [] ∧ cache scenario.store14' = ∅ ∧ nBytes scenario.store14' = 0)).
Proof.
  assert (Hrun : run 5 (New 20 true) scenario.two_ops = Some scenario.store14)
    by reflexivity.
  assert (Hadd : Add 5 scenario.store14 "k3" (scenario.bv "abcde") = Some scenario.store14')
    by reflexivity.
  split_and!; [done..|].
  apply (Add_evicts_its_own_entry_last 20 true scenario.two_ops 5 5 scenario.store14
           scenario.store14' "k3" (scenario.bv "abcde") Hrun Hadd).
Defined.

Lemma negative_budget_Add_never_returns_witness :
  -1 < 0 ∧ ∀ fuel, Add fuel (New (-1) false) "k1" (scenario.bv "12345") = None.
Proof.
  split; [lia|].
  apply (negative_budget_Add_never_returns (-1) false [OpGet "k1"] 1 (New (-1) false)
           "k1" (scenario.bv "12345")).
  - lia.
  - intros x. unfold Len, geecache.ByteView_Len. lia.
  - intros k' v' Hin. apply list_elem_of_singleton in Hin. discriminate Hin.
  - by vm_compute.
  - reflexivity.
Defined.

End lru_more.

(** ** The store of src/cache.go *)

Module cache_go_facts.
Import lru int64_facts lru_facts lru_more.

Section facts.
Context {V : Type} `{!Value V}.
Implicit Types (c : Cache V) (k : string) (v : V).

Lemma Add_present c k v : k ∈ cache c → cache_go.Add c k v = Add_entry c k v.
Proof. intros Hk. unfold cache_go.Add, Add_entry. by rewrite !decide_True. Qed.

Lemma Add_absent c k v :
  k ∉ cache c →
  cache_go.Add c k v =
    let c1 := set_cache ({[k]} ∪ cache c)
                (allocate (set_ll (ll c ++ [mkEntry k v]) c) (mkEntry k v)) in
    if bool_decide (nBytes c1 > maxBytes c1) then RemoveOldest c1 else c1.
Proof. intros Hk. unfold cache_go.Add. by rewrite decide_False. Qed.

Lemma wf_pushed c k v :
  wf c → k ∉ cache c →
  wf (set_cache ({[k]} ∪ cache c)
        (allocate (set_ll (ll c ++ [mkEntry k v]) c) (mkEntry k v))).
Proof.
  intros [Hc Hn Hb] Hk. split; simpl.
  - intros k'. rewrite elem_of_union, elem_of_singleton, Hc. unfold keys.
    rewrite fmap_app, elem_of_app. simpl. rewrite list_elem_of_singleton. tauto.
  - unfold keys. rewrite fmap_app. simpl. apply NoDup_app. split_and!; [done | |].
    + intros x Hx ->%list_elem_of_singleton. by apply Hk, Hc.
    + apply NoDup_singleton.
  - rewrite Hb, size_wrap, total_app, total_cons, total_nil. unfold int64.add. simpl.
    rewrite wrap_add_l, wrap_add_r. f_equal. lia.
Qed.

Lemma wf_go_Add c k v : wf c → wf (cache_go.Add c k v).
Proof.
  intros Hwf. destruct (decide (k ∈ cache c)) as [Hk|Hk].
  - rewrite (Add_present _ _ _ Hk). by apply wf_Add_entry.
  - rewrite (Add_absent _ _ _ Hk). cbv zeta.
    pose proof (wf_pushed c k v Hwf Hk). case_bool_decide; [by apply wf_RemoveOldest|done].
Qed.

Lemma run_go_inv (M : Z) (cb : bool) (ops : list (op V)) :
  wf (cache_go.run (cache_go.NewCache M cb) ops) ∧
  maxBytes (cache_go.run (cache_go.NewCache M cb) ops) = M.
Proof.
  unfold cache_go.run.
  assert (H : ∀ c0, wf c0 →
            wf (foldl cache_go.step c0 ops) ∧
            maxBytes (foldl cache_go.step c0 ops) = maxBytes c0).
  { induction ops as [|o ops IH]; intros c0 Hwf0; [done|]. simpl.
    assert (Hs : wf (cache_go.step c0 o) ∧ maxBytes (cache_go.step c0 o) = maxBytes c0).
    { destruct o as [k v|k|]; simpl.
      - split; [by apply wf_go_Add|].
        destruct (decide (k ∈ cache c0)) as [Hk|Hk].
        + rewrite (Add_present _ _ _ Hk). apply Add_entry_maxBytes.
        + rewrite (Add_absent _ _ _ Hk). cbv zeta.
          case_bool_decide; [by rewrite RemoveOldest_maxBytes | done].
      - split; [by apply wf_Get|]. unfold Get. by case_decide.
      - split; [by apply wf_RemoveOldest | apply RemoveOldest_maxBytes]. }
    destruct Hs as [Hwf1 HM1]. destruct (IH _ Hwf1) as [? ->]. done. }
  exact (H (cache_go.NewCache M cb) (wf_New M cb)).
Qed.

Lemma run_go_wf (M : Z) (cb : bool) (ops : list (op V)) :
  wf (cache_go.run (cache_go.NewCache M cb) ops).
Proof. apply run_go_inv. Qed.

(** X8.  Byte accounting in the store of src/cache.go.  In every store reached
    from [NewCache] by its [Add], [Get] and [RemoveOldest], [nBytes] is the
    [int64] sum of [len(key) + value.Len()] over the entries of the list,
    the keys of the map are the keys of the list, and no key is there
    twice. *)
Theorem cache_go_accounting (M : Z) (cb : bool) (ops : list (op V)) :
  let c := cache_go.run (cache_go.NewCache M cb) ops in
  nBytes c = total64 (ll c) ∧
  (∀ k, k ∈ cache c ↔ k ∈ keys (ll c)) ∧
  NoDup (keys (ll c)) ∧
  maxBytes c = M.
Proof.
  cbv zeta. destruct (run_go_inv M cb ops) as [[Hc Hn Hb] HM].
  split_and!; [|done..]. by rewrite total64_wrap.
Qed.

Lemma run_go_OnEvicted (M : Z) (cb : bool) (ops : list (op V)) :
  OnEvicted (cache_go.run (cache_go.NewCache M cb) ops) = cb.
Proof.
  unfold cache_go.run. change cb with (OnEvicted (cache_go.NewCache (V:=V) M cb)) at 2.
  generalize (cache_go.NewCache (V:=V) M cb).
  induction ops as [|o ops IH]; intros c0; [done|]. simpl. rewrite IH.
  destruct o as [k v|k|]; simpl.
  - unfold cache_go.Add. case_decide.
    + by destruct (element k (ll c0)).
    + case_bool_decide; [|done]. by rewrite (proj1 (RemoveOldest_evictions _)).
  - unfold Get. by case_decide.
  - apply RemoveOldest_evictions.
Qed.

(** X9.  A new key in the store of src/cache.go.  [Add] puts a new entry at the
    back of the list, where [RemoveOldest] takes its entry from.  So when
    the new entry brings [nBytes] above [maxBytes], it is this entry that
    is evicted: list, map and [nBytes] are as before the call, the callback
    (if set) is called with the very key and value, and [Get] does not find
    the key.  When it does not, the entry stays, at the back. *)
Theorem cache_go_Add_drops_the_new_entry (M : Z) (cb : bool) (ops : list (op V))
    (k : string) (v : V) :
  let c := cache_go.run (cache_go.NewCache M cb) ops in
  let n := int64.add (nBytes c) (size (mkEntry k v)) in
  k ∉ cache c →
  (n > M →
     ll (cache_go.Add c k v) = ll c ∧ cache (cache_go.Add c k v) = cache c ∧
     nBytes (cache_go.Add c k v) = nBytes c ∧
     evictions (cache_go.Add c k v) = (if cb then [(k, v)] else []) ++ evictions c ∧
     Get (cache_go.Add c k v) k = (cache_go.Add c k v, None)) ∧
  (n ≤ M →
     ll (cache_go.Add c k v) = ll c ++ [mkEntry k v] ∧
     cache (cache_go.Add c k v) = {[k]} ∪ cache c ∧
     nBytes (cache_go.Add c k v) = n ∧
     Back (ll (cache_go.Add c k v)) = Some (mkEntry k v)).
Proof.
  cbv zeta. intros Hk.
  pose proof (run_go_wf M cb ops) as Hwf.
  pose proof (run_go_OnEvicted M cb ops) as Hcb.
  pose proof (proj2 (run_go_inv M cb ops)) as HM.
  set (c := cache_go.run (cache_go.NewCache M cb) ops) in *.
  rewrite (Add_absent _ _ _ Hk). cbv zeta.
  set (c1 := set_cache _ _).
  assert (Hl1 : ll c1 = ll c ++ [mkEntry k v]) by done.
  assert (Hn1 : nBytes c1 = int64.add (nBytes c) (size (mkEntry k v))) by done.
  assert (HM1 : maxBytes c1 = M) by done.
  assert (HB : Back (ll c1) = Some (mkEntry k v)).
  { rewrite Hl1. unfold Back. apply last_snoc. }
  rewrite Hn1, HM1. split; intros Hn.
  - rewrite bool_decide_eq_true_2 by done.
    assert (Hc' : cache (RemoveOldest c1) = cache c).
    { rewrite (RemoveOldest_cache _ _ HB). simpl. apply set_eq. intros x.
      rewrite elem_of_difference, elem_of_union, elem_of_singleton.
      split; [tauto|]. intros Hx. split; [by right|]. by intros ->. }
    split_and!.
    + rewrite RemoveOldest_ll, Hl1. unfold RemoveBack. rewrite length_app. simpl.
      replace (length (ll c) + 1 - 1)%nat with (length (ll c)) by lia.
      by rewrite take_app_length.
    + done.
    + rewrite (RemoveOldest_nBytes _ _ HB), Hn1. unfold int64.sub, int64.add.
      rewrite wrap_sub_l. replace (nBytes c + size (mkEntry k v) - size (mkEntry k v))
        with (nBytes c) by lia.
      by rewrite (wf_bytes _ Hwf), wrap_wrap.
    + destruct (RemoveOldest_evictions c1) as [_ ->]. rewrite HB.
      replace (OnEvicted c1) with cb by done. by destruct cb.
    + apply Get_miss. by rewrite Hc'.
  - rewrite bool_decide_eq_false_2 by lia. by split_and!.
Qed.

(** X10.  An old key in the store of src/cache.go.  [Add] on a key that is in
    the store replaces the value, moves the entry to the front and checks
    nothing: no entry is evicted and the callback is not called, whatever
    the new value's length, and [Get] then returns the new value. *)
Theorem cache_go_Add_replace_never_evicts (M : Z) (cb : bool) (ops : list (op V))
    (k : string) (v : V) :
  let c := cache_go.run (cache_go.NewCache M cb) ops in
  k ∈ cache c →
  cache (cache_go.Add c k v) = cache c ∧
  length (ll (cache_go.Add c k v)) = length (ll c) ∧
  evictions (cache_go.Add c k v) = evictions c ∧
  (∃ old, element k (ll c) = Some old ∧
          nBytes (cache_go.Add c k v) = int64.wrap (nBytes c + (Len v - Len (value old)))) ∧
  Get (cache_go.Add c k v) k = (cache_go.Add c k v, Some v).
Proof.
  cbv zeta. intros Hk. pose proof (run_go_wf M cb ops) as Hwf.
  set (c := cache_go.run (cache_go.NewCache M cb) ops) in *.
  rewrite (Add_present _ _ _ Hk).
  destruct (element_is_Some k (ll c)) as [old Hold]; [by apply Hwf|].
  destruct (Add_entry_head c k v Hwf) as [rest Hl].
  split_and!.
  - rewrite Add_entry_cache. apply set_eq. intros x.
    rewrite elem_of_union, elem_of_singleton. split; [by intros [->|?] | by right].
  - unfold Add_entry. rewrite decide_True, Hold by done. simpl.
    by rewrite MoveToFront_length, assign_length.
  - apply Add_entry_evictions.
  - exists old. split; [done|].
    pose proof (wf_Add_entry _ k v Hwf) as Hwf'.
    rewrite (wf_bytes _ Hwf'), (wf_bytes _ Hwf), wrap_add_l. f_equal.
    unfold Add_entry. rewrite decide_True, Hold by done. simpl.
    rewrite (total_Permutation _ _ (MoveToFront_Permutation _ _)).
    rewrite (total_assign _ _ _ _ Hold). lia.
  - eapply Get_front; [by apply wf_Add_entry | done].
Qed.

End facts.

Lemma cache_go_Add_drops_the_new_entry_witness :
  let c := cache_go.run (cache_go.NewCache 10 true)
             [OpAdd "k1" (scenario.bv "12345")] in
  ("k2" ∉ cache c) ∧
  int64.add (nBytes c) (size (mkEntry "k2" (scenario.bv "67890"))) > 10 ∧
  ll (cache_go.Add c "k2" (scenario.bv "67890")) = ll c.
Proof.
  cbv zeta.
  assert (Hk : "k2" ∉ cache (cache_go.run (cache_go.NewCache 10 true)
                               [OpAdd "k1" (scenario.bv "12345")])).
  { apply (bool_decide_unpack (_ ∉ _)). by vm_compute. }
  assert (Hn : int64.add (nBytes (cache_go.run (cache_go.NewCache 10 true)
                                      [OpAdd "k1" (scenario.bv "12345")]))
                 (size (mkEntry "k2" (scenario.bv "67890"))) > 10) by reflexivity.
  split_and!; [done..|].
  destruct (cache_go_Add_drops_the_new_entry 10 true [OpAdd "k1" (scenario.bv "12345")]
              "k2" (scenario.bv "67890") Hk) as [H _].
  by destruct (H Hn).
Defined.

Lemma cache_go_Add_replace_never_evicts_witness :
  let c := cache_go.run (cache_go.NewCache 10 true)
             [OpAdd "k1" (scenario.bv "12345")] in
  "k1" ∈ cache c ∧
  cache (cache_go.Add c "k1" (scenario.bv "0123456789")) = cache c.
Proof.
  cbv zeta.
  assert (Hk : "k1" ∈ cache (cache_go.run (cache_go.NewCache 10 true)
                               [OpAdd "k1" (scenario.bv "12345")])).
  { apply (bool_decide_unpack (_ ∈ _)). by vm_compute. }
  split; [done|].
  by destruct (cache_go_Add_replace_never_evicts 10 true
                 [OpAdd "k1" (scenario.bv "12345")] "k1" (scenario.bv "0123456789") Hk)
    as [H _].
Defined.

End cache_go_facts.

(** ** More about package consistenthash *)

Module consistenthash_more.
Import gostd gostd_facts consistenthash consistenthash_facts.

Implicit Types (m : Map) (h : Hash) (node : string) (nodes : list string).

Lemma foldl_record_lookup_ne (l : list (Z * string)) : ∀ (hm : gmap Z string) x,
  x ∉ l.*1 → foldl record hm l !! x = hm !! x.
Proof.
  induction l as [|p l IH]; intros hm x Hx; [done|].
  rewrite fmap_cons, not_elem_of_cons in Hx. destruct Hx as [Hne Hx].
  simpl. rewrite (IH _ _ Hx). unfold record. by rewrite lookup_insert_ne.
Qed.

Lemma build_snoc r fn calls nodes :
  Add (build r fn calls) nodes = build r fn (calls ++ [nodes]).
Proof. unfold build. by rewrite foldl_app. Qed.



Lemma Get_registered r fn calls key :
  Get (build r fn calls) key ≠ "" → Get (build r fn calls) key ∈ concat calls.
Proof.
  intros Hne. destruct (build_spec r fn calls) as (_ & _ & _ & _ & Hs).
  destruct (decide (keys (build r fn calls) = [])) as [Hk|Hk].
  { by rewrite (Get_empty _ _ Hk) in Hne. }
  destruct (Get_spec (build r fn calls) key Hs (build_is_covered r fn calls) Hk)
    as (v & Hv & Hn & _).
  destruct (build_covered _ _ _ v Hv) as (node & Hn' & Hin).
  rewrite Hn in Hn'. by injection Hn' as ->.
Qed.


(** X11.  Adding nodes moves keys to the added nodes only.  On a ring built by
    [New] and calls of [Add], after one more [Add(nodes...)] every key is
    looked up to the node it had before, or to one of [nodes]; no key moves
    from one old node to another. *)
Theorem Add_moves_keys_to_new_nodes_only (replicas : Z) (fn : option Hash)
    (calls : list (list string)) (nodes : list string) (key : string) :
  let m := build replicas fn calls in
  Get (Add m nodes) key = Get m key ∨ Get (Add m nodes) key ∈ nodes.
Proof.
  cbv zeta.
  pose proof (build_is_covered replicas fn calls) as Hcov.
  pose proof (build_is_covered replicas fn (calls ++ [nodes])) as Hcov'.
  rewrite <- build_snoc in Hcov'.
  destruct (build_spec replicas fn calls) as (Hh & Hr & Hk & Hm & Hs).
  set (m := build replicas fn calls) in *.
  set (new := vnodes (hash m) (replicas) nodes).
  assert (Hk' : keys (Add m nodes) ≡ₚ keys m ++ new.*1).
  { rewrite Add_spec. cbn [keys]. rewrite Ints_Permutation. unfold new. by rewrite Hr. }
  assert (Hm' : hashMap (Add m nodes) = foldl record (hashMap m) new).
  { rewrite Add_spec. cbn [hashMap]. unfold new. by rewrite Hr. }
  assert (Hh' : hash (Add m nodes) = hash m) by (by rewrite Add_spec).
  assert (Hs' : StronglySorted Z.le (keys (Add m nodes))).
  { rewrite Add_spec. cbn [keys]. apply Ints_sorted. }
  destruct (decide (keys (Add m nodes) = [])) as [Ek|Ek].
  { left. rewrite (Get_empty _ _ Ek). symmetry. apply Get_empty.
    rewrite Ek in Hk'. symmetry in Hk'. apply Permutation_nil_r in Hk'.
    by apply app_eq_nil in Hk' as [? _]. }
  destruct (Get_spec (Add m nodes) key Hs' Hcov') as (v' & Hv' & Hnode' & Hleast');
    [done|].
  rewrite Hh' in Hleast'.
  destruct (decide (v' ∈ new.*1)) as [Hnew|Hold].
  - right. rewrite Hm' in Hnode'.
    destruct (foldl_record_lookup new (hashMap m) v' Hnew) as (node & Hn & Hin).
    rewrite Hnode' in Hn. injection Hn as ->. by apply vnodes_node in Hin.
  - left. rewrite Hm', (foldl_record_lookup_ne _ _ _ Hold) in Hnode'.
    assert (Hvm : v' ∈ keys m).
    { rewrite Hk', elem_of_app in Hv'. by destruct Hv'. }
    assert (Hsub : ∀ u, u ∈ keys m → u ∈ keys (Add m nodes)).
    { intros u Hu. rewrite Hk', elem_of_app. by left. }
    destruct (Get_spec m key Hs Hcov) as (v & Hv & Hnode & Hleast).
    { intros Hnil. rewrite Hnil in Hvm. by apply elem_of_nil in Hvm. }
    assert (Heq : v' = v).
    { apply (chosen_unique (keys m) (hash m (bytes key))); [done | done | | done].
      destruct Hleast' as [[Ha Hb]|[Ha Hb]]; [left|right]; split; auto. }
    rewrite Heq, Hnode in Hnode'. by injection Hnode'.
Qed.

(** X12.  A ring without replicas.  With [replicas ≤ 0] the loop of [Add] never
    runs its body: whatever nodes are added the ring has no virtual node,
    and [Get] returns the empty string for every key. *)
Theorem ring_without_replicas_is_empty (replicas : Z) (fn : option Hash)
    (calls : list (list string)) (key : string) :
  replicas ≤ 0 →
  keys (build replicas fn calls) = [] ∧
  hashMap (build replicas fn calls) = ∅ ∧
  Get (build replicas fn calls) key = "".
Proof.
  intros Hr. destruct (build_spec replicas fn calls) as (_ & _ & Hk & Hm & _).
  assert (Hv : vnodes (ring_hash fn) replicas (concat calls) = []).
  { apply length_zero_iff_nil. rewrite vnodes_length. lia. }
  rewrite Hv in Hk, Hm. apply Permutation_nil_r in Hk.
  split_and!; [done | done | by apply Get_empty].
Qed.

Lemma ring_without_replicas_is_empty_witness :
  0 ≤ 0 ∧ Get (build 0 None [["a"; "b"]]) "Tom" = "".
Proof.
  split; [lia|].
  by destruct (ring_without_replicas_is_empty 0 None [["a"; "b"]] "Tom" ltac:(lia))
    as (_ & _ & ?).
Defined.

(** X13.  Every node gets keys.  On a ring whose virtual nodes all have
    different hash values, a registered node owns each key that is the
    name of one of its virtual nodes, the replica index in decimal
    followed by the node identifier: no registered node is left without a
    key it answers for. *)
Theorem virtual_node_names_route_home (replicas : Z) (fn : option Hash)
    (calls : list (list string)) (node : string) (i : Z) :
  NoDup (vnodes (ring_hash fn) replicas (concat calls)).*1 →
  node ∈ concat calls →
  0 ≤ i < replicas →
  Get (build replicas fn calls) (Itoa i +:+ node) = node.
Proof.
  intros Hnd Hnode Hi.
  pose proof (build_is_covered replicas fn calls) as Hcov.
  destruct (build_spec replicas fn calls) as (Hh & Hr & Hk & Hm & Hs).
  set (m := build replicas fn calls) in *.
  set (l := vnodes (ring_hash fn) replicas (concat calls)) in *.
  set (h0 := ring_hash fn (bytes (Itoa i +:+ node))).
  assert (Hin : (h0, node) ∈ l).
  { unfold l, vnodes. apply list_elem_of_bind. exists node. split; [|done].
    apply list_elem_of_fmap. exists i. split; [done|]. apply elem_of_seqZ. lia. }
  assert (Hh0 : h0 ∈ keys m).
  { rewrite Hk. apply list_elem_of_fmap. by exists (h0, node). }
  destruct (Get_spec m (Itoa i +:+ node) Hs Hcov) as (v & Hv & Hn & Hleast).
  { intros Hnil. rewrite Hnil in Hh0. by apply elem_of_nil in Hh0. }
  rewrite Hh in Hleast. fold h0 in Hleast.
  assert (Hveq : v = h0).
  { destruct Hleast as [[Ha Hb]|[Ha _]].
    - pose proof (Hb h0 Hh0 ltac:(lia)). lia.
    - pose proof (Ha h0 Hh0). lia. }
  rewrite Hveq, Hm in Hn.
  destruct (foldl_record_lookup l ∅ h0) as (n & Hn' & Hin').
  { apply list_elem_of_fmap. by exists (h0, node). }
  rewrite Hn in Hn'. injection Hn' as <-.
  by apply (fst_unique l h0 _ _ Hnd).
Qed.

Lemma virtual_node_names_route_home_witness :
  "4" ∈ concat [["2"; "4"; "6"]] ∧ 0 ≤ 1 < 3 ∧
  Get scenario.ring246 "14" = "4".
Proof.
  assert (Hin : "4" ∈ concat [["2"; "4"; "6"]]).
  { apply (bool_decide_unpack (_ ∈ _)). by vm_compute. }
  split_and!; [done | lia | lia |].
  apply (virtual_node_names_route_home 3 (Some scenario.number_hash)
           [["2"; "4"; "6"]] "4" 1); [|done|lia].
  apply (bool_decide_unpack (NoDup _)). by vm_compute.
Defined.

End consistenthash_more.

(** ** More about package geecache *)

Module geecache_more.
Import gostd geecache int64_facts lru_facts lru_more gostd_facts geecache_facts.

Implicit Types (g : Group) (key : string) (bytes : list byte).

(** *** ByteView *)

(** X14.  What the accessors of a ByteView return.  [ByteSlice] gives the bytes
    of the view, as many as [Len] counts, [cloneBytes] a slice equal to the
    one it is given, and [String] undoes the conversion of a string to the
    bytes of a view. *)
Theorem ByteView_accessors (bytes : list byte) (s : string) :
  ByteSlice (mkByteView bytes) = bytes ∧
  lru.Len (mkByteView bytes) = Z.of_nat (length (ByteSlice (mkByteView bytes))) ∧
  length (cloneBytes bytes) = length bytes ∧
  String (mkByteView (gostd.bytes s)) = s ∧
  gostd.bytes (String (mkByteView bytes)) = bytes.
Proof.
  unfold ByteSlice, String, text, gostd.bytes. simpl. rewrite cloneBytes_id.
  split_and!; [done | done | done | |].
  - apply String.string_of_list_byte_of_string.
  - apply String.list_byte_of_string_of_list_byte.
Qed.

(** *** The registry *)

(** X15.  Registering and looking up.  [NewGroup] without a getter panics.  With
    one it returns a group with no store built yet, and a registry in which
    the name leads to that group, also when the name was taken before,
    and every other name leads where it led. *)
Theorem NewGroup_then_GetGroup (groups : registry) (name : string) (cacheBytes : Z)
    (getter : Getter) :
  NewGroup groups name cacheBytes None = Panics "geecache: nil Getter" ∧
  ∃ g groups',
    NewGroup groups name cacheBytes (Some getter) = Returns (g, groups') ∧
    GetGroup groups' name = Some g ∧
    (∀ other, other ≠ name → GetGroup groups' other = GetGroup groups other) ∧
    geecache.name g = name ∧ geecache.getter g = getter ∧ peers g = None ∧
    maincache g = mkcache None cacheBytes ∧ wf_group g ∧ (∀ key, ¬ holds g key).
Proof.
  split; [done|]. eexists _, _. split; [reflexivity|]. unfold GetGroup.
  split_and!; [apply lookup_insert_eq | | done..| |].
  - intros other Hne. by apply lookup_insert_ne.
  - split; [apply wf_New | done].
  - intros key. by apply fresh_not_holds.
Qed.

(** *** The get path *)

Lemma Get_hit_eq fuel g key e :
  holds g key → lru.element key (lru.ll (store_of g)) = Some e →
  Get fuel g key =
    Some (set_maincache
            (mkcache (Some (lru.set_ll (e :: lru.Remove key (lru.ll (store_of g)))
                                       (store_of g)))
                     (cacheBytes (maincache g))) g,
          Ok (lru.value e)).
Proof.
  intros Hk He.
  assert (Hsome : ∃ store, cache_lru (maincache g) = Some store).
  { unfold holds, store_of in Hk. destruct (cache_lru (maincache g)); [eauto|].
    by apply elem_of_empty in Hk. }
  destruct Hsome as [store Hstore].
  unfold Get. rewrite get_store_of, Hstore. by rewrite (Get_hit _ _ _ Hk He).
Qed.

(** X16.  A hit.  When the key is in the store of a well-formed group, [Get]
    returns the stored value whatever the fuel, the loader and the peers:
    the loader is not called, and the store keeps its entries, the entry
    of the key moved to the front. *)
Theorem Get_hit_calls_nobody (fuel : nat) (g : Group) (key : string) :
  wf_group g →
  holds g key →
  ∃ v g',
    Get fuel g key = Some (g', Ok v) ∧
    lru.mkEntry key v ∈ lru.ll (store_of g) ∧
    loads g' = loads g ∧
    lru.ll (store_of g') = lru.mkEntry key v :: lru.Remove key (lru.ll (store_of g)) ∧
    lru.nBytes (store_of g') = lru.nBytes (store_of g) ∧
    wf_group g'.
Proof.
  intros [Hwf HM] Hk.
  destruct (element_is_Some key (lru.ll (store_of g))) as [e He]; [by apply Hwf|].
  destruct (element_Some _ _ _ He) as [Hke Hin].
  exists (lru.value e). eexists. rewrite (Get_hit_eq fuel g key e Hk He).
  split_and!; [done | | done | | done |].
  - rewrite <- Hke. by destruct e.
  - unfold store_of. simpl. rewrite <- Hke. by destruct e.
  - pose proof (wf_Get (store_of g) key Hwf) as Hwf'.
    rewrite (Get_hit _ _ _ Hk He) in Hwf'. split; [exact Hwf' | exact HM].
Qed.

Lemma getLocally_fields fuel g key g' r :
  getLocally fuel g key = Some (g', r) →
  name g' = name g ∧ getter g' = getter g ∧ peers g' = peers g ∧
  cacheBytes (maincache g') = cacheBytes (maincache g) ∧
  (wf_group g → wf_group g').
Proof.
  unfold getLocally, call_getter, populateCache.
  destruct (getter g key) as [bytes|err]; [|by intros [= <- _]].
  cbn [maincache]. rewrite add_store_of.
  destruct (lru.Add fuel (store_of g) key _) as [store'|] eqn:EA; [|done].
  simpl. intros [= <- _]. split_and!; [done..|].
  intros [Hwf HM].
  destruct (evict_wf _ _ _ (wf_Add_entry _ key _ Hwf) EA) as [Hwf' HM'].
  split; [exact Hwf'|].
  change (lru.maxBytes store' = cacheBytes (maincache g)).
  by rewrite HM', Add_entry_maxBytes.
Qed.

Lemma load_cases fuel g key :
  load fuel g key = getLocally fuel g key ∨ ∃ v, load fuel g key = Some (g, Ok v).
Proof.
  unfold load. destruct (peers g) as [picker|]; [|by left].
  destruct (picker key) as [peer|]; [|by left].
  destruct (getFromPeer g peer key); [right; eauto | by left].
Qed.

(** X17.  What [Get] keeps.  A [Get] that returns leaves the group with its
    name, getter, peers and capacity; the store of a well-formed group is
    well formed after it; and the loader was called once at most, with the
    key. *)
Theorem Get_keeps_the_group (fuel : nat) (g g' : Group) (key : string)
    (r : result ByteView) :
  wf_group g →
  Get fuel g key = Some (g', r) →
  wf_group g' ∧
  name g' = name g ∧ getter g' = getter g ∧ peers g' = peers g ∧
  cacheBytes (maincache g') = cacheBytes (maincache g) ∧
  (loads g' = loads g ∨ loads g' = key :: loads g).
Proof.
  intros Hwf. destruct (decide (key ∈ lru.cache (store_of g))) as [Hk|Hk].
  - destruct (element_is_Some key (lru.ll (store_of g))) as [e He];
      [by apply (lru.wf_cache _ (proj1 Hwf))|].
    rewrite (Get_hit_eq fuel g key e Hk He). intros [= <- _].
    split_and!; [|done..|by left].
    pose proof (wf_Get (store_of g) key (proj1 Hwf)) as Hwf'.
    rewrite (Get_hit _ _ _ Hk He) in Hwf'. split; [exact Hwf' | exact (proj2 Hwf)].
  - rewrite (Get_not_holds _ _ _ Hk). unfold load.
    assert (HL : getLocally fuel g key = Some (g', r) →
                 wf_group g' ∧ name g' = name g ∧ getter g' = getter g ∧
                 peers g' = peers g ∧
                 cacheBytes (maincache g') = cacheBytes (maincache g) ∧
                 (loads g' = loads g ∨ loads g' = key :: loads g)).
    { intros HL. destruct (getLocally_fields _ _ _ _ _ HL) as (? & ? & ? & ? & Hw).
      split_and!; [by apply Hw | done..|]. right. by eapply getLocally_loads. }
    fold (load fuel g key). destruct (load_cases fuel g key) as [->|[v ->]]; [done|].
    intros [= <- _]. split; [exact Hwf|]. split_and!; [done..|by left].
Qed.


Lemma remote_fields g g' key :
  peers g' = peers g → name g' = name g → remote g' key = remote g key.
Proof. unfold remote. by intros -> ->. Qed.

Lemma getLocally_drains fuel g key bytes :
  wf_group g → getter g key = Ok bytes →
  0 < cacheBytes (maincache g) <
    Z.of_nat (String.length key) + Z.of_nat (length bytes) →
  lru.total (lru.ll (store_of g)) +
    (Z.of_nat (String.length key) + Z.of_nat (length bytes)) ≤ int64.max →
  (length (lru.ll (store_of g)) + 2 ≤ fuel)%nat →
  ∃ g',
    getLocally fuel g key = Some (g', Ok (mkByteView bytes)) ∧
    loads g' = key :: loads g ∧ wf_group g' ∧ lru.ll (store_of g') = [] ∧
    getter g' = getter g ∧ peers g' = peers g ∧ name g' = name g ∧
    cacheBytes (maincache g') = cacheBytes (maincache g).
Proof.
  intros [Hwf HM] Hload Hcap Hmax Hfuel.
  destruct (Add_drains fuel (store_of g) key (mkByteView bytes) Len_nonneg Hwf)
    as (store' & Hadd & Hl & Hwf' & HM');
    [rewrite HM; lia | rewrite HM; apply Hcap | done | done |].
  unfold getLocally, call_getter, populateCache. rewrite Hload, cloneBytes_id.
  cbn [maincache]. rewrite add_store_of, Hadd. simpl.
  eexists. split; [done|]. split; [done|]. split; [|by split_and!].
  split; [exact Hwf'|]. change (lru.maxBytes store' = cacheBytes (maincache g)).
  by rewrite HM'.
Qed.

(** X18.  A value the capacity cannot hold.  When the capacity is positive and
    below [len(K) + len(value)], a [Get K] that loads the value returns it
    and leaves the store empty, so the next [Get K] calls the loader
    again: the value is loaded at every call and never served from the
    store. *)
Theorem Get_value_too_large_is_reloaded (fuel : nat) (g : Group) (K : string)
    (bytes : list byte) :
  wf_group g →
  ¬ holds g K →
  no_remote_value g K →
  getter g K = Ok bytes →
  0 < cacheBytes (maincache g) < Z.of_nat (String.length K) + Z.of_nat (length bytes) →
  lru.total (lru.ll (store_of g)) +
    (Z.of_nat (String.length K) + Z.of_nat (length bytes)) ≤ int64.max →
  (length (lru.ll (store_of g)) + 2 ≤ fuel)%nat →
  ∃ g1 g2,
    Get fuel g K = Some (g1, Ok (mkByteView bytes)) ∧
    lru.ll (store_of g1) = [] ∧ loads g1 = K :: loads g ∧
    Get fuel g1 K = Some (g2, Ok (mkByteView bytes)) ∧
    lru.ll (store_of g2) = [] ∧ loads g2 = K :: K :: loads g.
Proof.
  intros Hwf Hno Hrem Hload Hcap Hmax Hfuel.
  destruct (getLocally_drains fuel g K bytes Hwf Hload Hcap Hmax Hfuel)
    as (g1 & HG1 & Hl1 & Hwf1 & He1 & Hg1 & Hp1 & Hn1 & Hc1).
  assert (Hno1 : ¬ holds g1 K).
  { unfold holds. rewrite (lru.wf_cache _ (proj1 Hwf1)), He1. apply not_elem_of_nil. }
  assert (Hrem1 : no_remote_value g1 K).
  { intros b. rewrite (remote_fields g g1 K Hp1 Hn1). apply Hrem. }
  destruct (getLocally_drains fuel g1 K bytes Hwf1)
    as (g2 & HG2 & Hl2 & _ & He2 & _); [by rewrite Hg1 | by rewrite Hc1 | ..].
  { rewrite He1, total_nil. pose proof (total_nonneg (lru.ll (store_of g)) Len_nonneg). lia. }
  { rewrite He1. simpl. lia. }
  exists g1, g2. split_and!.
  - by rewrite (Get_not_holds _ _ _ Hno), (load_no_remote _ _ _ Hrem).
  - done.
  - done.
  - by rewrite (Get_not_holds _ _ _ Hno1), (load_no_remote _ _ _ Hrem1).
  - done.
  - by rewrite Hl2, Hl1.
Qed.


(** X19.  A negative capacity.  On a group made with a negative capacity, whose
    store is not built yet, a [Get] that comes to load a value never
    returns, whatever the fuel: the loop of the store's [Add] does not
    end.  (A [Get] whose loader fails does return, with the error.) *)
Theorem Get_negative_capacity_never_returns (fuel : nat) (g : Group) (K : string)
    (bytes : list byte) :
  cache_lru (maincache g) = None →
  cacheBytes (maincache g) < 0 →
  no_remote_value g K →
  getter g K = Ok bytes →
  Z.of_nat (String.length K) + Z.of_nat (length bytes) ≤ int64.max →
  Get fuel g K = None.
Proof.
  intros Hnone Hcap Hrem Hload Hmax.
  rewrite (Get_not_holds _ _ _ (fresh_not_holds g K Hnone)), (load_no_remote _ _ _ Hrem).
  unfold getLocally, call_getter, populateCache. rewrite Hload, cloneBytes_id.
  cbn [maincache]. rewrite add_store_of.
  rewrite (Add_on_empty_negative (store_of g) K (mkByteView bytes)); [done|..].
  - unfold store_of. rewrite Hnone. apply wf_New.
  - unfold store_of. by rewrite Hnone.
  - unfold store_of. by rewrite Hnone.
  - apply Len_nonneg.
  - done.
Qed.

(** *** Picking a peer *)

Lemma getters_lookup (base : string) (peers : list string) :
  ∀ (m : gmap string httpGetter) (p : string),
  p ∈ peers →
  foldl (λ (m : gmap string httpGetter) peer, <[peer := mkhttpGetter (peer +:+ base)]> m)
        m peers !! p = Some (mkhttpGetter (p +:+ base)).
Proof.
  induction peers as [|a peers IH] using rev_ind; intros m p Hp.
  - by apply elem_of_nil in Hp.
  - rewrite foldl_app. simpl. destruct (decide (a = p)) as [->|Hne].
    + apply lookup_insert_eq.
    + rewrite lookup_insert_ne by done. apply IH.
      apply elem_of_app in Hp as [?|Hp]; [done|].
      apply list_elem_of_singleton in Hp. congruence.
Qed.

Lemma Set_ring (h : HTTPPool) (peers : list string) :
  pool_peers (Set_peers h peers) =
    Some (consistenthash.build defaultReplicas None [peers]).
Proof. reflexivity. Qed.

(** X20.  The peer that is picked.  After [Set(peers...)], whenever [PickPeer]
    reports a peer, the peer is the one the ring gives for the key, it is
    one of [peers], it is neither the empty string nor this node, and the
    getter that is returned is there (not nil), made for the address of
    that peer followed by the base path. *)
Theorem PickPeer_after_Set (h : HTTPPool) (peers : list string) (key : string)
    (p : option httpGetter) :
  PickPeer (Set_peers h peers) key = Some p →
  ∃ peer,
    peer = consistenthash.Get (consistenthash.build defaultReplicas None [peers]) key ∧
    peer ∈ peers ∧ peer ≠ "" ∧ peer ≠ self h ∧
    p = Some (mkhttpGetter (peer +:+ basePath h)).
Proof.
  unfold PickPeer. rewrite Set_ring.
  set (peer := consistenthash.Get _ key).
  destruct (bool_decide (peer ≠ "")) eqn:E1; [|done].
  destruct (bool_decide (peer ≠ self (Set_peers h peers))) eqn:E2; [|done].
  apply bool_decide_eq_true in E1, E2. simpl. intros [= <-].
  assert (Hin : peer ∈ peers).
  { pose proof (consistenthash_more.Get_registered defaultReplicas None [peers] key E1)
      as Hin. simpl in Hin. by rewrite app_nil_r in Hin. }
  exists peer. split_and!; [done..|]. by apply getters_lookup.
Qed.

Lemma PickPeer_after_Set_witness :
  PickPeer scenario.pool3 "Jack" = Some (Some (mkhttpGetter "localhost:8002/_geecache/")) ∧
  ∃ peer, peer ∈ scenario.three_peers ∧ peer ≠ self scenario.pool ∧
          mkhttpGetter "localhost:8002/_geecache/" =
            mkhttpGetter (peer +:+ basePath scenario.pool).
Proof.
  assert (H : PickPeer (Set_peers scenario.pool scenario.three_peers) "Jack" =
              Some (Some (mkhttpGetter "localhost:8002/_geecache/"))) by (by vm_compute).
  split; [exact H|].
  destruct (PickPeer_after_Set scenario.pool scenario.three_peers "Jack" _ H)
    as (peer & _ & ? & _ & ? & Hp).
  exists peer. split_and!; [done..|]. injection Hp. intros ->. reflexivity.
Defined.

(** X21.  No remote peer.  A pool that was never told its peers picks none, and
    so does a pool told only of itself (or of the empty address): every key
    is then loaded on this node. *)
Theorem PickPeer_without_remote_peers (h : HTTPPool) (peers : list string) (key : string) :
  (∀ peer, peer ∈ peers → peer = self h ∨ peer = "") →
  PickPeer (Set_peers h peers) key = None ∧
  PickPeer (NewHTTPPool (self h)) key = None.
Proof.
  intros Hall. split; [|done].
  destruct (PickPeer (Set_peers h peers) key) as [p|] eqn:E; [|done]. exfalso.
  revert E. unfold PickPeer. rewrite Set_ring.
  set (peer := consistenthash.Get _ key).
  destruct (bool_decide (peer ≠ "")) eqn:E1; [|done].
  destruct (bool_decide (peer ≠ self (Set_peers h peers))) eqn:E2; [|done].
  apply bool_decide_eq_true in E1, E2. intros _.
  pose proof (consistenthash_more.Get_registered defaultReplicas None [peers] key E1) as Hin.
  simpl in Hin. rewrite app_nil_r in Hin. by destruct (Hall _ Hin).
Qed.

Lemma PickPeer_without_remote_peers_witness :
  PickPeer (Set_peers scenario.pool ["localhost:8001"]) "Tom" = None.
Proof.
  apply (PickPeer_without_remote_peers scenario.pool ["localhost:8001"] "Tom").
  intros peer Hin. apply list_elem_of_singleton in Hin. by left.
Defined.

(** *** A fetch from a serving peer *)

Lemma prefix_append (p s : string) : String.prefix p (p +:+ s) = true.
Proof.
  induction p as [|a p IH]; simpl; [by destruct s|].
  by destruct (Ascii.ascii_dec a a).
Qed.

Lemma slice_from_append (p s : string) : slice_from (String.length p) (p +:+ s) = s.
Proof. induction p as [|a p IH]; simpl; [by destruct s | done]. Qed.

(** X22.  The two ends of the protocol.  Let the request that an [httpGetter]
    makes for a namespace without "/" and a key be answered by the handler
    of a pool, run on the base path followed by the namespace, "/" and the
    key.  Then the fetch returns the bytes of the value that the [Get] of
    the namespace returns there, and it fails with the status in its error
    when the namespace is not registered (404) or its [Get] fails (500). *)
Theorem fetch_from_serving_peer (fuel : nat) (h : HTTPPool) (groups : registry)
    (http_Get : string → http_outcome) (QueryEscape : string → string)
    (getter : httpGetter) (group key : string) :
  ¬ contains group "/" →
  (∀ groups' resp,
     ServeHTTP fuel h groups (basePath h +:+ group +:+ "/" +:+ key) =
       Some (Returns (groups', resp)) →
     http_Get (baseURL getter +:+ QueryEscape group +:+ "/" +:+ QueryEscape key) =
       delivered resp) →
  match GetGroup groups group with
  | None =>
      httpGetter_Get http_Get QueryEscape getter group key = Err "server returned:404"
  | Some g =>
      match Get fuel g key with
      | Some (_, Ok view) =>
          httpGetter_Get http_Get QueryEscape getter group key = Ok (b view)
      | Some (_, Err _) =>
          httpGetter_Get http_Get QueryEscape getter group key = Err "server returned:500"
      | None => True
      end
  end.
Proof.
  intros Hgroup Hnet. revert Hnet.
  rewrite (ServeHTTP_cases fuel h groups _ (prefix_append _ _)), slice_from_append.
  assert (Hcut : cut "/" (group +:+ "/" +:+ key) = Some (group, key)) by (by apply cut1_Some).
  rewrite Hcut. unfold GetGroup, httpGetter_Get.
  destruct (groups !! group) as [g|].
  - destruct (Get fuel g key) as [[g' [view|err]]|]; [| |done].
    + intros Hnet. by rewrite (Hnet _ _ eq_refl).
    + intros Hnet. by rewrite (Hnet _ _ eq_refl).
  - intros Hnet. by rewrite (Hnet _ _ eq_refl).
Qed.

Lemma fetch_from_serving_peer_witness :
  httpGetter_Get scenario.answers_630 (λ s, s) scenario.getter_8001 "score" "Tom" =
    Ok (bytes "630").
Proof.
  assert (Hno : ¬ contains "score" "/").
  { apply cut1_None. reflexivity. }
  assert (Hnet : ∀ groups' resp,
            ServeHTTP 2 scenario.pool scenario.groups
              (basePath scenario.pool +:+ "score" +:+ "/" +:+ "Tom") =
              Some (Returns (groups', resp)) →
            scenario.answers_630
              (baseURL scenario.getter_8001 +:+ "score" +:+ "/" +:+ "Tom") =
              delivered resp).
  { intros groups' resp H. vm_compute in H. injection H as _ <-. reflexivity. }
  exact (fetch_from_serving_peer 2 scenario.pool scenario.groups scenario.answers_630
           (λ s, s) scenario.getter_8001 "score" "Tom" Hno Hnet).
Defined.

(** *** The theorems at the groups of the worked examples *)

Lemma score_wf (cacheBytes : Z) : wf_group (scenario.score_of cacheBytes).
Proof. split; [apply wf_New | done]. Qed.

Lemma score_Tom_misses (cacheBytes : Z) :
  Get 2 (scenario.score_of cacheBytes) "Tom" =
    getLocally 2 (scenario.score_of cacheBytes) "Tom".
Proof.
  rewrite (Get_not_holds _ _ _ (fresh_not_holds (scenario.score_of cacheBytes) "Tom" eq_refl)).
  apply load_no_remote. by intros b.
Qed.

Lemma Get_hit_calls_nobody_witness :
  ∃ g1,
    Get 2 (scenario.score_of 2048) "Tom" = Some (g1, Ok (scenario.bv "630")) ∧
    wf_group g1 ∧ holds g1 "Tom" ∧
    ∃ v g', Get 0 g1 "Tom" = Some (g', Ok v) ∧ loads g' = loads g1.
Proof.
  destruct (getLocally_Ok 2 (scenario.score_of 2048) "Tom" (bytes "630") (score_wf 2048))
    as (g1 & rest & E & _ & Hwf & _ & _ & _ & _ & Hl);
    [reflexivity | simpl; lia | intros _; simpl; lia
    | simpl; unfold int64.max; lia | simpl; lia |].
  assert (Hk : holds g1 "Tom").
  { unfold holds. rewrite (lru.wf_cache _ (proj1 Hwf)), Hl. apply list_elem_of_here. }
  destruct (Get_hit_calls_nobody 0 g1 "Tom" Hwf Hk) as (v & g' & HG & _ & Hloads & _).
  exists g1. rewrite score_Tom_misses. split_and!; [exact E | exact Hwf | exact Hk |].
  exists v, g'. split; [exact HG | exact Hloads].
Defined.

Lemma Get_keeps_the_group_witness :
  wf_group (scenario.score_of 2048) ∧
  ∃ g', Get 2 (scenario.score_of 2048) "Tom" = Some (g', Ok (scenario.bv "630")) ∧
        wf_group g' ∧ name g' = "score" ∧ cacheBytes (maincache g') = 2048.
Proof.
  split; [apply score_wf|].
  assert (E : ∃ g', Get 2 (scenario.score_of 2048) "Tom" =
                      Some (g', Ok (scenario.bv "630"))).
  { rewrite score_Tom_misses. eexists. reflexivity. }
  destruct E as (g' & E). exists g'.
  destruct (Get_keeps_the_group 2 (scenario.score_of 2048) g' "Tom" _ (score_wf 2048) E)
    as (Hwf & Hn & _ & _ & Hc & _).
  split_and!; [exact E | exact Hwf | exact Hn | exact Hc].
Defined.

Lemma Get_value_too_large_is_reloaded_witness :
  0 < 5 < Z.of_nat (String.length "Tom") + Z.of_nat (length (bytes "630")) ∧
  ∃ g1 g2,
    Get 2 (scenario.score_of 5) "Tom" = Some (g1, Ok (scenario.bv "630")) ∧
    Get 2 g1 "Tom" = Some (g2, Ok (scenario.bv "630")) ∧
    loads g2 = ["Tom"; "Tom"].
Proof.
  assert (Hcap : 0 < 5 < Z.of_nat (String.length "Tom") + Z.of_nat (length (bytes "630")))
    by (simpl; lia).
  split; [exact Hcap|].
  destruct (Get_value_too_large_is_reloaded 2 (scenario.score_of 5) "Tom" (bytes "630"))
    as (g1 & g2 & H1 & _ & _ & H2 & _ & H3).
  - apply score_wf.
  - by apply fresh_not_holds.
  - by intros b.
  - reflexivity.
  - exact Hcap.
  - simpl. unfold int64.max. lia.
  - simpl. lia.
  - exists g1, g2. split_and!; [exact H1 | exact H2 | exact H3].
Defined.

Lemma Get_negative_capacity_never_returns_witness :
  cacheBytes (maincache (scenario.score_of (-1))) < 0 ∧
  Get 7 (scenario.score_of (-1)) "Tom" = None.
Proof.
  assert (Hcap : cacheBytes (maincache (scenario.score_of (-1))) < 0) by (simpl; lia).
  split; [exact Hcap|].
  apply (Get_negative_capacity_never_returns 7 (scenario.score_of (-1)) "Tom" (bytes "630")).
  - reflexivity.
  - exact Hcap.
  - by intros b.
  - reflexivity.
  - simpl. unfold int64.max. lia.
Defined.

End geecache_more.

(** ** The groups of a program *)

Module geecache_reachable.
Import gostd geecache int64_facts lru_facts gostd_facts geecache_facts geecache_more.

Implicit Types (g : Group) (key : string) (bytes : list byte).

(** What holds of every group a program has: the store is well formed and
    of the group's capacity, no peer picker is set, and every entry of the
    store carries a key the loader was called with and the bytes the loader
    gives for it. *)
Lemma reachable_inv g :
  reachable g →
  wf_group g ∧ peers g = None ∧
  ∀ x, x ∈ lru.ll (store_of g) →
       lru.key x ∈ loads g ∧ getter g (lru.key x) = Ok (b (lru.value x)).
Proof.
  induction 1 as [groups name cacheBytes getter g groups' HN
                 |fuel g key g' r Hreach IH HG].
  - injection HN as <- _. split_and!; [split; [apply wf_New | done] | done |].
    intros x Hx. by apply elem_of_nil in Hx.
  - destruct IH as (Hwf & Hp & Hinv).
    destruct (decide (key ∈ lru.cache (store_of g))) as [Hk|Hk].
    + destruct (element_is_Some key (lru.ll (store_of g))) as [e He];
        [by apply (lru.wf_cache _ (proj1 Hwf))|].
      rewrite (Get_hit_eq fuel g key e Hk He) in HG. injection HG as <- _.
      split_and!.
      * pose proof (wf_Get (store_of g) key (proj1 Hwf)) as Hwf'.
        rewrite (Get_hit _ _ _ Hk He) in Hwf'. split; [exact Hwf' | exact (proj2 Hwf)].
      * done.
      * intros x Hx. apply Hinv. rewrite (Remove_Permutation _ _ _ He). exact Hx.
    + rewrite (Get_not_holds _ _ _ Hk) in HG. unfold load in HG. rewrite Hp in HG.
      destruct (getLocally_fields _ _ _ _ _ HG) as (Hn & Hg & Hp' & Hc & Hw).
      pose proof (getLocally_loads _ _ _ _ _ HG) as Hl.
      split_and!; [by apply Hw | by rewrite Hp' |].
      intros x. rewrite Hl, Hg. revert HG. unfold getLocally, call_getter, populateCache.
      destruct (getter g key) as [bytes|err] eqn:Eg.
      * cbn [maincache]. rewrite add_store_of, cloneBytes_id.
        destruct (lru.Add fuel (store_of g) key (mkByteView bytes)) as [store'|] eqn:EA;
          [|done].
        simpl. intros [= <- _] Hx.
        destruct (Add_entries _ _ _ _ _ (proj1 Hwf) EA x Hx) as [->|Hx'].
        -- split; [left | done].
        -- destruct (Hinv x Hx'). split; [by right | done].
      * intros [= <- _] Hx. destruct (Hinv x Hx). split; [by right | done].
Qed.

(** C5.  Take a group that a program can have, made by [NewGroup] and
    carried on by any calls of [Get], a key [K] for which the loader gives
    [bytes], and a capacity that is unlimited or at least
    [len(K) + len(bytes)], all sums staying within [int64].  A key the
    loader was never called with is not in the store.  When [K] is not in
    the store, [Get K] calls the loader once, stores the value and returns
    it; a second [Get K] right after returns the same value, from the
    store, and calls the loader no more: the group is as the first call
    left it.  When [K] is in the store, [Get K] returns the loader's value
    and does not call the loader.  And a key on which the loader fails is
    not in the store, and [Get] returns the loader's error for it. *)
Theorem C5_cache_then_reuse (fuel : nat) (g : Group) (K : string) (bytes : list byte) :
  reachable g →
  getter g K = Ok bytes →
  0 ≤ cacheBytes (maincache g) →
  (cacheBytes (maincache g) ≠ 0 →
     Z.of_nat (String.length K) + Z.of_nat (length bytes) ≤ cacheBytes (maincache g)) →
  lru.total (lru.ll (store_of g)) +
    (Z.of_nat (String.length K) + Z.of_nat (length bytes)) ≤ int64.max →
  (length (lru.ll (store_of g)) + 2 ≤ fuel)%nat →
  (K ∉ loads g → ¬ holds g K) ∧
  (¬ holds g K →
     ∃ g1,
       Get fuel g K = Some (g1, Ok (mkByteView bytes)) ∧
       loads g1 = K :: loads g ∧
       holds g1 K ∧
       reachable g1 ∧
       Get fuel g1 K = Some (g1, Ok (mkByteView bytes))) ∧
  (holds g K →
     ∃ g1, Get fuel g K = Some (g1, Ok (mkByteView bytes)) ∧ loads g1 = loads g) ∧
  (∀ K' err,
     getter g K' = Err err →
     ¬ holds g K' ∧
     ∃ g', Get fuel g K' = Some (g', Err err) ∧ maincache g' = maincache g ∧
           loads g' = K' :: loads g).
Proof.
  intros Hreach Hload Hcap Hfit Hmax Hfuel.
  destruct (reachable_inv g Hreach) as (Hwf & Hp & Hinv).
  assert (Hrem : ∀ key, no_remote_value g key).
  { intros key bs. unfold remote. by rewrite Hp. }
  assert (Hheld : ∀ key, holds g key →
            key ∈ loads g ∧
            ∃ e, lru.element key (lru.ll (store_of g)) = Some e ∧
                 getter g key = Ok (b (lru.value e))).
  { intros key Hk.
    destruct (element_is_Some key (lru.ll (store_of g))) as [e He];
      [by apply (lru.wf_cache _ (proj1 Hwf))|].
    destruct (element_Some _ _ _ He) as [Hke Hin].
    destruct (Hinv e Hin) as [Hl Hg]. rewrite Hke in Hl, Hg. eauto. }
  split_and!.
  - intros Hnl Hk. by destruct (Hheld K Hk).
  - intros Hno.
    destruct (load_then_hit fuel g K bytes Hwf Hno (Hrem K) Hload Hcap Hfit Hmax Hfuel)
      as (g1 & H1 & H2 & H3 & H4 & _).
    exists g1. split_and!; [done..| |done]. by apply (reachable_Get fuel g K g1 _ Hreach H1).
  - intros Hk. destruct (Hheld K Hk) as (_ & e & He & Hg).
    rewrite Hload in Hg. injection Hg as Hb.
    rewrite (Get_hit_eq fuel g K e Hk He).
    destruct (lru.value e) as [bs]. simpl in Hb. subst bs.
    eexists. split; [reflexivity | done].
  - intros K' err Herr.
    assert (Hno : ¬ holds g K').
    { intros Hk. destruct (Hheld K' Hk) as (_ & e & _ & Hg). rewrite Herr in Hg.
      discriminate Hg. }
    split; [done|].
    rewrite (Get_not_holds _ _ _ Hno), (load_no_remote _ _ _ (Hrem K')).
    rewrite (getLocally_Err _ _ _ _ Herr). eauto.
Qed.

Lemma C5_cache_then_reuse_witness :
  reachable scenario.score ∧
  ("Tom" ∉ loads scenario.score) ∧
  ∃ g1,
    Get 2 scenario.score "Tom" = Some (g1, Ok (scenario.bv "630")) ∧
    loads g1 = ["Tom"] ∧
    holds g1 "Tom" ∧
    Get 2 g1 "Tom" = Some (g1, Ok (scenario.bv "630")) ∧
    ∃ g', Get 2 scenario.score "Unknown" = Some (g', Err "key Unknown not exist").
Proof.
  assert (Hreach : reachable scenario.score).
  { by apply (reachable_NewGroup ∅ "score" 2048 scenario.db_getter scenario.score
                (<["score" := scenario.score]> ∅)). }
  assert (Hnl : "Tom" ∉ loads scenario.score) by apply not_elem_of_nil.
  destruct (C5_cache_then_reuse 2 scenario.score "Tom" (bytes "630") Hreach)
    as (Hfirst & Hmiss & _ & Hfail).
  - done.
  - by vm_compute.
  - intros _. by vm_compute.
  - by vm_compute.
  - simpl. lia.
  - destruct (Hmiss (Hfirst Hnl)) as (g1 & H1 & H2 & H3 & _ & H4).
    split_and!; [done..|]. exists g1. split_and!; [done..|].
    destruct (Hfail "Unknown" "key Unknown not exist") as (_ & g' & Hg' & _); [done | eauto].
Defined.

End geecache_reachable.
